(** * synthlab: the audio signal chain of the synthesizer components

    A shallow embedding of the signal-chain code of the repository:

    - [Tone]: the part of the audio library the components call (node
      construction, [connect], [disconnect], [dispose], parameter writes);
    - [Rebuild]: the synth component that reconstructs every node on each
      effect toggle ([initializeAudioChain], src/unnamed/part_000);
    - [Reconnect]: the synth component that creates its nodes once and only
      rewires them ([createAudioNodes], [updateAudioChain],
      src/plugins/tone.client.ts);
    - [AudioGraph]: the shared list of synths (src/lib/utils/useAudioGraph.ts);
    - [Keyboard]: the play handlers of the on-screen keyboard
      (src/unnamed/part_007);
    - [Metering]: the 50ms level-meter poll;
    - [EnvelopeEditor]: the drag handlers of the envelope editors;
    - [EnvelopeDisplay]: the envelope display of the synth components, its
      points, knob rotation and drag session;
    - [Player], [RebuildNotes], [ReconnectNotes]: [noteOn] and [noteOff] of
      the two synth components;
    - [Oscillator]: the single-synth oscillator component
      (src/plugins/tone.client.ts);
    - [Piano], [PianoVue]: the key layout and the computer-keyboard bindings
      of the keyboard components (src/unnamed/part_007,
      src/app/components/Keyboard.vue);
    - [Slider], [Knob]: the drag handlers of the two controls
      (src/app/components/Slider.vue, src/app/components/Keyboard.vue);
    - [FilterView]: the frequency scale and drag handlers of the filter
      display (src/app/components/Filter.vue);
    - [ModulatorRack]: the modulator list (src/unnamed/part_008).

    JavaScript numbers are idealised as exact rationals ([Q]), and as reals
    where the code exponentiates or takes logarithms (the meter, the filter
    display). *)

From Stdlib Require Import Ascii QArith Qminmax Qround Qabs Reals Lra Lia.
From Stdlib Require Lqa.
From stdpp Require Import base decidable option functions list strings gmap pretty.

Set Default Proof Using "Type".
Local Open Scope Q_scope.
Local Open Scope nat_scope.
Local Open Scope string_scope.
Local Open Scope list_scope.

(** ** Data shared by the components *)

(** The eight optional effect stages. *)
Inductive effect :=
  | EFilter | EDistortion | EBitCrusher | EDelay
  | EChorus | EPhaser | EReverb | ECompressor.

(** The twelve node variables of a synth component
    ([synth], [filter], ..., [compressor], [panner], [gainNode], [meter]). *)
Inductive kind :=
  | KSynth | KEffect (e : effect) | KPanner | KGain | KMeter.

Coercion KEffect : effect >-> kind.

#[global] Instance effect_eq_dec : EqDecision effect.
Proof. solve_decision. Defined.
#[global] Instance kind_eq_dec : EqDecision kind.
Proof. solve_decision. Defined.

(** The fixed order in which both components walk the effects. *)
Definition canonical : list effect :=
  [EFilter; EDistortion; EBitCrusher; EDelay; EChorus; EPhaser; EReverb; ECompressor].

(** The four effects that have a wet/mix parameter which the code sets. *)
Definition wetKinds : list effect := [EDelay; EChorus; EPhaser; EReverb].

Record Envelope := mkEnvelope {
  attack : Q; hold : Q; decay : Q; sustain : Q; release : Q
}.

(** Values handed to the audio library: numbers, strings, option objects. *)
#[warnings="-register-all"]
Inductive value :=
  | Num (q : Q)
  | Str (s : string)
  | Obj (fields : list (string * value)).

Definition envelopeObj (e : Envelope) : value :=
  Obj [("attack", Num (attack e)); ("hold", Num (hold e)); ("decay", Num (decay e));
       ("sustain", Num (sustain e)); ("release", Num (release e))].

(** ** The audio library, as far as the components use it *)
Module Tone.

(** Parameters the components write after construction. *)
Inductive pname :=
  | frequency | Q_ | type_ | distortion | bits | delayTime | feedback | wet
  | depth | octaves | decay_ | threshold | ratio | gain | pan
  | oscillator | envelope_.

#[global] Instance pname_eq_dec : EqDecision pname.
Proof. solve_decision. Defined.

(** A node handle. *)
#[warnings="-notation-for-abbreviation"]
Notation id := nat (only parsing).

Inductive endpoint := Node (i : id) | Destination.

#[global] Instance endpoint_eq_dec : EqDecision endpoint.
Proof. solve_decision. Defined.

(** What a connection leads out of and into. *)
Definition edge : Type := id * endpoint.

Record node := mkNode {
  kindOf : kind;              (* which class was constructed *)
  args : list value;          (* the constructor arguments, as written *)
  disposed : bool;            (* [dispose()] has been called *)
  params : pname -> option value  (* parameters written since construction *)
}.

Definition mark_disposed (n : node) : node :=
  mkNode (kindOf n) (args n) true (params n).

Definition write (p : pname) (v : value) (n : node) : node :=
  mkNode (kindOf n) (args n) (disposed n) (<[p := Some v]> (params n)).

(** The audio context: every node ever constructed (a node's handle is its
    index) and the current connections, in the order they were made. *)
Record world := mkWorld {
  heap : list node;
  edges : list edge
}.

Definition empty : world := mkWorld [] [].

Definition alloc (k : kind) (a : list value) (w : world) : id * world :=
  (length (heap w), mkWorld (heap w ++ [mkNode k a false (fun _ => None)]) (edges w)).

(** [a.connect(b)] *)
Definition connect (a : id) (b : endpoint) (w : world) : world :=
  mkWorld (heap w) (edges w ++ [(a, b)]).

Definition from (a : id) (e : edge) : bool := bool_decide (e.1 = a).

(** [a.disconnect()]: drops every connection leaving [a]. *)
Definition disconnect (a : id) (w : world) : world :=
  mkWorld (heap w) (List.filter (fun e => negb (from a e)) (edges w)).

(** [a.dispose()]: the node is released and its outputs disconnected. *)
Definition dispose (a : id) (w : world) : world :=
  mkWorld (alter mark_disposed a (heap w))
          (List.filter (fun e => negb (from a e)) (edges w)).

(** [a.p.value = v] / [a.p = v] / [a.set({p: v})] *)
Definition setParam (a : id) (p : pname) (v : value) (w : world) : world :=
  mkWorld (alter (write p v) a (heap w)) (edges w).

(** The connections [Tone.connectSeries(...nodes)] makes. *)
Fixpoint series (nodes : list id) : list edge :=
  match nodes with
  | a :: ((b :: _) as rest) => (a, Node b) :: series rest
  | _ => []
  end.

(** [Tone.connectSeries(...nodes)]: each node is connected to the next. *)
Fixpoint connectSeries (nodes : list id) (w : world) : world :=
  match nodes with
  | a :: ((b :: _) as rest) => connectSeries rest (connect a (Node b) w)
  | _ => w
  end.

Definition live (w : world) (i : id) : bool :=
  match heap w !! i with
  | Some n => negb (disposed n)
  | None => false
  end.

Definition param (w : world) (i : id) (p : pname) : option value :=
  n ← heap w !! i; params n p.

End Tone.

Import Tone.

(** ** Component state and the effect monad *)

(** The numeric refs of the components.  In [Reconnect] they are the fields
    of the reactive [xProps] objects: [filterFreq] is [filterProps.freq],
    [delayWet] is [delayProps.wet], and so on. *)
Inductive numref :=
  | gainValue | panValue
  | filterFreq | filterQ
  | distortionAmount
  | reverbWet | reverbRoomSize
  | delayTime_ | delayFeedback | delayWet
  | chorusFreq | chorusDepth | chorusWet
  | phaserFreq | phaserDepth | phaserWet
  | bitCrusherBits | bitCrusherWet
  | compressorThreshold | compressorRatio.

#[global] Instance numref_eq_dec : EqDecision numref.
Proof. solve_decision. Defined.

Record state := mkState {
  oscillatorType : string;
  envelope : Envelope;
  filterType : string;
  num : numref -> Q;          (* the numeric refs *)
  enabled : effect -> bool;   (* filterEnabled ... compressorEnabled *)
  reg : kind -> option id;    (* the node variables; [None] is [null] *)
  tone : world
}.

Definition with_tone (f : world -> world) (s : state) : state :=
  mkState (oscillatorType s) (envelope s) (filterType s) (num s) (enabled s) (reg s)
          (f (tone s)).

Definition with_reg (f : (kind -> option id) -> (kind -> option id)) (s : state) : state :=
  mkState (oscillatorType s) (envelope s) (filterType s) (num s) (enabled s)
          (f (reg s)) (tone s).

Definition with_num (f : (numref -> Q) -> (numref -> Q)) (s : state) : state :=
  mkState (oscillatorType s) (envelope s) (filterType s) (f (num s)) (enabled s)
          (reg s) (tone s).

Definition with_enabled (f : (effect -> bool) -> (effect -> bool)) (s : state) : state :=
  mkState (oscillatorType s) (envelope s) (filterType s) (num s) (f (enabled s))
          (reg s) (tone s).

(** Component code runs over the state and may throw ([None]). *)
Definition M (A : Type) : Type := state -> option (A * state).

#[global] Instance M_ret : MRet M := fun A a s => Some (a, s).

#[global] Instance M_bind : MBind M := fun A B f m s =>
  match m s with
  | Some (a, s') => f a s'
  | None => None
  end.

Definition throw {A} : M A := fun _ => None.

Definition modify (f : state -> state) : M unit := fun s => Some (tt, f s).

(** Reading a node variable. *)
Definition var (k : kind) : M (option id) := fun s => Some (reg s k, s).

(** [k = new Tone.X(args)]: construct a node and store its handle in [k]. *)
Definition construct (k : kind) (a : list value) : M unit :=
  fun s => let '(i, w) := alloc k a (tone s) in
           Some (tt, with_reg <[k := Some i]> (with_tone (fun _ => w) s)).

Definition connect (a : id) (b : id) : M unit := modify (with_tone (Tone.connect a (Node b))).
Definition toDestination (a : id) : M unit := modify (with_tone (Tone.connect a Destination)).
Definition disconnect (a : id) : M unit := modify (with_tone (Tone.disconnect a)).
Definition dispose (a : id) : M unit := modify (with_tone (Tone.dispose a)).
Definition setParam (a : id) (p : pname) (v : value) : M unit :=
  modify (with_tone (Tone.setParam a p v)).

Definition connectSeries (nodes : list id) : M unit :=
  modify (with_tone (Tone.connectSeries nodes)).

(** [x?.f()]: call [f] unless the variable is null. *)
Definition opt (k : kind) (f : id -> M unit) : M unit :=
  o ← var k; match o with Some i => f i | None => mret tt end.

(** [x!]: the variable is used as if it were not null. *)
Definition nonnull (k : kind) : M id :=
  o ← var k; match o with Some i => mret i | None => throw end.

Definition numv (r : numref) : M value := fun s => Some (Num (num s r), s).

Definition get {A} (f : state -> A) : M A := fun s => Some (f s, s).

Definition synthOptions : M value :=
  ty ← get oscillatorType; env ← get envelope;
  mret (Obj [("oscillator", Obj [("type", Str ty)]); ("envelope", envelopeObj env)]).

(** [if (xEnabled.value) { ... currentNode = x } ]: the block's new
    [currentNode] when the flag is set, the old one otherwise. *)
Definition ifEnabled (e : effect) (block : M id) (currentNode : id) : M id :=
  get (fun s => enabled s e) ≫= fun en : bool => if en then block else mret currentNode.

(** [[a, b, ...].forEach((node) => node?.f())] over node variables. *)
Fixpoint forEach (l : list kind) (f : id -> M unit) : M unit :=
  match l with
  | [] => mret tt
  | k :: rest => opt k f;; forEach rest f
  end.

(** ** The rebuilding component (src/unnamed/part_000) *)
Module Rebuild.

(** The refs as the component declares them. *)
Definition init : state :=
  mkState "sine" (mkEnvelope 0.1 0.1 0.1 0.7 0.5) "lowpass"
    (fun r => match r with
              | gainValue => 0.8 | panValue => 0
              | filterFreq => 2000 | filterQ => 1
              | distortionAmount => 0.4
              | reverbWet => 0.3 | reverbRoomSize => 0.7
              | delayTime_ => 0.25 | delayFeedback => 0.3 | delayWet => 0.3
              | chorusFreq => 4 | chorusDepth => 0.5 | chorusWet => 0.5
              | phaserFreq => 0.5 | phaserDepth => 10 | phaserWet => 0.5
              | bitCrusherBits => 8 | bitCrusherWet => 0.5
              | compressorThreshold => -20 | compressorRatio => 4
              end%Q)
    (fun _ => false) (fun _ => None) Tone.empty.

(** "Clean up existing nodes" *)
Definition cleanup : M unit :=
  opt KSynth dispose;;
  opt EFilter dispose;;
  opt EDistortion dispose;;
  opt EBitCrusher dispose;;
  opt EDelay dispose;;
  opt EChorus dispose;;
  opt EPhaser dispose;;
  opt EReverb dispose;;
  opt ECompressor dispose;;
  opt KPanner dispose;;
  opt KGain dispose;;
  opt KMeter dispose.

(** "Create synth", "Create effects chain" *)
Definition createNodes : M unit :=
  o ← synthOptions;
  construct KSynth [Str "Tone.Synth"; o];;
  ff ← numv filterFreq; ft ← get filterType;
  construct EFilter [ff; Str ft];;
  da ← numv distortionAmount;
  construct EDistortion [da];;
  bb ← numv bitCrusherBits;
  construct EBitCrusher [bb];;
  dt ← numv delayTime_; df ← numv delayFeedback;
  construct EDelay [dt; df];;
  cf ← numv chorusFreq; cd ← numv chorusDepth;
  construct EChorus [cf; cd; Num 0.5];;
  pf ← numv phaserFreq;
  construct EPhaser [Obj [("frequency", pf); ("baseFrequency", Num 1000)]];;
  rs ← numv reverbRoomSize;
  construct EReverb [rs];;
  ct ← numv compressorThreshold; cr ← numv compressorRatio;
  construct ECompressor [ct; cr];;
  pv ← numv panValue;
  construct KPanner [pv];;
  gv ← numv gainValue;
  construct KGain [gv];;
  construct KMeter [Obj [("smoothing", Num 0.8)]].

(** "Connect chain": the node variables were assigned just above, so the
    code reads them as non-null. *)
Definition connectChain : M unit :=
  synth ← nonnull KSynth;
  let currentNode := synth in
  (* Effects chain (order matters!) *)
  currentNode ← ifEnabled EFilter
    (filter ← nonnull EFilter;
     connect currentNode filter;; mret filter) currentNode;
  currentNode ← ifEnabled EDistortion
    (distortion ← nonnull EDistortion;
     connect currentNode distortion;; mret distortion) currentNode;
  currentNode ← ifEnabled EBitCrusher
    (bitCrusher ← nonnull EBitCrusher;
     connect currentNode bitCrusher;; mret bitCrusher) currentNode;
  currentNode ← ifEnabled EDelay
    (delay ← nonnull EDelay;
     w ← numv delayWet; setParam delay wet w;;
     connect currentNode delay;; mret delay) currentNode;
  currentNode ← ifEnabled EChorus
    (chorus ← nonnull EChorus;
     w ← numv chorusWet; setParam chorus wet w;;
     connect currentNode chorus;; mret chorus) currentNode;
  currentNode ← ifEnabled EPhaser
    (phaser ← nonnull EPhaser;
     w ← numv phaserWet; setParam phaser wet w;;
     connect currentNode phaser;; mret phaser) currentNode;
  currentNode ← ifEnabled EReverb
    (reverb ← nonnull EReverb;
     w ← numv reverbWet; setParam reverb wet w;;
     connect currentNode reverb;; mret reverb) currentNode;
  currentNode ← ifEnabled ECompressor
    (compressor ← nonnull ECompressor;
     connect currentNode compressor;; mret compressor) currentNode;
  (* Final chain: panning -> gain -> meter -> destination *)
  panner ← nonnull KPanner;
  gainNode ← nonnull KGain;
  meter ← nonnull KMeter;
  connect currentNode panner;;
  connect panner gainNode;;
  connect gainNode meter;;
  toDestination gainNode.

Definition initializeAudioChain : M unit := cleanup;; createNodes;; connectChain.

Definition onMounted : M unit := initializeAudioChain.

(** The watcher callback of each numeric ref; three refs have none. *)
Definition watchNum (r : numref) (val : Q) : M unit :=
  match r with
  | gainValue => opt KGain (fun gainNode => setParam gainNode gain (Num val))
  | panValue => opt KPanner (fun panner => setParam panner pan (Num val))
  | filterFreq => opt EFilter (fun filter => setParam filter frequency (Num val))
  | filterQ => opt EFilter (fun filter => setParam filter Q_ (Num val))
  | distortionAmount =>
      opt EDistortion (fun distortion => setParam distortion Tone.distortion (Num val))
  | bitCrusherBits => opt EBitCrusher (fun bitCrusher => setParam bitCrusher bits (Num val))
  | delayTime_ => opt EDelay (fun delay => setParam delay delayTime (Num val))
  | delayFeedback => opt EDelay (fun delay => setParam delay feedback (Num val))
  | delayWet => opt EDelay (fun delay => setParam delay wet (Num val))
  | chorusFreq => opt EChorus (fun chorus => setParam chorus frequency (Num val))
  | chorusDepth => opt EChorus (fun chorus => setParam chorus depth (Num val))
  | chorusWet => opt EChorus (fun chorus => setParam chorus wet (Num val))
  | phaserFreq => opt EPhaser (fun phaser => setParam phaser frequency (Num val))
  | phaserWet => opt EPhaser (fun phaser => setParam phaser wet (Num val))
  | reverbWet => opt EReverb (fun reverb => setParam reverb wet (Num val))
  | compressorThreshold =>
      opt ECompressor (fun compressor => setParam compressor threshold (Num val))
  | compressorRatio =>
      opt ECompressor (fun compressor => setParam compressor ratio (Num val))
  | reverbRoomSize | phaserDepth | bitCrusherWet => mret tt
  end.

Definition watchFilterType (val : string) : M unit :=
  opt EFilter (fun filter => setParam filter type_ (Str val)).

Definition watchOscillatorType (newVal : string) : M unit :=
  opt KSynth (fun synth => setParam synth oscillator (Obj [("type", Str newVal)])).

Definition watchEnvelope (newEnv : Envelope) : M unit :=
  opt KSynth (fun synth => setParam synth envelope_ (envelopeObj newEnv)).

(** The watcher over the eight enable flags. *)
Definition watchEnabled : M unit := initializeAudioChain.

(** "Cleanup" *)
Definition onBeforeUnmount : M unit :=
  opt KSynth dispose;;
  opt EFilter dispose;;
  opt EDistortion dispose;;
  opt EBitCrusher dispose;;
  opt EDelay dispose;;
  opt EChorus dispose;;
  opt EPhaser dispose;;
  opt EReverb dispose;;
  opt ECompressor dispose;;
  opt KPanner dispose;;
  opt KGain dispose;;
  opt KMeter dispose.

(** What the page does to the component.  Writing a ref runs its watcher
    when the value changed (the watchers are modelled as running at once). *)
Inductive event :=
  | SetNum (r : numref) (v : Q)
  | SetFilterType (t : string)
  | SetOscillatorType (t : string)
  | SetEnabled (e : effect) (b : bool).

Definition handle (ev : event) : M unit :=
  match ev with
  | SetNum r v =>
      old ← get (fun s => num s r);
      if Qeq_bool old v then mret tt
      else modify (with_num <[r := v]>);; watchNum r v
  | SetFilterType t =>
      old ← get filterType;
      if String.eqb old t then mret tt
      else modify (fun s => mkState (oscillatorType s) (envelope s) t (num s)
                                    (enabled s) (reg s) (tone s));;
           watchFilterType t
  | SetOscillatorType t =>
      old ← get oscillatorType;
      if String.eqb old t then mret tt
      else modify (fun s => mkState t (envelope s) (filterType s) (num s)
                                    (enabled s) (reg s) (tone s));;
           watchOscillatorType t
  | SetEnabled e b =>
      old ← get (fun s => enabled s e);
      if Bool.eqb old b then mret tt
      else modify (with_enabled <[e := b]>);; watchEnabled
  end.

Fixpoint run (evs : list event) : M unit :=
  match evs with
  | [] => mret tt
  | ev :: rest => handle ev;; run rest
  end.

End Rebuild.

(** ** The reconnecting component (src/plugins/tone.client.ts) *)
Module Reconnect.

(** The refs as the component declares them ([bitCrusherWet] has no
    counterpart here and is never read). *)
Definition init : state :=
  mkState "sine" (mkEnvelope 0.1 0.1 0.1 0.7 0.5) "lowpass"
    (fun r => match r with
              | gainValue => 0.8 | panValue => 0
              | filterFreq => 2000 | filterQ => 0
              | distortionAmount => 0.4
              | reverbWet => 0.3 | reverbRoomSize => 0.7
              | delayTime_ => 0.25 | delayFeedback => 0.3 | delayWet => 0.3
              | chorusFreq => 1 | chorusDepth => 0.5 | chorusWet => 0.5
              | phaserFreq => 1 | phaserDepth => 5 | phaserWet => 0.5
              | bitCrusherBits => 8 | bitCrusherWet => 0
              | compressorThreshold => -20 | compressorRatio => 4
              end%Q)
    (fun _ => false) (fun _ => None) Tone.empty.

Definition createAudioNodes : M unit :=
  (* Create synth and final output nodes *)
  o ← synthOptions;
  construct KSynth [Str "Tone.Synth"; o];;
  pv ← numv panValue;
  construct KPanner [pv];;
  gv ← numv gainValue;
  construct KGain [gv];;
  construct KMeter [Obj [("smoothing", Num 0.8)]];;
  (* Create all possible effect nodes *)
  ff ← numv filterFreq; ft ← get filterType;
  construct EFilter [ff; Str ft];;
  da ← numv distortionAmount;
  construct EDistortion [da];;
  bb ← numv bitCrusherBits;
  construct EBitCrusher [bb];;
  dt ← numv delayTime_; df ← numv delayFeedback;
  construct EDelay [dt; df];;
  cf ← numv chorusFreq; cd ← numv chorusDepth;
  construct EChorus [cf; cd; Num 0.5];;
  pf ← numv phaserFreq; pd ← numv phaserDepth;
  construct EPhaser [Obj [("frequency", pf); ("octaves", pd); ("baseFrequency", Num 1000)]];;
  rs ← numv reverbRoomSize;
  construct EReverb [rs];;
  ct ← numv compressorThreshold; cr ← numv compressorRatio;
  construct ECompressor [ct; cr];;
  (* Set initial wet values *)
  opt EDelay (fun delay => w ← numv delayWet; setParam delay wet w);;
  opt EChorus (fun chorus => w ← numv chorusWet; setParam chorus wet w);;
  opt EPhaser (fun phaser => w ← numv phaserWet; setParam phaser wet w);;
  opt EReverb (fun reverb => w ← numv reverbWet; setParam reverb wet w).

(** [if (xProps.value.enabled && x) activeEffects.push(x)] *)
Definition pushIfEnabled (e : effect) (activeEffects : list id) : M (list id) :=
  get (fun s => enabled s e) ≫= fun en : bool =>
  node ← var e;
  mret (match en, node with
        | true, Some x => activeEffects ++ [x]
        | _, _ => activeEffects
        end).

Definition updateAudioChain : M unit :=
  synth ← var KSynth; panner ← var KPanner; gainNode ← var KGain;
  match synth, panner, gainNode with
  | Some synth, Some panner, Some gainNode =>
      (* Disconnect everything first *)
      disconnect synth;;
      forEach (map KEffect canonical) disconnect;;
      disconnect panner;;
      disconnect gainNode;;
      (* Build the active effects chain *)
      let activeEffects := [] in
      activeEffects ← pushIfEnabled EFilter activeEffects;
      activeEffects ← pushIfEnabled EDistortion activeEffects;
      activeEffects ← pushIfEnabled EBitCrusher activeEffects;
      activeEffects ← pushIfEnabled EDelay activeEffects;
      activeEffects ← pushIfEnabled EChorus activeEffects;
      activeEffects ← pushIfEnabled EPhaser activeEffects;
      activeEffects ← pushIfEnabled EReverb activeEffects;
      activeEffects ← pushIfEnabled ECompressor activeEffects;
      (* Connect the chain *)
      let chain := [synth] ++ activeEffects ++ [panner; gainNode] in
      connectSeries chain;;
      (* Connect to meter and destination *)
      meter ← nonnull KMeter;
      connect gainNode meter;;
      toDestination gainNode
  | _, _, _ => mret tt
  end.

Definition onMounted : M unit := createAudioNodes;; updateAudioChain.

Definition onBeforeUnmount : M unit :=
  forEach [KSynth; KEffect EFilter; KEffect EDistortion; KEffect EBitCrusher;
           KEffect EDelay; KEffect EChorus; KEffect EPhaser; KEffect EReverb;
           KEffect ECompressor; KPanner; KGain; KMeter] dispose.

(** The deep watcher of each effect's props object: [val] is the object
    as it stands when the watcher runs. *)
Definition watchProps (e : effect) : M unit :=
  match e with
  | EFilter =>
      opt EFilter (fun filter =>
        f ← numv filterFreq; setParam filter frequency f;;
        q ← numv filterQ; setParam filter Q_ q;;
        t ← get filterType; setParam filter type_ (Str t))
  | EDistortion =>
      opt EDistortion (fun distortion =>
        a ← numv distortionAmount; setParam distortion Tone.distortion a)
  | EBitCrusher =>
      opt EBitCrusher (fun bitCrusher =>
        b ← numv bitCrusherBits; setParam bitCrusher bits b)
  | EDelay =>
      opt EDelay (fun delay =>
        t ← numv delayTime_; setParam delay delayTime t;;
        f ← numv delayFeedback; setParam delay feedback f;;
        w ← numv delayWet; setParam delay wet w)
  | EReverb =>
      opt EReverb (fun reverb =>
        r ← numv reverbRoomSize; setParam reverb decay_ r;;
        w ← numv reverbWet; setParam reverb wet w)
  | ECompressor =>
      opt ECompressor (fun compressor =>
        t ← numv compressorThreshold; setParam compressor threshold t;;
        r ← numv compressorRatio; setParam compressor ratio r)
  | EChorus =>
      opt EChorus (fun chorus =>
        f ← numv chorusFreq; setParam chorus frequency f;;
        d ← numv chorusDepth; setParam chorus depth d;;
        w ← numv chorusWet; setParam chorus wet w)
  | EPhaser =>
      opt EPhaser (fun phaser =>
        f ← numv phaserFreq; setParam phaser frequency f;;
        d ← numv phaserDepth; setParam phaser octaves d;;
        w ← numv phaserWet; setParam phaser wet w)
  end.

Definition watchGain (val : Q) : M unit :=
  opt KGain (fun gainNode => setParam gainNode gain (Num val)).

Definition watchPan (val : Q) : M unit :=
  opt KPanner (fun panner => setParam panner pan (Num val)).

Definition watchOscillatorType (newVal : string) : M unit :=
  opt KSynth (fun synth => setParam synth oscillator (Obj [("type", Str newVal)])).

Definition watchEnvelope (newEnv : Envelope) : M unit :=
  opt KSynth (fun synth => setParam synth envelope_ (envelopeObj newEnv)).

(** "only update chain, don't recreate nodes" *)
Definition watchEnabled : M unit := updateAudioChain.

(** The props object a numeric field belongs to. *)
Definition propsOf (r : numref) : option effect :=
  match r with
  | filterFreq | filterQ => Some EFilter
  | distortionAmount => Some EDistortion
  | bitCrusherBits => Some EBitCrusher
  | delayTime_ | delayFeedback | delayWet => Some EDelay
  | reverbWet | reverbRoomSize => Some EReverb
  | compressorThreshold | compressorRatio => Some ECompressor
  | chorusFreq | chorusDepth | chorusWet => Some EChorus
  | phaserFreq | phaserDepth | phaserWet => Some EPhaser
  | gainValue | panValue | bitCrusherWet => None
  end.

(** What the page does to the component.  The controls replace a props
    object as a whole, which runs its deep watcher; a change of an enable
    flag runs the chain watcher first (it is registered first). *)
Inductive event :=
  | SetNum (r : numref) (v : Q)
  | SetFilterType (t : string)
  | SetEnabled (e : effect) (b : bool).

Definition handle (ev : event) : M unit :=
  match ev with
  | SetNum r v =>
      old ← get (fun s => num s r);
      match propsOf r with
      | Some e => modify (with_num <[r := v]>);; watchProps e
      | None =>
          if Qeq_bool old v then mret tt
          else modify (with_num <[r := v]>);;
               match r with
               | gainValue => watchGain v
               | panValue => watchPan v
               | _ => mret tt
               end
      end
  | SetFilterType t =>
      modify (fun s => mkState (oscillatorType s) (envelope s) t (num s)
                               (enabled s) (reg s) (tone s));;
      watchProps EFilter
  | SetEnabled e b =>
      modify (with_enabled <[e := b]>);;
      watchEnabled;;
      watchProps e
  end.

Fixpoint run (evs : list event) : M unit :=
  match evs with
  | [] => mret tt
  | ev :: rest => handle ev;; run rest
  end.

End Reconnect.

(** ** The shared list of synths (src/lib/utils/useAudioGraph.ts) *)
Module AudioGraph.

Inductive trigger := Attack (note : string) | Release (note : string).

(** A synth session; [received] lists the trigger calls its [PolySynth] has
    received, oldest first. *)
Record SynthData := mkSynthData {
  id_ : string;
  oscillator_type : string;
  envelope_of : Envelope;
  received : list trigger
}.

(** The two module-level refs. *)
Record graph := mkGraph {
  synths : list SynthData;
  activeNotes : gset string
}.

Definition empty : graph := mkGraph [] ∅.

(** [createSynth]; the random UUID is taken as an argument. *)
Definition createSynth (uuid : string) (g : graph) : SynthData * graph :=
  let synthData := mkSynthData uuid "sine" (mkEnvelope 0.1 0 0.1 0.7 0.5) [] in
  (synthData, mkGraph (synths g ++ [synthData]) (activeNotes g)).

Definition updateSynth (updatedSynth : SynthData) (g : graph) : graph :=
  mkGraph (map (fun s => if String.eqb (id_ s) (id_ updatedSynth) then updatedSynth else s)
               (synths g))
          (activeNotes g).

End AudioGraph.

(** ** The on-screen keyboard's play handlers (src/unnamed/part_007) *)
Module Keyboard.

Inductive emitted := EmitNoteOn (note : string) | EmitNoteOff (note : string).




End Keyboard.

(** ** The level-meter poll *)
Module Metering.





End Metering.

(** ** The envelope editors' drag handlers *)
Module EnvelopeEditor.

#[local] Open Scope Q_scope.

Record MouseEvent := mkMouseEvent { clientX : Q; clientY : Q }.

Record DOMRect := mkRect { left : Q; top : Q; width : Q; height : Q }.

(** [Math.max(0, Math.min(1, v))] *)
Definition clamp01 (v : Q) : Q := Qmax 0 (Qmin 1 v).

(** The editor inside the synth component (src/unnamed/part_000).  [svg] is
    the bounding rectangle of the SVG element when the ref is set. *)
Record editor := mkEditor {
  isDragging : bool;
  dragPoint : option string;
  svg : option DOMRect;
  svgWidth : Q;
  svgHeight : Q;
  envelope : Envelope
}.

Definition with_envelope (env : Envelope) (ed : editor) : editor :=
  mkEditor (isDragging ed) (dragPoint ed) (svg ed) (svgWidth ed) (svgHeight ed) env.

Definition handleMouseMove (e : MouseEvent) (ed : editor) : editor :=
  match isDragging ed, dragPoint ed, svg ed with
  | true, Some point, Some rect =>
      if String.eqb point "" then ed else
      let x := ((clientX e - left rect) / width rect) * svgWidth ed in
      let y := ((clientY e - top rect) / height rect) * svgHeight ed in
      let normalizedX := clamp01 (x / svgWidth ed) in
      let normalizedY := clamp01 (1 - y / svgHeight ed) in
      let env := envelope ed in
      if String.eqb point "attack" then
        with_envelope (mkEnvelope (Qmax 0.01 (normalizedX * 2)) (hold env) (decay env)
                                  (sustain env) (release env)) ed
      else if String.eqb point "hold" then
        with_envelope (mkEnvelope (attack env) (Qmax 0.01 (normalizedX * 2)) (decay env)
                                  (sustain env) (release env)) ed
      else if String.eqb point "decay" then
        with_envelope (mkEnvelope (attack env) (hold env) (Qmax 0.01 (normalizedX * 2))
                                  (sustain env) (release env)) ed
      else if String.eqb point "sustain" then
        let sustainNormalizedX := normalizedX * 2 in
        with_envelope (mkEnvelope (attack env) (hold env)
                                  (Qmax 0.01 (sustainNormalizedX - attack env - hold env))
                                  normalizedY (release env)) ed
      else ed
  | _, _, _ => ed
  end.

(** The stand-alone envelope control (src/unnamed/part_007): a fixed
    300-unit-high view box and only the sustain handle. *)
Record control := mkControl {
  draggingPoint : option string;
  envelope_prop : Envelope
}.

Definition controlHeight : Q := 300.

Definition controlMouseMove (event : MouseEvent) (rect : DOMRect) (c : control) : control :=
  match draggingPoint c with
  | Some point =>
      if String.eqb point "" then c else
      let y := clientY event - top rect in
      let value := 1 - Qmax 0 (Qmin (y / controlHeight) 1) in
      let env := envelope_prop c in
      if String.eqb point "sustain" then
        mkControl (draggingPoint c)
                  (mkEnvelope (attack env) (hold env) (decay env) value (release env))
      else c
  | None => c
  end.

(** "all non-negative seconds except sustain, which is a 0..1 level" *)
Definition valid (env : Envelope) : Prop :=
  0 <= attack env /\ 0 <= hold env /\ 0 <= decay env /\ 0 <= release env /\
  0 <= sustain env /\ sustain env <= 1.

End EnvelopeEditor.

(** * The vocabulary of the properties *)

(** The twelve node variables of a component, in the order in which the
    rebuilding component constructs and disposes them. *)
Definition all12 : list kind :=
  [KSynth; KEffect EFilter; KEffect EDistortion; KEffect EBitCrusher; KEffect EDelay;
   KEffect EChorus; KEffect EPhaser; KEffect EReverb; KEffect ECompressor;
   KPanner; KGain; KMeter].

(** The handles held in the variables [l]. *)
Definition handles (r : kind -> option id) (l : list kind) : list id := omap r l.

(** Applying a library call [g] to each of the variables [l] that is set. *)
Definition sweep (g : id -> world -> world) (r : kind -> option id) (l : list kind)
    (w : world) : world :=
  foldl (fun w i => g i w) w (handles r l).

Definition leaves (ids : list id) (e : edge) : bool := bool_decide (e.1 ∈ ids).

(** The setting that holds the wet value of an effect, for the effects that
    have one. *)
Definition wetRef (e : effect) : option numref :=
  match e with
  | EDelay => Some delayWet
  | EChorus => Some chorusWet
  | EPhaser => Some phaserWet
  | EReverb => Some reverbWet
  | _ => None
  end.

Definition wetWrite (s : state) (e : effect) (x : id) (w : world) : world :=
  match wetRef e with
  | Some q => Tone.setParam x wet (Num (num s q)) w
  | None => w
  end.

(** The wet write of a block, for the effects that have one. *)
Definition wetted (e : effect) (x : id) (s : state) : state :=
  match wetRef e with
  | Some q => with_tone (Tone.setParam x wet (Num (num s q))) s
  | None => s
  end.

(** One [if (xEnabled.value) { ... }] block of [connectChain]: the new
    [currentNode] and state. *)
Definition linked (e : effect) (cur : id) (s : state) : id * state :=
  match enabled s e, reg s e with
  | true, Some x => (x, with_tone (Tone.connect cur (Node x)) (wetted e x s))
  | _, _ => (cur, s)
  end.

(** The handles of the enabled effects among [l], in the order of [l]. *)
Definition picked (s : state) (l : list effect) : list id :=
  handles (reg s) (map KEffect (List.filter (enabled s) l)).

(** The nodes the signal passes through, from the synth to the gain. *)
Definition chainOf (s : state) : list id :=
  handles (reg s) (KSynth :: map KEffect (List.filter (enabled s) canonical) ++ [KPanner; KGain]).

(** The gain node feeds the meter and the destination side by side. *)
Definition taps (s : state) : list edge :=
  match reg s KGain, reg s KMeter with
  | Some g, Some m => [(g, Node m); (g, Destination)]
  | _, _ => []
  end.

Definition wiring (s : state) : list edge := series (chainOf s) ++ taps s.

(** The wet writes [connectChain] makes on its way through [l]. *)
Definition wetHeap (s : state) (e : effect) (h : list node) : list node :=
  match enabled s e, reg s e with
  | true, Some x => heap (wetWrite s e x (mkWorld h []))
  | _, _ => h
  end.

Definition wets (s : state) (l : list effect) (h : list node) : list node :=
  foldl (fun h e => wetHeap s e h) h l.

(** "Final chain": what [connectChain] does after the last effect block. *)
Definition finish (pa ga me : id) (p : id * state) : state :=
  with_tone (Tone.connect ga Destination)
    (with_tone (Tone.connect ga (Node me))
       (with_tone (Tone.connect pa (Node ga))
          (with_tone (Tone.connect p.1 (Node pa)) p.2))).

(** The state between two blocks of [connectChain]. *)
Definition Inv (s0 : state) (sy : id) (l : list effect) (p : id * state) : Prop :=
  reg p.2 = reg s0 /\ num p.2 = num s0 /\ enabled p.2 = enabled s0 /\
  oscillatorType p.2 = oscillatorType s0 /\ envelope p.2 = envelope s0 /\
  filterType p.2 = filterType s0 /\
  edges (tone p.2) = edges (tone s0) ++ series (sy :: picked s0 l) /\
  p.1 = List.last (picked s0 l) sy /\
  heap (tone p.2) = wets s0 l (heap (tone s0)).

(** [ok m s Q]: run from [s], [m] returns, with a result and state in [Q]. *)
Definition ok {A} (m : M A) (s : state) (Q : A -> state -> Prop) : Prop :=
  match m s with
  | Some (a, s') => Q a s'
  | None => False
  end.

(** What [construct] does to the state. *)
Definition pristine (k : kind) (a : list value) : node := mkNode k a false (fun _ => None).

Definition constructed (k : kind) (a : list value) (s : state) : state :=
  with_reg <[k := Some (length (heap (tone s)))]>
    (with_tone (fun w => mkWorld (heap w ++ [pristine k a]) (edges w)) s).

(** The node variables after constructing [ks] in turn, the first handle
    being [n]. *)
Fixpoint assign (r : kind -> option id) (n : nat) (ks : list kind) : kind -> option id :=
  match ks with
  | [] => r
  | k :: rest => assign (<[k := Some n]> r) (S n) rest
  end.

(** The state while [ks] have been constructed since [s0]. *)
Definition Cre (s0 : state) (ks : list kind) (s : state) : Prop :=
  num s = num s0 /\ enabled s = enabled s0 /\
  oscillatorType s = oscillatorType s0 /\ envelope s = envelope s0 /\
  filterType s = filterType s0 /\
  edges (tone s) = edges (tone s0) /\
  reg s = assign (reg s0) (length (heap (tone s0))) ks /\
  exists L, heap (tone s) = heap (tone s0) ++ L /\ map kindOf L = ks /\
            Forall (fun nd => disposed nd = false /\ params nd wet = None) L.

Definition offsetA (k : kind) : nat :=
  match k with
  | KSynth => 0
  | KEffect EFilter => 1 | KEffect EDistortion => 2 | KEffect EBitCrusher => 3
  | KEffect EDelay => 4 | KEffect EChorus => 5 | KEffect EPhaser => 6
  | KEffect EReverb => 7 | KEffect ECompressor => 8
  | KPanner => 9 | KGain => 10 | KMeter => 11
  end.

(** The nodes [cleanup] leaves behind. *)
Definition cleaned (s : state) : list node :=
  heap (sweep Tone.dispose (reg s) all12 (tone s)).

(** [s'] is [s] after a rebuild. *)
Definition rebuilt (s s' : state) : Prop :=
  num s' = num s /\ enabled s' = enabled s /\
  oscillatorType s' = oscillatorType s /\ envelope s' = envelope s /\
  filterType s' = filterType s /\
  (forall k, reg s' k = Some (offsetA k + length (heap (tone s)))) /\
  edges (tone s')
    = List.filter (fun e => negb (leaves (handles (reg s) all12) e)) (edges (tone s))
      ++ wiring s' /\
  exists L, heap (tone s') = wets s' canonical (cleaned s ++ L) /\
            map kindOf L = all12 /\
            Forall (fun nd => disposed nd = false /\ params nd wet = None) L.

(** The variables [updateAudioChain] disconnects. *)
Definition rewired : list kind :=
  KSynth :: map KEffect canonical ++ [KPanner; KGain].

(** [s'] is [s] after [updateAudioChain] found its nodes. *)
Definition rewiredTo (s s' : state) : Prop :=
  num s' = num s /\ enabled s' = enabled s /\
  oscillatorType s' = oscillatorType s /\ envelope s' = envelope s /\
  filterType s' = filterType s /\ reg s' = reg s /\
  heap (tone s') = heap (tone s) /\
  edges (tone s')
    = List.filter (fun e => negb (leaves (handles (reg s) rewired) e)) (edges (tone s))
      ++ wiring s'.

(** The parameter watchers of the two components. *)
Inductive update :=
  | RebuildNum (r : numref) (val : Q)
  | RebuildFilterType (val : string)
  | RebuildOscillatorType (newVal : string)
  | RebuildEnvelope (newEnv : Envelope)
  | ReconnectProps (e : effect)
  | ReconnectGain (val : Q)
  | ReconnectPan (val : Q)
  | ReconnectOscillatorType (newVal : string)
  | ReconnectEnvelope (newEnv : Envelope).

Definition callback (u : update) : M unit :=
  match u with
  | RebuildNum r val => Rebuild.watchNum r val
  | RebuildFilterType val => Rebuild.watchFilterType val
  | RebuildOscillatorType newVal => Rebuild.watchOscillatorType newVal
  | RebuildEnvelope newEnv => Rebuild.watchEnvelope newEnv
  | ReconnectProps e => Reconnect.watchProps e
  | ReconnectGain val => Reconnect.watchGain val
  | ReconnectPan val => Reconnect.watchPan val
  | ReconnectOscillatorType newVal => Reconnect.watchOscillatorType newVal
  | ReconnectEnvelope newEnv => Reconnect.watchEnvelope newEnv
  end.

(** The parameter table: which parameter of which node an update sets, and
    to what. *)
Definition writes (u : update) (s : state) : list (kind * pname * value) :=
  match u with
  | RebuildNum r val =>
      match r with
      | gainValue => [(KGain, gain, Num val)]
      | panValue => [(KPanner, pan, Num val)]
      | filterFreq => [(KEffect EFilter, frequency, Num val)]
      | filterQ => [(KEffect EFilter, Q_, Num val)]
      | distortionAmount => [(KEffect EDistortion, distortion, Num val)]
      | bitCrusherBits => [(KEffect EBitCrusher, bits, Num val)]
      | delayTime_ => [(KEffect EDelay, delayTime, Num val)]
      | delayFeedback => [(KEffect EDelay, feedback, Num val)]
      | delayWet => [(KEffect EDelay, wet, Num val)]
      | chorusFreq => [(KEffect EChorus, frequency, Num val)]
      | chorusDepth => [(KEffect EChorus, depth, Num val)]
      | chorusWet => [(KEffect EChorus, wet, Num val)]
      | phaserFreq => [(KEffect EPhaser, frequency, Num val)]
      | phaserWet => [(KEffect EPhaser, wet, Num val)]
      | reverbWet => [(KEffect EReverb, wet, Num val)]
      | compressorThreshold => [(KEffect ECompressor, threshold, Num val)]
      | compressorRatio => [(KEffect ECompressor, ratio, Num val)]
      | reverbRoomSize | phaserDepth | bitCrusherWet => []
      end
  | RebuildFilterType val => [(KEffect EFilter, type_, Str val)]
  | RebuildOscillatorType newVal | ReconnectOscillatorType newVal =>
      [(KSynth, oscillator, Obj [("type", Str newVal)])]
  | RebuildEnvelope newEnv | ReconnectEnvelope newEnv =>
      [(KSynth, envelope_, envelopeObj newEnv)]
  | ReconnectGain val => [(KGain, gain, Num val)]
  | ReconnectPan val => [(KPanner, pan, Num val)]
  | ReconnectProps e =>
      match e with
      | EFilter => [(KEffect EFilter, frequency, Num (num s filterFreq));
                    (KEffect EFilter, Q_, Num (num s filterQ));
                    (KEffect EFilter, type_, Str (filterType s))]
      | EDistortion => [(KEffect EDistortion, distortion, Num (num s distortionAmount))]
      | EBitCrusher => [(KEffect EBitCrusher, bits, Num (num s bitCrusherBits))]
      | EDelay => [(KEffect EDelay, delayTime, Num (num s delayTime_));
                   (KEffect EDelay, feedback, Num (num s delayFeedback));
                   (KEffect EDelay, wet, Num (num s delayWet))]
      | EReverb => [(KEffect EReverb, decay_, Num (num s reverbRoomSize));
                    (KEffect EReverb, wet, Num (num s reverbWet))]
      | ECompressor => [(KEffect ECompressor, threshold, Num (num s compressorThreshold));
                        (KEffect ECompressor, ratio, Num (num s compressorRatio))]
      | EChorus => [(KEffect EChorus, frequency, Num (num s chorusFreq));
                    (KEffect EChorus, depth, Num (num s chorusDepth));
                    (KEffect EChorus, wet, Num (num s chorusWet))]
      | EPhaser => [(KEffect EPhaser, frequency, Num (num s phaserFreq));
                    (KEffect EPhaser, octaves, Num (num s phaserDepth));
                    (KEffect EPhaser, wet, Num (num s phaserWet))]
      end
  end.

(** Carrying out a list of writes on the nodes that exist. *)
Definition perform (r : kind -> option id) (ws : list (kind * pname * value)) (w : world) : world :=
  foldl (fun w '(k, p, v) => match r k with
                             | Some i => Tone.setParam i p v w
                             | None => w
                             end) w ws.

(** A write leaves the class, the constructor arguments and the disposal
    flag of every node as they were. *)
Definition fixedPart (n : node) : kind * list value * bool := (kindOf n, args n, disposed n).

(** No node the update writes to has been constructed. *)
Definition absent (u : update) (s : state) : Prop :=
  forall k p v, (k, p, v) ∈ writes u s -> reg s k = None.

(** Every node the update writes to exists. *)
Definition present (u : update) (s : state) : Prop :=
  forall k p v, (k, p, v) ∈ writes u s ->
    exists i, reg s k = Some i /\ i < length (heap (tone s)).

(** The node variables the signal passes through, in order. *)
Definition pathKinds (en : effect -> bool) : list kind :=
  KSynth :: map KEffect (List.filter en canonical) ++ [KPanner; KGain].

Definition signalPath (node : kind -> id) (en : effect -> bool) : list id :=
  map node (pathKinds en).

(** The connections the code makes: the path in series, and the gain node
    feeding the meter and the destination side by side. *)
Definition expectedEdges (node : kind -> id) (en : effect -> bool) : list edge :=
  series (signalPath node en)
  ++ [(node KGain, Node (node KMeter)); (node KGain, Destination)].

(** The connections as the specification words them: ... Pan, Gain, Meter,
    Output in series. *)
Definition claimedEdges (node : kind -> id) (en : effect -> bool) : list edge :=
  series (signalPath node en ++ [node KMeter]) ++ [(node KMeter, Destination)].

Definition touches (x : id) (e : edge) : bool :=
  bool_decide (e.1 = x) || bool_decide (e.2 = Node x).

(** Some connection leaves or enters node [x]. *)
Definition connected (w : world) (x : id) : bool := existsb (touches x) (edges w).

(** Every connection leaves a node held in one of the variables [l]. *)
Definition owned (l : list kind) (s : state) : bool :=
  forallb (leaves (handles (reg s) l)) (edges (tone s)).

(** Every node variable is set. *)
Definition mounted (s : state) : bool :=
  forallb (fun k => bool_decide (is_Some (reg s k))) all12.

(** No two node variables hold the same node. *)
Definition distinct (s : state) : bool :=
  forallb (fun k => forallb (fun k' => bool_decide (reg s k = reg s k' -> k = k')) all12) all12.

(** Two mounted components with the filter and the reverb switched on. *)
Definition rebuildDemo : state :=
  match (Rebuild.onMounted;;
         Rebuild.run [Rebuild.SetEnabled EFilter true; Rebuild.SetEnabled EReverb true])
          Rebuild.init with
  | Some (_, s) => s
  | None => Rebuild.init
  end.

Definition reconnectDemo : state :=
  match (Reconnect.onMounted;;
         Reconnect.run [Reconnect.SetEnabled EFilter true; Reconnect.SetEnabled EReverb true])
          Reconnect.init with
  | Some (_, s) => s
  | None => Reconnect.init
  end.

(** The rebuilding component just after mounting, no effect enabled. *)
Definition rebuildMounted : state :=
  match Rebuild.onMounted Rebuild.init with
  | Some (_, s) => s
  | None => Rebuild.init
  end.

(** Every live node is held in a node variable. *)
Definition tidy (s : state) : bool :=
  forallb (fun i => implb (live (tone s) i) (bool_decide (i ∈ handles (reg s) all12)))
          (seq 0 (length (heap (tone s)))).

(** Every node variable that is set holds a constructed node. *)
Definition allocated (s : state) : bool :=
  forallb (fun i => Nat.ltb i (length (heap (tone s)))) (handles (reg s) all12).

(** The nodes and the variables are those of [s]; parameters may differ. *)
Definition sameNodes (s s' : state) : Prop :=
  reg s' = reg s /\ map fixedPart (heap (tone s')) = map fixedPart (heap (tone s)).

(** What the reconnecting component keeps true from mounting on. *)
Definition wired (s : state) : bool :=
  mounted s && distinct s && allocated s && owned rewired s.

(** The reconnecting component just after mounting. *)
Definition reconnectMounted : state :=
  match Reconnect.onMounted Reconnect.init with
  | Some (_, s) => s
  | None => Reconnect.init
  end.

(** The reconnecting component as the chain watcher finds it when the page
    has set the reverb mix to 0.9 and switched the reverb on before the
    watchers ran: both settings are updated, and the reverb node still has
    the mix written at mount, the watcher of the reverb settings being
    registered after the chain watcher. *)
Definition reconnectPending : state :=
  with_enabled <[EReverb := true]> (with_num <[reverbWet := 0.9%Q]> reconnectMounted).


(** The rectangle and view box have a size: the divisions are defined. *)
Definition rendered (ed : EnvelopeEditor.editor) : Prop :=
  (~ EnvelopeEditor.svgWidth ed == 0)%Q /\ (~ EnvelopeEditor.svgHeight ed == 0)%Q /\
  match EnvelopeEditor.svg ed with
  | Some rect => (~ EnvelopeEditor.width rect == 0)%Q /\ (~ EnvelopeEditor.height rect == 0)%Q
  | None => True
  end.

(** ** The envelope display and the drag session (src/unnamed/part_000) *)
Module EnvelopeDisplay.

#[local] Open Scope Q_scope.

Record Point := mkPoint { x : Q; y : Q }.

Definition totalTime (ed : EnvelopeEditor.editor) : Q :=
  let envelope := EnvelopeEditor.envelope ed in
  attack envelope + hold envelope + decay envelope + 1 + release envelope.

Definition attackPoint (ed : EnvelopeEditor.editor) : Point :=
  let envelope := EnvelopeEditor.envelope ed in
  mkPoint ((attack envelope / totalTime ed) * EnvelopeEditor.svgWidth ed) 0.

Definition holdPoint (ed : EnvelopeEditor.editor) : Point :=
  let envelope := EnvelopeEditor.envelope ed in
  mkPoint (((attack envelope + hold envelope) / totalTime ed) * EnvelopeEditor.svgWidth ed) 0.

Definition decayPoint (ed : EnvelopeEditor.editor) : Point :=
  let envelope := EnvelopeEditor.envelope ed in
  mkPoint (((attack envelope + hold envelope + decay envelope) / totalTime ed)
           * EnvelopeEditor.svgWidth ed)
          (EnvelopeEditor.svgHeight ed - sustain envelope * EnvelopeEditor.svgHeight ed).

Definition sustainPoint (ed : EnvelopeEditor.editor) : Point :=
  let envelope := EnvelopeEditor.envelope ed in
  mkPoint (((attack envelope + hold envelope + decay envelope + 1) / totalTime ed)
           * EnvelopeEditor.svgWidth ed)
          (EnvelopeEditor.svgHeight ed - sustain envelope * EnvelopeEditor.svgHeight ed).

(** [getKnobRotation] *)
Definition getKnobRotation (value min max : Q) : Q :=
  ((value - min) / (max - min)) * 270 - 135.

(** The editor together with the event types for which the component has a
    listener on [document]; adding a listener that is already there, or
    removing one that is not, does nothing. *)
Record session := mkSession {
  ed : EnvelopeEditor.editor;
  listeners : gset string
}.

(** [pointType] is [target.getAttribute("data-point")], [None] for null. *)
Definition handleMouseDown (pointType : option string) (s : session) : session :=
  match pointType with
  | Some p =>
      if String.eqb p "" then s
      else mkSession
             (EnvelopeEditor.mkEditor true (Some p) (EnvelopeEditor.svg (ed s))
                (EnvelopeEditor.svgWidth (ed s)) (EnvelopeEditor.svgHeight (ed s))
                (EnvelopeEditor.envelope (ed s)))
             ({["mouseup"]} ∪ ({["mousemove"]} ∪ listeners s))
  | None => s
  end.

Definition handleMouseUp (s : session) : session :=
  mkSession
    (EnvelopeEditor.mkEditor false None (EnvelopeEditor.svg (ed s))
       (EnvelopeEditor.svgWidth (ed s)) (EnvelopeEditor.svgHeight (ed s))
       (EnvelopeEditor.envelope (ed s)))
    (listeners s ∖ {["mousemove"]} ∖ {["mouseup"]}).

Definition handleMouseMove (e : EnvelopeEditor.MouseEvent) (s : session) : session :=
  mkSession (EnvelopeEditor.handleMouseMove e (ed s)) (listeners s).

(** What reaches the component: a mouse down on the SVG element, and the
    mouse moves and mouse ups of the document, which run a handler only
    while it is registered. *)
Inductive domEvent :=
  | MouseDown (pointType : option string)
  | MouseMove (e : EnvelopeEditor.MouseEvent)
  | MouseUp.

Definition dispatch (s : session) (ev : domEvent) : session :=
  match ev with
  | MouseDown pointType => handleMouseDown pointType s
  | MouseMove e => if decide ("mousemove" ∈ listeners s) then handleMouseMove e s else s
  | MouseUp => if decide ("mouseup" ∈ listeners s) then handleMouseUp s else s
  end.

(** The component as set up: not dragging, no document listener. *)
Definition start (svg : option EnvelopeEditor.DOMRect) (svgWidth svgHeight : Q)
    (envelope : Envelope) : session :=
  mkSession (EnvelopeEditor.mkEditor false None svg svgWidth svgHeight envelope) ∅.

End EnvelopeDisplay.

(** The two states a drag session is in. *)
Definition idle (s : EnvelopeDisplay.session) : Prop :=
  EnvelopeEditor.isDragging (EnvelopeDisplay.ed s) = false /\ EnvelopeEditor.dragPoint (EnvelopeDisplay.ed s) = None /\
  EnvelopeDisplay.listeners s = ∅.

Definition dragging (s : EnvelopeDisplay.session) : Prop :=
  EnvelopeEditor.isDragging (EnvelopeDisplay.ed s) = true /\
  (exists p, EnvelopeEditor.dragPoint (EnvelopeDisplay.ed s) = Some p /\ p <> "") /\
  EnvelopeDisplay.listeners s = {["mousemove"; "mouseup"]}.


(** The constructor arguments the rebuilding component passes for each
    node, from the current settings. *)
Definition argsOf (s : state) (k : kind) : list value :=
  match k with
  | KSynth =>
      [Str "Tone.Synth";
       Obj [("oscillator", Obj [("type", Str (oscillatorType s))]);
            ("envelope", envelopeObj (envelope s))]]
  | KEffect EFilter => [Num (num s filterFreq); Str (filterType s)]
  | KEffect EDistortion => [Num (num s distortionAmount)]
  | KEffect EBitCrusher => [Num (num s bitCrusherBits)]
  | KEffect EDelay => [Num (num s delayTime_); Num (num s delayFeedback)]
  | KEffect EChorus => [Num (num s chorusFreq); Num (num s chorusDepth); Num 0.5]
  | KEffect EPhaser => [Obj [("frequency", Num (num s phaserFreq)); ("baseFrequency", Num 1000)]]
  | KEffect EReverb => [Num (num s reverbRoomSize)]
  | KEffect ECompressor => [Num (num s compressorThreshold); Num (num s compressorRatio)]
  | KPanner => [Num (num s panValue)]
  | KGain => [Num (num s gainValue)]
  | KMeter => [Obj [("smoothing", Num 0.8)]]
  end.

(** The parameters a rebuild writes on the node of kind [k]: the wet value
    of an enabled delay, chorus, phaser or reverb, and nothing else. *)
Definition wetOf (s : state) (k : kind) (p : pname) : option value :=
  match k, p with
  | KEffect e, wet => if enabled s e then (fun q => Num (num s q)) <$> wetRef e else None
  | _, _ => None
  end.

(** The state while the rebuild has constructed [ks] since [s0]. *)
Definition Built (s0 : state) (ks : list kind) (s : state) : Prop :=
  num s = num s0 /\ oscillatorType s = oscillatorType s0 /\ envelope s = envelope s0 /\
  filterType s = filterType s0 /\
  heap (tone s) = heap (tone s0) ++ map (fun k => pristine k (argsOf s0 k)) ks.


(** The audio graph is the chain of the enabled effects, over the nodes
    held in the node variables, and these are the only live nodes. *)
Definition settled (s : state) : Prop :=
  exists node : kind -> id,
    (forall k, reg s k = Some (node k)) /\
    (forall k k', node k = node k' -> k = k') /\
    edges (tone s) = expectedEdges node (enabled s) /\
    (forall i, live (tone s) i = true <-> exists k, i = node k).

(** Nothing is left of the audio graph. *)
Definition silent (s : state) : Prop :=
  edges (tone s) = [] /\ forall i, live (tone s) i = false.

(** [s'] has the node variables, flags, nodes and connections of [s]; only
    settings and node parameters may differ. *)
Definition quiet (s s' : state) : Prop :=
  reg s' = reg s /\ enabled s' = enabled s /\ edges (tone s') = edges (tone s) /\
  map fixedPart (heap (tone s')) = map fixedPart (heap (tone s)).

(** The handles of the reconnecting component, in the order in which
    [createAudioNodes] constructs the nodes. *)
Definition offsetB (k : kind) : nat :=
  match k with
  | KSynth => 0 | KPanner => 1 | KGain => 2 | KMeter => 3
  | KEffect EFilter => 4 | KEffect EDistortion => 5 | KEffect EBitCrusher => 6
  | KEffect EDelay => 7 | KEffect EChorus => 8 | KEffect EPhaser => 9
  | KEffect EReverb => 10 | KEffect ECompressor => 11
  end.


(** ** Note control of the synth components

    The component state together with the [activeNotes] prop (optional) and
    the trigger calls made so far, each with the synth node that received
    it. *)
Module Player.

Record player := mkPlayer {
  component : state;
  activeNotes : option (gset string);
  triggered : list (id * AudioGraph.trigger)
}.

(** [synth?.triggerAttack(note)], [synth?.triggerRelease(note)] *)
Definition trigger (t : AudioGraph.trigger) (p : player) : list (id * AudioGraph.trigger) :=
  match reg (component p) KSynth with
  | Some synth => triggered p ++ [(synth, t)]
  | None => triggered p
  end.

(** A watcher, toggle or lifecycle hook of the component. *)
Definition lift (m : M unit) (p : player) : option player :=
  match m (component p) with
  | Some (_, s) => Some (mkPlayer s (activeNotes p) (triggered p))
  | None => None
  end.

End Player.

(** [noteOn] and [noteOff] of the rebuilding component (src/unnamed/part_000). *)
Module RebuildNotes.

Definition noteOn (note : string) (p : Player.player) : Player.player :=
  Player.mkPlayer (Player.component p)
    ((fun notes => {[note]} ∪ notes) <$> Player.activeNotes p)
    (Player.trigger (AudioGraph.Attack note) p).

Definition noteOff (note : string) (p : Player.player) : Player.player :=
  Player.mkPlayer (Player.component p)
    ((fun notes => notes ∖ {[note]}) <$> Player.activeNotes p)
    (Player.trigger (AudioGraph.Release note) p).

End RebuildNotes.

(** [noteOn] and [noteOff] of the reconnecting component
    (src/plugins/tone.client.ts); they leave [activeNotes] alone. *)
Module ReconnectNotes.

Definition noteOn (note : string) (p : Player.player) : Player.player :=
  Player.mkPlayer (Player.component p) (Player.activeNotes p)
    (Player.trigger (AudioGraph.Attack note) p).

Definition noteOff (note : string) (p : Player.player) : Player.player :=
  Player.mkPlayer (Player.component p) (Player.activeNotes p)
    (Player.trigger (AudioGraph.Release note) p).

End ReconnectNotes.


(** ** The oscillator component's note triggers (src/plugins/tone.client.ts) *)
Module Oscillator.

(** [synth] is the trigger calls the component's synth has received, [None]
    while the variable is null; [running] is whether the audio context
    runs. *)
Record oscillator := mkOscillator {
  synth : option (list AudioGraph.trigger);
  enabled : bool;
  activeNotes : gset string;
  running : bool
}.

Definition startSynth (o : oscillator) : oscillator :=
  mkOscillator (Some (default [] (synth o))) (enabled o) (activeNotes o) true.

Definition triggerNote (note : string) (o : oscillator) : oscillator :=
  let o := startSynth o in
  match synth o with
  | Some calls =>
      if enabled o
      then mkOscillator (Some (calls ++ [AudioGraph.Attack note])) (enabled o)
                        ({[note]} ∪ activeNotes o) (running o)
      else o
  | None => o
  end.

Definition releaseNote (note : string) (o : oscillator) : oscillator :=
  match synth o with
  | Some calls =>
      if enabled o
      then if decide (note ∈ activeNotes o)
           then mkOscillator (Some (calls ++ [AudioGraph.Release note])) (enabled o)
                             (activeNotes o ∖ {[note]}) (running o)
           else o
      else o
  | None => o
  end.

(** The On/Off button: [enabled = !enabled]. *)
Definition toggle (o : oscillator) : oscillator :=
  mkOscillator (synth o) (negb (enabled o)) (activeNotes o) (running o).

Inductive event :=
  | TriggerNote (note : string)
  | ReleaseNote (note : string)
  | Toggle.

Definition handle (o : oscillator) (ev : event) : oscillator :=
  match ev with
  | TriggerNote note => triggerNote note o
  | ReleaseNote note => releaseNote note o
  | Toggle => toggle o
  end.

(** The component as declared: no synth yet, switched on, no note held. *)
Definition init : oscillator := mkOscillator None true ∅ false.

(** [onMounted] constructs the synth. *)
Definition onMounted (o : oscillator) : oscillator :=
  mkOscillator (Some []) (enabled o) (activeNotes o) (running o).

End Oscillator.

(** The number of attacks and the number of releases of [note] among the
    trigger calls a synth has received. *)
Definition attacks (calls : list AudioGraph.trigger) (note : string) : nat :=
  length (List.filter (fun t => match t with
                                | AudioGraph.Attack n => String.eqb n note
                                | AudioGraph.Release _ => false
                                end) calls).

Definition releases (calls : list AudioGraph.trigger) (note : string) : nat :=
  length (List.filter (fun t => match t with
                                | AudioGraph.Attack _ => false
                                | AudioGraph.Release n => String.eqb n note
                                end) calls).

(** ** The on-screen keyboard: layout and computer-keyboard control
    (src/unnamed/part_007, src/app/components/Keyboard.vue) *)
Module Piano.

Inductive keyType := white | black.

#[global] Instance keyType_eq_dec : EqDecision keyType.
Proof. solve_decision. Defined.

Record pianoKey := mkKey {
  note : string;
  type : keyType;
  position : option Q
}.

Definition WHITE_KEY_WIDTH : Q := 32.
Definition BLACK_KEY_WIDTH : Q := 24.

Definition octaveTemplate : list pianoKey :=
  [ mkKey "C" white None;
    mkKey "C#" black (Some 0.7%Q);
    mkKey "D" white None;
    mkKey "D#" black (Some 1.7%Q);
    mkKey "E" white None;
    mkKey "F" white None;
    mkKey "F#" black (Some 3.7%Q);
    mkKey "G" white None;
    mkKey "G#" black (Some 4.7%Q);
    mkKey "A" white None;
    mkKey "A#" black (Some 5.7%Q);
    mkKey "B" white None ].

(** [props.octaves ?? 2], [props.startOctave ?? 4] *)
Definition OCTAVES (octaves : option nat) : nat := default 2 octaves.
Definition START_OCTAVE (startOctave : option nat) : nat := default 4 startOctave.

(** The keys of octave [o]: [octaveTemplate.map((k) => ({ ...k,
    note: `${k.note}${octaveNumber}`,
    position: k.position != null ? k.position + o * 7 : undefined }))] *)
Definition octave (startOctave : option nat) (o : nat) : list pianoKey :=
  let octaveNumber := START_OCTAVE startOctave + o in
  map (fun k => mkKey (note k +:+ pretty octaveNumber) (type k)
                      ((fun p => p + inject_Z (Z.of_nat o) * 7)%Q <$> position k))
      octaveTemplate.

(** [Array.from({ length: OCTAVES }, (_, o) => ...).flat()] *)
Definition pianoKeys (octaves startOctave : option nat) : list pianoKey :=
  concat (map (octave startOctave) (seq 0 (OCTAVES octaves))).

Definition whiteKeys (octaves startOctave : option nat) : list pianoKey :=
  List.filter (fun k => bool_decide (type k = white)) (pianoKeys octaves startOctave).

Definition blackKeys (octaves startOctave : option nat) : list pianoKey :=
  List.filter (fun k => bool_decide (type k = black)) (pianoKeys octaves startOctave).

(** The style of a black key: [left: (key.position ?? 0) * WHITE_KEY_WIDTH]. *)
Definition left (k : pianoKey) : Q := (default 0 (position k) * WHITE_KEY_WIDTH)%Q.

Definition whiteKeyRows : list string := ["zxcvbnm,./"; "qwertyuiop[]"].
Definition blackKeyRows : list string := ["sdghjl;"; "234567890-"].

(** [for (const char of row)]: the characters of a row, each a string. *)
Definition chars (row : string) : list string :=
  map (fun c => String c EmptyString) (String.list_ascii_of_string row).

(** The inner loop over one row, from [index] on:
    [if (index >= notes.length) break; keyMap[char] = notes[index]; index++]. *)
Fixpoint mapRow (notes : list string) (row : list string) (keyMap : gmap string string)
    (index : nat) : gmap string string * nat :=
  match row with
  | [] => (keyMap, index)
  | char :: rest =>
      match notes !! index with
      | None => (keyMap, index)
      | Some n => mapRow notes rest (<[char := n]> keyMap) (S index)
      end
  end.

(** [keyMap[char] = note] *)
Definition bind (m : gmap string string) (cn : string * string) : gmap string string :=
  <[cn.1 := cn.2]> m.

(** The outer loop: [let index = 0; for (const row of rows) { ... }]. *)
Definition mapRows (notes : list string) (rows : list string) (keyMap : gmap string string)
    : gmap string string :=
  (foldl (fun st row => mapRow notes (chars row) st.1 st.2) (keyMap, 0) rows).1.

Definition whiteKeyNotes (octaves startOctave : option nat) : list string :=
  map note (whiteKeys octaves startOctave).

Definition blackKeyNotes (octaves startOctave : option nat) : list string :=
  map note (blackKeys octaves startOctave).

Definition keyMap (octaves startOctave : option nat) : gmap string string :=
  mapRows (blackKeyNotes octaves startOctave) blackKeyRows
    (mapRows (whiteKeyNotes octaves startOctave) whiteKeyRows ∅).

(** The component: its key map, the notes of the keys held down, and the
    events emitted so far. *)
Record keys := mkKeys {
  bindings : gmap string string;
  activeKeys : gset string;
  emits : list Keyboard.emitted
}.

(** [key] is [e.key]. *)
Definition handleKeyDown (key : string) (k : keys) : keys :=
  match bindings k !! key with
  | Some n =>
      if negb (String.eqb n "") && negb (bool_decide (n ∈ activeKeys k))
      then mkKeys (bindings k) ({[n]} ∪ activeKeys k) (emits k ++ [Keyboard.EmitNoteOn n])
      else k
  | None => k
  end.

Definition handleKeyUp (key : string) (k : keys) : keys :=
  match bindings k !! key with
  | Some n =>
      if negb (String.eqb n "")
      then mkKeys (bindings k) (activeKeys k ∖ {[n]}) (emits k ++ [Keyboard.EmitNoteOff n])
      else k
  | None => k
  end.

Inductive keyEvent := KeyDown (key : string) | KeyUp (key : string).

Definition handle (k : keys) (ev : keyEvent) : keys :=
  match ev with
  | KeyDown key => handleKeyDown key k
  | KeyUp key => handleKeyUp key k
  end.

End Piano.

(** The layout as src/app/components/Keyboard.vue computes it. *)
Module PianoVue.

(** [octaveTemplate.map((k, i) => ({ ...k, note: `${k.note}${octaveNumber}`,
    position: k.type === "black" ? o * 7 + (k.position ?? i) : undefined }))] *)
Definition octave (startOctave : option nat) (o : nat) : list Piano.pianoKey :=
  let octaveNumber := Piano.START_OCTAVE startOctave + o in
  imap (fun i k =>
          Piano.mkKey (Piano.note k +:+ pretty octaveNumber) (Piano.type k)
            (if bool_decide (Piano.type k = Piano.black)
             then Some (inject_Z (Z.of_nat o) * 7
                        + default (inject_Z (Z.of_nat i)) (Piano.position k))%Q
             else None))
       Piano.octaveTemplate.

Definition pianoKeys (octaves startOctave : option nat) : list Piano.pianoKey :=
  concat (map (octave startOctave) (seq 0 (Piano.OCTAVES octaves))).

Definition blackKeyRows : list string := ["sdghjl;"; "2346790-"].

End PianoVue.

(** The notes switched on by a sequence of emitted events. *)
Definition notesOn (emits : list Keyboard.emitted) : gset string :=
  foldl (fun notes ev => match ev with
                         | Keyboard.EmitNoteOn n => {[n]} ∪ notes
                         | Keyboard.EmitNoteOff n => notes ∖ {[n]}
                         end) ∅ emits.

(** No note is switched on while it is on. *)
Definition noRepeat (emits : list Keyboard.emitted) : Prop :=
  forall before n after,
    emits = before ++ Keyboard.EmitNoteOn n :: after -> n ∉ notesOn before.

(** Two keys with the same note and colour at the same place. *)
Definition sameKey (k k' : Piano.pianoKey) : Prop :=
  Piano.note k = Piano.note k' /\ Piano.type k = Piano.type k' /\
  match Piano.position k, Piano.position k' with
  | Some p, Some p' => (p == p')%Q
  | None, None => True
  | _, _ => False
  end.


(** [Math.round] on exact rationals: the nearest integer, halves upwards. *)
Definition round (x : Q) : Q := inject_Z (Qfloor (x + (1 # 2))%Q).

(** ** The slider (src/app/components/Slider.vue) *)
Module Slider.

#[local] Open Scope Q_scope.

Record props := mkProps {
  min : Q;
  max : Q;
  step : option Q;
  value : Q;
  disabled : bool
}.

(** The drag state, the event types with a listener on [window], and the
    values emitted as [update:value] so far. *)
Record slider := mkSlider {
  isDragging : bool;
  startX : Q;
  startY : Q;
  startValue : Q;
  listeners : gset string;
  emits : list Q
}.

Definition onMouseDown (e : EnvelopeEditor.MouseEvent) (p : props) (s : slider) : slider :=
  if disabled p then s
  else mkSlider true (EnvelopeEditor.clientX e) (EnvelopeEditor.clientY e) (value p)
                ({["mouseup"]} ∪ ({["mousemove"]} ∪ listeners s)) (emits s).

(** The value [onMouseMove] computes before it rounds and clamps. *)
Definition dragged (e : EnvelopeEditor.MouseEvent) (p : props) (s : slider) : Q :=
  let dx := EnvelopeEditor.clientX e - startX s in
  let dy := startY s - EnvelopeEditor.clientY e in
  let delta := dx + dy in
  let sensitivity := (max p - min p) / 400 in
  startValue s + delta * sensitivity.

Definition onMouseMove (e : EnvelopeEditor.MouseEvent) (p : props) (s : slider) : slider :=
  if negb (isDragging s) then s
  else
    let newValue := dragged e p s in
    let step := default 0.01 (step p) in
    let newValue := round (newValue / step) * step in
    let newValue := Qmin (max p) (Qmax (min p) newValue) in
    mkSlider (isDragging s) (startX s) (startY s) (startValue s) (listeners s)
             (emits s ++ [newValue]).

Definition onMouseUp (s : slider) : slider :=
  mkSlider false (startX s) (startY s) (startValue s)
           (listeners s ∖ {["mousemove"]} ∖ {["mouseup"]}) (emits s).

Definition rotation (p : props) : Q :=
  let ratio := (value p - min p) / (max p - min p) in
  -135 + ratio * 270.

End Slider.

(** ** The knob (the second component of src/app/components/Keyboard.vue) *)
Module Knob.

#[local] Open Scope Q_scope.

Record props := mkProps {
  modelValue : Q;
  min_prop : option Q;
  max_prop : option Q;
  step_prop : option Q;
  unit : option string
}.

(** [props.min ?? 0], [props.max ?? 100] *)
Definition min (p : props) : Q := default 0 (min_prop p).
Definition max (p : props) : Q := default 100 (max_prop p).

(** [props.step ?? props.unit === "%" ? 0.01 : 0.1]: the conditional binds
    last, so its condition is [props.step ?? (props.unit === "%")], a step
    that is given counting as true unless it is zero. *)
Definition step (p : props) : Q :=
  let condition :=
    match step_prop p with
    | Some n => negb (Qeq_bool n 0)
    | None => bool_decide (unit p = Some "%"%string)
    end in
  if condition then 0.01 else 0.1.

Record knob := mkKnob {
  isDragging : bool;
  startY : Q;
  startValue : Q;
  emits : list Q
}.

Definition normalizedValue (p : props) : Q := (modelValue p - min p) / (max p - min p).

Definition rotation (p : props) : Q := normalizedValue p * 270 - 135.

Definition handleMouseDown (e : EnvelopeEditor.MouseEvent) (p : props) (k : knob) : knob :=
  mkKnob true (EnvelopeEditor.clientY e) (modelValue p) (emits k).

(** The value [handleMouseMove] clamps, before it snaps it to the step. *)
Definition clamped (e : EnvelopeEditor.MouseEvent) (p : props) (k : knob) : Q :=
  let deltaY := startY k - EnvelopeEditor.clientY e in
  let range := max p - min p in
  let newValue := startValue k + (deltaY / 200) * range in
  Qmax (min p) (Qmin (max p) newValue).

Definition handleMouseMove (e : EnvelopeEditor.MouseEvent) (p : props) (k : knob) : knob :=
  if negb (isDragging k) then k
  else
    let clampedValue := clamped e p k in
    let clampedValue := round (clampedValue / step p) * step p in
    mkKnob (isDragging k) (startY k) (startValue k) (emits k ++ [clampedValue]).

Definition handleMouseUp (k : knob) : knob :=
  mkKnob false (startY k) (startValue k) (emits k).

End Knob.

(** The delay-time knob of the effect panel
    (src/app/components/EffectControl.vue):
    [:min="0.001" :max="1" :step="0.001" unit="s"]. *)
Definition delayTimeKnob (modelValue : Q) : Knob.props :=
  Knob.mkProps modelValue (Some 0.001%Q) (Some 1%Q) (Some 0.001%Q) (Some "s").


(** ** The filter display (src/app/components/Filter.vue)

    Numbers are reals here: the scale takes logarithms and powers. *)
Module FilterView.

#[local] Open Scope R_scope.

Definition svgWidth : R := 280.
Definition svgHeight : R := 150.

(** [Math.log10] *)
Definition log10 (x : R) : R := ln x / ln 10.

(** [Math.round]: the nearest integer, halves upwards. *)
Definition round (x : R) : R := IZR (Int_part (x + / 2)).

Definition freqToX (freq : R) : R :=
  let minFreq := 20 in
  let maxFreq := 20000 in
  let logMin := log10 minFreq in
  let logMax := log10 maxFreq in
  let logFreq := log10 (Rmax minFreq (Rmin maxFreq freq)) in
  ((logFreq - logMin) / (logMax - logMin)) * svgWidth.

Definition xToFreq (x : R) : R :=
  let minFreq := 20 in
  let maxFreq := 20000 in
  let logMin := log10 minFreq in
  let logMax := log10 maxFreq in
  let logRange := logMax - logMin in
  let freq := Rpower 10 ((x / svgWidth) * logRange + logMin) in
  Rmax minFreq (Rmin maxFreq freq).

Record FilterProps := mkFilterProps {
  enabled : bool;
  type : string;
  freq : R;
  Q : R
}.

Record MouseEvent := mkMouseEvent { clientX : R; clientY : R }.

(** [svgElement] is the top left corner of the element's bounding
    rectangle when the ref is set; [listening] is whether the stored
    handlers are registered on [window]; [emits] lists the values emitted
    as [update:modelValue]. *)
Record view := mkView {
  isDragging : bool;
  svgElement : option (R * R);
  listening : bool;
  emits : list FilterProps
}.

Definition handleMouseMove (e : MouseEvent) (modelValue : FilterProps) (v : view) : view :=
  match isDragging v, svgElement v with
  | true, Some (rect_left, rect_top) =>
      let x := Rmax 0 (Rmin svgWidth (clientX e - rect_left)) in
      let y := Rmax 0 (Rmin svgHeight (clientY e - rect_top)) in
      let newFreq := round (xToFreq x) in
      let newQ := Rmax 0 (Rmin 30 (((svgHeight - y) / svgHeight) * 30)) in
      mkView (isDragging v) (svgElement v) (listening v)
             (emits v ++ [mkFilterProps (enabled modelValue) (type modelValue) newFreq newQ])
  | _, _ => v
  end.

Definition handleMouseDown (e : MouseEvent) (modelValue : FilterProps) (v : view) : view :=
  if negb (enabled modelValue) then v
  else handleMouseMove e modelValue (mkView true (svgElement v) true (emits v)).

Definition handleMouseUp (v : view) : view :=
  mkView false (svgElement v) false (emits v).

End FilterView.


(** ** The modulator rack (src/unnamed/part_008)

    Both handlers emit the new list of modulators and leave the prop
    alone; the functions return the emitted list. *)
Module ModulatorRack.

Record Modulator := mkModulator {
  id_ : string;
  type : string;
  targetParam : string;
  frequency : Q;
  depth : Q
}.

(** [addLFO]; the random UUID is taken as an argument. *)
Definition addLFO (uuid : string) (modulators : list Modulator) : list Modulator :=
  let newLFO := mkModulator uuid "LFO" "filterFrequency" 5 0.5 in
  modulators ++ [newLFO].

Definition onUpdateMod (updatedMod : Modulator) (modulators : list Modulator) : list Modulator :=
  map (fun m => if String.eqb (id_ m) (id_ updatedMod) then updatedMod else m) modulators.

End ModulatorRack.

(** * Properties *)

(** ** Running component code *)

Section runs.

Context {A B : Type}.

Lemma bind_run (m : M A) (f : A -> M B) s p :
  m s = Some p -> (m ≫= f) s = f p.1 p.2.
Proof. intros H. unfold mbind, M_bind. rewrite H. by destruct p. Qed.

Lemma bind_run' (m : M A) (f : A -> M B) s a s' :
  m s = Some (a, s') -> (m ≫= f) s = f a s'.
Proof. intros H. unfold mbind, M_bind. by rewrite H. Qed.

End runs.

Lemma with_tone_id s : with_tone (fun w => w) s = s.
Proof. by destruct s. Qed.

Lemma opt_run (g : id -> world -> world) k s :
  opt k (fun i => modify (with_tone (g i))) s
  = Some (tt, match reg s k with Some i => with_tone (g i) s | None => s end).
Proof. unfold opt, var, mbind, M_bind. by destruct (reg s k). Qed.

Lemma forEach_run (g : id -> world -> world) l s :
  forEach l (fun i => modify (with_tone (g i))) s
  = Some (tt, with_tone (sweep g (reg s) l) s).
Proof.
  revert s. induction l as [|k l IH]; intros s.
  - cbn. by rewrite with_tone_id.
  - cbn [forEach]. rewrite (bind_run' _ _ _ _ _ (opt_run g k s)), IH.
    unfold sweep, handles. cbn [omap list_omap]. by destruct (reg s k).
Qed.

Lemma sweep_length g r l w :
  (forall i w, length (heap (g i w)) = length (heap w)) ->
  length (heap (sweep g r l w)) = length (heap w).
Proof.
  intros Hg. unfold sweep. generalize (handles r l). intros ids. revert w.
  induction ids as [|i ids IH]; intros w; cbn; [done|]. by rewrite IH, Hg.
Qed.

Lemma filter_filter_and {X} (p q : X -> bool) l :
  List.filter p (List.filter q l) = List.filter (fun x => q x && p x) l.
Proof.
  induction l as [|x l IH]; cbn; [done|].
  destruct (q x); cbn; [destruct (p x)|]; by rewrite ?IH.
Qed.

Lemma filter_ext_bool {X} (p q : X -> bool) l :
  (forall x, p x = q x) -> List.filter p l = List.filter q l.
Proof. intros H. induction l as [|x l IH]; cbn; [done|]. by rewrite H, IH. Qed.

Lemma leaves_cons i ids e : leaves (i :: ids) e = from i e || leaves ids e.
Proof.
  unfold leaves, from.
  destruct (decide (e.1 = i)) as [Heq|Hne].
  - rewrite (bool_decide_eq_true_2 _ Heq). cbn.
    apply bool_decide_eq_true_2. rewrite Heq. left.
  - rewrite (bool_decide_eq_false_2 _ Hne). cbn.
    apply bool_decide_ext. rewrite elem_of_cons. intuition congruence.
Qed.

(** Sweeping [disconnect] or [dispose] drops exactly the connections that
    leave one of the handles. *)
Lemma sweep_edges g r l w :
  (forall i w, edges (g i w) = List.filter (fun e => negb (from i e)) (edges w)) ->
  edges (sweep g r l w) = List.filter (fun e => negb (leaves (handles r l) e)) (edges w).
Proof.
  intros Hg. unfold sweep. generalize (handles r l). intros ids. revert w.
  induction ids as [|i ids IH]; intros w; cbn [foldl].
  - induction (edges w) as [|e es IHes]; cbn; [done|]. by rewrite <- IHes.
  - rewrite IH, Hg, filter_filter_and. apply filter_ext_bool. intros e.
    rewrite leaves_cons. by destruct (from i e), (leaves ids e).
Qed.

Lemma sweep_disconnect_heap r l w : heap (sweep Tone.disconnect r l w) = heap w.
Proof.
  unfold sweep. generalize (handles r l). intros ids. revert w.
  induction ids as [|i ids IH]; intros w; cbn; [done|]. by rewrite IH.
Qed.

Lemma sweep_dispose_lookup r l w i :
  heap (sweep Tone.dispose r l w) !! i
  = (if bool_decide (i ∈ handles r l) then mark_disposed else (fun n => n)) <$> heap w !! i.
Proof.
  unfold sweep. generalize (handles r l). intros ids. revert w.
  induction ids as [|j ids IH]; intros w; cbn [foldl].
  - rewrite bool_decide_eq_false_2 by apply not_elem_of_nil. by destruct (heap w !! i).
  - rewrite IH. cbn [Tone.dispose heap].
    destruct (decide (j = i)) as [->|Hne].
    + rewrite list_lookup_alter_eq, (bool_decide_eq_true_2 (i ∈ i :: ids)) by left.
      destruct (heap w !! i) as [n|]; cbn; [|done].
      by destruct (bool_decide (i ∈ ids)).
    + rewrite list_lookup_alter_ne by done.
      assert (bool_decide (i ∈ j :: ids) = bool_decide (i ∈ ids)) as ->; [|done].
      apply bool_decide_ext. rewrite elem_of_cons. intuition congruence.
Qed.

(** ** The rebuild of the rebuilding component *)

Lemma cleanup_forEach s : Rebuild.cleanup s = forEach all12 dispose s.
Proof.
  unfold Rebuild.cleanup, all12, forEach, mbind, M_bind.
  repeat match goal with
         | |- context [opt ?k dispose ?s] => destruct (opt k dispose s) as [[[] ?]|]; [|done]
         end.
  done.
Qed.

Lemma cleanup_run s :
  Rebuild.cleanup s = Some (tt, with_tone (sweep Tone.dispose (reg s) all12) s).
Proof. rewrite cleanup_forEach. apply (forEach_run Tone.dispose). Qed.

Lemma linked_reg e cur s : reg (linked e cur s).2 = reg s.
Proof. unfold linked, wetted. by destruct (enabled s e), (reg s e), (wetRef e). Qed.

Lemma linked_enabled e cur s : enabled (linked e cur s).2 = enabled s.
Proof. unfold linked, wetted. by destruct (enabled s e), (reg s e), (wetRef e). Qed.

Lemma linked_num e cur s : num (linked e cur s).2 = num s.
Proof. unfold linked, wetted. by destruct (enabled s e), (reg s e), (wetRef e). Qed.

Lemma nonnull_run k s x : reg s k = Some x -> nonnull k s = Some (x, s).
Proof. intros H. unfold nonnull, var, mbind, M_bind. by rewrite H. Qed.

Lemma ifEnabled_linked (e : effect) (block : M id) cur s x :
  reg s e = Some x ->
  (enabled s e = true ->
   block s = Some (x, with_tone (Tone.connect cur (Node x)) (wetted e x s))) ->
  ifEnabled e block cur s = Some (linked e cur s).
Proof.
  intros Hx Hb. unfold ifEnabled, linked, get, mbind, M_bind. rewrite Hx.
  destruct (enabled s e); [by apply Hb|done].
Qed.

Lemma series_snoc l a b :
  series ((l ++ [a]) ++ [b]) = series (l ++ [a]) ++ [(a, Node b)].
Proof.
  induction l as [|x l IH]; [done|].
  destruct l as [|y l]; [done|].
  cbn [app series] in *. by rewrite IH.
Qed.

Lemma series_last sy l b :
  series (sy :: l ++ [b]) = series (sy :: l) ++ [(List.last l sy, Node b)].
Proof.
  destruct (exists_last (l := sy :: l)) as [l' [a Hl]]; [done|].
  rewrite app_comm_cons, Hl, series_snoc.
  assert (List.last l sy = a) as ->; [|done].
  assert (H : List.last (sy :: l) sy = a) by (rewrite Hl; apply last_last).
  destruct l; [by cbn in *|exact H].
Qed.

Lemma picked_snoc s l e :
  picked s (l ++ [e])
  = picked s l ++ (if enabled s e then option_list (reg s e) else []).
Proof.
  unfold picked, handles. rewrite List.filter_app, List.map_app, omap_app. f_equal.
  cbn. destruct (enabled s e); [|done]. cbn. by destruct (reg s e).
Qed.

Lemma Inv_step s0 sy l e q :
  Inv s0 sy l q -> Inv s0 sy (l ++ [e]) (linked e q.1 q.2).
Proof.
  intros (Hr & Hn & He & Ho & Hv & Hf & Hed & Hc & Hh).
  unfold Inv, wets. rewrite picked_snoc, foldl_app. cbn [foldl]. fold (wets s0 l (heap (tone s0))).
  unfold linked, wetHeap, wetWrite, wetted. rewrite Hr, He, Hn.
  destruct (enabled s0 e), (reg s0 e) as [x|]; cbn [fst snd];
    rewrite ?app_nil_r; try done.
  change (option_list (Some x)) with [x]. rewrite series_last, last_last, <- Hc.
  destruct (wetRef e); cbn; rewrite Hed, Hh, <- app_assoc; done.
Qed.

Lemma Inv_reg s0 sy l p : Inv s0 sy l p -> reg p.2 = reg s0.
Proof. by intros [? _]. Qed.

Lemma ok_step {A B} (m : M A) (f : A -> M B) s p Q :
  m s = Some p -> ok (f p.1) p.2 Q -> ok (m ≫= f) s Q.
Proof. intros H. unfold ok. by rewrite (bind_run _ _ _ _ H). Qed.

Lemma ok_last {A} (m : M A) s p (Q : A -> state -> Prop) :
  m s = Some p -> Q p.1 p.2 -> ok m s Q.
Proof. intros H. unfold ok. rewrite H. by destruct p. Qed.

Lemma ok_elim {A} (m : M A) s (Q : A -> state -> Prop) :
  ok m s Q -> exists a s', m s = Some (a, s') /\ Q a s'.
Proof. unfold ok. destruct (m s) as [[a s']|]; [eauto|done]. Qed.

Ltac link He e :=
  lazymatch goal with
  | HI : Inv ?s0 _ _ _ |- ok (ifEnabled e _ ?c ≫= _) ?s _ =>
      let p := fresh "p" in
      let Hp := fresh "Hp" in
      let Hx := fresh "Hx" in
      let HR := fresh "HR" in
      let x := fresh "x" in
      remember (linked e c s) as p eqn:Hp;
      assert (HR : reg s e = reg s0 e)
        by exact (f_equal (fun r => r (KEffect e)) (Inv_reg _ _ _ _ HI));
      destruct (He e) as [x Hx]; apply (eq_trans HR) in Hx;
      apply (ok_step _ _ s p);
      [ rewrite Hp; apply (ifEnabled_linked e _ c s x Hx);
        intros _;
        unfold nonnull, var, numv, connect, setParam, modify, mbind, M_bind, mret, M_ret,
          wetted;
        cbn [wetRef]; rewrite Hx; reflexivity
      | cbv beta ];
      apply (Inv_step _ _ _ e) in HI; cbn [fst snd] in HI; rewrite <- Hp in HI;
      clear Hp Hx HR x
  end.

Lemma connectChain_run s sy pa ga me :
  reg s KSynth = Some sy -> reg s KPanner = Some pa -> reg s KGain = Some ga ->
  reg s KMeter = Some me -> (forall e : effect, is_Some (reg s e)) ->
  ok Rebuild.connectChain s
     (fun _ s' => exists p, Inv s sy canonical p /\ s' = finish pa ga me p).
Proof.
  intros Hsy Hpa Hga Hme He.
  assert (HI : Inv s sy [] (sy, s)).
  { unfold Inv, picked, wets. cbn. by rewrite app_nil_r. }
  unfold Rebuild.connectChain.
  apply (ok_step _ _ s (sy, s)); [by apply nonnull_run|]. cbv beta zeta. cbn [fst snd].
  link He EFilter. link He EDistortion. link He EBitCrusher. link He EDelay.
  link He EChorus. link He EPhaser. link He EReverb. link He ECompressor.
  cbn [app] in HI.
  lazymatch goal with
  | |- ok _ ?S _ =>
      assert (HS : reg S = reg s) by apply HI;
      apply (ok_step _ _ S (pa, S)); [apply nonnull_run; by rewrite HS|]; cbn [fst snd];
      apply (ok_step _ _ S (ga, S)); [apply nonnull_run; by rewrite HS|]; cbn [fst snd];
      apply (ok_step _ _ S (me, S)); [apply nonnull_run; by rewrite HS|]; cbn [fst snd]
  end.
  eapply ok_last; [reflexivity|]. cbn [fst snd].
  eexists. split; [exact HI|]. reflexivity.
Qed.

Lemma construct_run k a s : construct k a s = Some (tt, constructed k a s).
Proof. reflexivity. Qed.

Lemma assign_snoc r n ks k :
  assign r n (ks ++ [k]) = <[k := Some (n + length ks)]> (assign r n ks).
Proof.
  revert r n. induction ks as [|k' ks IH]; intros r n; cbn.
  - by rewrite Nat.add_0_r.
  - rewrite IH. by replace (S n + length ks) with (n + S (length ks)) by lia.
Qed.

Lemma Cre_refl s : Cre s [] s.
Proof.
  repeat split; try done. exists []. by rewrite app_nil_r.
Qed.

Lemma Cre_step s0 ks s k a :
  Cre s0 ks s -> Cre s0 (ks ++ [k]) (constructed k a s).
Proof.
  intros (Hn & He & Ho & Hv & Hf & Hed & Hr & L & HL & Hk & Hp).
  repeat split; try done.
  - cbn. rewrite Hr, assign_snoc, HL, length_app. do 3 f_equal.
    by rewrite <- Hk, length_map.
  - exists (L ++ [pristine k a]). cbn. rewrite HL, <- app_assoc, List.map_app, Hk.
    repeat split; try done. apply Forall_app. split; [done|]. by constructor.
Qed.

Ltac read :=
  lazymatch goal with
  | |- ok (_ ≫= _) ?s _ => eapply (ok_step _ _ s (_, s)); [reflexivity|]; cbn [fst snd]
  end.

Ltac new :=
  lazymatch goal with
  | HC : Cre _ _ ?s |- ok (construct ?k ?a ≫= _) ?s _ =>
      let s' := fresh "s" in
      let Hs := fresh "Hs" in
      remember (constructed k a s) as s' eqn:Hs;
      apply (ok_step _ _ s (tt, s'));
      [ rewrite Hs; apply construct_run | cbn [fst snd] ];
      apply (Cre_step _ _ _ k a) in HC; rewrite <- Hs in HC; clear Hs
  | HC : Cre _ _ ?s |- ok (construct ?k ?a) ?s _ =>
      apply (ok_last _ s (tt, constructed k a s) _ (construct_run k a s));
      apply (Cre_step _ _ _ k a) in HC
  end.

Lemma createNodes_run s :
  ok Rebuild.createNodes s (fun _ s' => Cre s all12 s').
Proof.
  pose proof (Cre_refl s) as HC.
  unfold Rebuild.createNodes, synthOptions.
  repeat first [new | read].
  exact HC.
Qed.

Lemma ok_bind {A B} (m : M A) (f : A -> M B) s (Q1 : A -> state -> Prop) Q :
  ok m s Q1 -> (forall a s', Q1 a s' -> ok (f a) s' Q) -> ok (m ≫= f) s Q.
Proof.
  unfold ok, mbind, M_bind. destruct (m s) as [[a s']|]; [|done].
  intros H1 H2. by apply H2.
Qed.

Lemma assign_all12 r n k : assign r n all12 k = Some (offsetA k + n).
Proof. by destruct k as [|[]| | |]. Qed.

Lemma wiring_unfold s sy pa ga me :
  reg s KSynth = Some sy -> reg s KPanner = Some pa -> reg s KGain = Some ga ->
  reg s KMeter = Some me ->
  wiring s = series (sy :: picked s canonical)
             ++ [(List.last (picked s canonical) sy, Node pa); (pa, Node ga);
                 (ga, Node me); (ga, Destination)].
Proof.
  intros Hsy Hpa Hga Hme. unfold wiring, taps, chainOf, handles. rewrite Hga, Hme.
  cbn [omap list_omap]. rewrite Hsy, omap_app. cbn [omap list_omap]. rewrite Hpa, Hga.
  fold (handles (reg s) (map KEffect (List.filter (enabled s) canonical))).
  fold (picked s canonical).
  change (picked s canonical ++ [pa; ga]) with (picked s canonical ++ [pa] ++ [ga]).
  rewrite app_assoc, series_last, last_last, series_last, <- !app_assoc. done.
Qed.

Lemma wets_ext s s' l h :
  reg s = reg s' -> num s = num s' -> enabled s = enabled s' ->
  wets s l h = wets s' l h.
Proof.
  intros Hr Hn He. unfold wets. revert h.
  induction l as [|e l IH]; intros h; cbn; [done|].
  rewrite IH. f_equal. unfold wetHeap, wetWrite. by rewrite Hr, Hn, He.
Qed.

Lemma sweep_dispose_length r l w : length (heap (sweep Tone.dispose r l w)) = length (heap w).
Proof. apply sweep_length. intros i w'. cbn. apply length_alter. Qed.

Lemma initializeAudioChain_run s :
  ok Rebuild.initializeAudioChain s (fun _ s' => rebuilt s s').
Proof.
  unfold Rebuild.initializeAudioChain.
  remember (with_tone (sweep Tone.dispose (reg s) all12) s) as s1 eqn:Hs1.
  apply (ok_step _ _ s (tt, s1)); [rewrite Hs1; apply cleanup_run|]. cbn [fst snd].
  eapply ok_bind; [apply createNodes_run|]. intros [] s2 HC. cbv beta in HC |- *.
  destruct HC as (Hn & He & Ho & Hv & Hf & Hed & Hr & L & HL & Hk & Hp).
  assert (Hreg : forall k, reg s2 k = Some (offsetA k + length (heap (tone s)))).
  { intros k. rewrite Hr, assign_all12, Hs1. cbn [tone with_tone]. by rewrite sweep_dispose_length. }
  pose proof (connectChain_run s2 _ _ _ _ (Hreg KSynth) (Hreg KPanner) (Hreg KGain)
                (Hreg KMeter) (fun e => ex_intro _ _ (Hreg e))) as Hc.
  unfold ok in *. destruct (Rebuild.connectChain s2) as [[[] s3]|]; [|done].
  destruct Hc as (p & HI & Hs3). rewrite Hs3. clear Hs3 s3.
  destruct HI as (Hr' & Hn' & He' & Ho' & Hv' & Hf' & Hed' & Hc' & Hh').
  assert (Hreg3 : reg (finish (offsetA KPanner + length (heap (tone s)))
                        (offsetA KGain + length (heap (tone s)))
                        (offsetA KMeter + length (heap (tone s))) p) = reg s2) by exact Hr'.
  repeat split.
  - change (num p.2 = num s). by rewrite Hn', Hn, Hs1.
  - change (enabled p.2 = enabled s). by rewrite He', He, Hs1.
  - change (oscillatorType p.2 = oscillatorType s). by rewrite Ho', Ho, Hs1.
  - change (envelope p.2 = envelope s). by rewrite Hv', Hv, Hs1.
  - change (filterType p.2 = filterType s). by rewrite Hf', Hf, Hs1.
  - intros k. by rewrite Hreg3.
  - rewrite (wiring_unfold _ (offsetA KSynth + length (heap (tone s)))
               (offsetA KPanner + length (heap (tone s)))
               (offsetA KGain + length (heap (tone s)))
               (offsetA KMeter + length (heap (tone s))))
      by (rewrite Hreg3; apply Hreg).
    assert (picked (finish (offsetA KPanner + length (heap (tone s)))
                        (offsetA KGain + length (heap (tone s)))
                        (offsetA KMeter + length (heap (tone s))) p) canonical
            = picked s2 canonical) as ->.
    { unfold picked. rewrite Hreg3. by change (enabled (finish _ _ _ p)) with (enabled p.2); rewrite He'. }
    change (edges (tone (finish ?a ?b ?c p)))
      with ((((edges (tone p.2) ++ [(p.1, Node a)]) ++ [(a, Node b)]) ++ [(b, Node c)])
              ++ [(b, Destination)]).
    rewrite Hed', Hc', Hed, Hs1. cbn [tone with_tone edges].
    rewrite (sweep_edges Tone.dispose) by done. by rewrite <- !app_assoc.
  - exists L. split; [|done].
    change (heap (tone (finish ?a ?b ?c p))) with (heap (tone p.2)).
    rewrite Hh', HL, Hs1.
    apply wets_ext; [by rewrite Hreg3|by change (num s2 = num p.2)|
                     by change (enabled s2 = enabled p.2)].
Qed.

(** ** The rebuild of the reconnecting component *)

Lemma leaves_nil e : leaves [] e = false.
Proof. unfold leaves. apply bool_decide_eq_false_2. apply not_elem_of_nil. Qed.

Lemma leaves_app l1 l2 e : leaves (l1 ++ l2) e = leaves l1 e || leaves l2 e.
Proof.
  induction l1 as [|i l1 IH]; cbn [app]; [by rewrite leaves_nil|].
  by rewrite !leaves_cons, IH, orb_assoc.
Qed.

Lemma connectSeries_edges nodes w :
  edges (Tone.connectSeries nodes w) = edges w ++ series nodes.
Proof.
  revert w. induction nodes as [|a nodes IH]; intros w; cbn.
  - by rewrite app_nil_r.
  - destruct nodes as [|b nodes]; cbn in *; [by rewrite app_nil_r|].
    rewrite IH. cbn. by rewrite <- app_assoc.
Qed.

Lemma connectSeries_heap nodes w : heap (Tone.connectSeries nodes w) = heap w.
Proof.
  revert w. induction nodes as [|a nodes IH]; intros w; cbn; [done|].
  destruct nodes as [|b nodes]; cbn in *; [done|]. by rewrite IH.
Qed.

Lemma push_picked s l e :
  Reconnect.pushIfEnabled e (picked s l) s = Some (picked s (l ++ [e]), s).
Proof.
  rewrite picked_snoc. unfold Reconnect.pushIfEnabled, get, var, mbind, M_bind, mret, M_ret.
  destruct (enabled s e), (reg s e); cbn; by rewrite ?app_nil_r.
Qed.

Ltac push e :=
  lazymatch goal with
  | |- ok (Reconnect.pushIfEnabled e (picked ?s ?l) ≫= _) ?s _ =>
      apply (ok_step _ _ s (picked s (l ++ [e]), s) _ (push_picked s l e));
      cbn [fst snd app]
  end.

Lemma updateAudioChain_run s sy pa ga me :
  reg s KSynth = Some sy -> reg s KPanner = Some pa -> reg s KGain = Some ga ->
  reg s KMeter = Some me ->
  ok Reconnect.updateAudioChain s (fun _ s' => rewiredTo s s').
Proof.
  intros Hsy Hpa Hga Hme. unfold Reconnect.updateAudioChain.
  apply (ok_step _ _ s (reg s KSynth, s) _ eq_refl). cbn [fst snd].
  apply (ok_step _ _ s (reg s KPanner, s) _ eq_refl). cbn [fst snd].
  apply (ok_step _ _ s (reg s KGain, s) _ eq_refl). cbn [fst snd].
  rewrite Hsy, Hpa, Hga.
  remember (with_tone (Tone.disconnect sy) s) as s1 eqn:Hs1.
  apply (ok_step _ _ s (tt, s1)); [by rewrite Hs1|]. cbn [fst snd].
  remember (with_tone (sweep Tone.disconnect (reg s1) (map KEffect canonical)) s1) as s2 eqn:Hs2.
  apply (ok_step _ _ s1 (tt, s2)); [rewrite Hs2; apply (forEach_run Tone.disconnect)|].
  cbn [fst snd].
  remember (with_tone (Tone.disconnect pa) s2) as s3 eqn:Hs3.
  apply (ok_step _ _ s2 (tt, s3)); [by rewrite Hs3|]. cbn [fst snd].
  remember (with_tone (Tone.disconnect ga) s3) as s4 eqn:Hs4.
  apply (ok_step _ _ s3 (tt, s4)); [by rewrite Hs4|]. cbn [fst snd].
  cbv zeta. change (@nil id) with (picked s4 []).
  push EFilter. push EDistortion. push EBitCrusher. push EDelay.
  push EChorus. push EPhaser. push EReverb. push ECompressor.
  assert (H43 : reg s4 = reg s) by (by rewrite Hs4, Hs3, Hs2, Hs1).
  remember (with_tone (Tone.connectSeries ([sy] ++ picked s4 canonical ++ [pa; ga])) s4)
    as s5 eqn:Hs5.
  apply (ok_step _ _ s4 (tt, s5)); [by rewrite Hs5|]. cbn [fst snd].
  assert (H5 : reg s5 = reg s) by (by rewrite Hs5).
  apply (ok_step _ _ s5 (me, s5)); [apply nonnull_run; by rewrite H5|]. cbn [fst snd].
  eapply ok_last; [reflexivity|]. cbn [fst snd].
  unfold rewiredTo.
  assert (Hp : picked s4 canonical = picked s canonical).
  { unfold picked. rewrite H43. by rewrite Hs4, Hs3, Hs2, Hs1. }
  repeat split; try (by rewrite ?Hs5, ?Hs4, ?Hs3, ?Hs2, ?Hs1).
  - cbn [tone with_tone heap Tone.connect]. rewrite Hs5. cbn [tone with_tone].
    rewrite connectSeries_heap, Hs4, Hs3. cbn [tone with_tone heap Tone.disconnect].
    rewrite Hs2. cbn [tone with_tone]. rewrite sweep_disconnect_heap. by rewrite Hs1.
  - match goal with |- _ = _ ++ wiring ?S => 
      assert (HW : wiring S = wiring s5) by done; rewrite HW; clear HW end.
    assert (HW : wiring s5 = series ([sy] ++ picked s4 canonical ++ [pa; ga])
                             ++ [(ga, Node me); (ga, Destination)]).
    { rewrite (wiring_unfold s5 sy pa ga me) by (by rewrite H5).
      assert (picked s5 canonical = picked s4 canonical) as -> by (by rewrite Hs5).
      cbn [app].
      change (picked s4 canonical ++ [pa; ga]) with (picked s4 canonical ++ [pa] ++ [ga]).
      rewrite app_assoc, series_last, last_last, series_last, <- !app_assoc. done. }
    rewrite HW. cbn [tone with_tone edges Tone.connect]. rewrite Hs5. cbn [tone with_tone].
    rewrite connectSeries_edges, <- !app_assoc. f_equal.
    rewrite Hs4, Hs3. cbn [tone with_tone edges Tone.disconnect].
    rewrite Hs2. cbn [tone with_tone].
    rewrite (sweep_edges Tone.disconnect) by done.
    rewrite Hs1. cbn [tone with_tone edges Tone.disconnect reg].
    rewrite !filter_filter_and. apply filter_ext_bool. intros e.
    unfold rewired, handles. cbn [omap list_omap]. rewrite Hsy, omap_app. cbn [omap list_omap].
    rewrite Hpa, Hga.
    fold (handles (reg s) (map KEffect canonical)).
    rewrite leaves_cons, leaves_app, !leaves_cons, leaves_nil.
    generalize (leaves (handles (reg s) (map KEffect canonical)) e).
    intros b. by destruct (from sy e), b, (from pa e), (from ga e).
Qed.

(** ** Parameter updates *)

Lemma callback_run u s :
  callback u s = Some (tt, with_tone (perform (reg s) (writes u s)) s).
Proof.
  destruct s as [ot env ft nm en rg w].
  destruct u as [r val|val|val|env'|e|val|val|val|env']; [destruct r| | | |destruct e| | | |];
    unfold callback, writes, perform, Rebuild.watchNum, Rebuild.watchFilterType,
      Rebuild.watchOscillatorType, Rebuild.watchEnvelope, Reconnect.watchProps,
      Reconnect.watchGain, Reconnect.watchPan, Reconnect.watchOscillatorType,
      Reconnect.watchEnvelope, opt, var, mbind, M_bind, mret, M_ret, numv, get, setParam,
      modify, with_tone;
    cbn -[Tone.setParam];
    match goal with
    | |- context [rg ?k] => destruct (rg k)
    | |- _ => idtac
    end; reflexivity.
Qed.

Lemma perform_edges r ws w : edges (perform r ws w) = edges w.
Proof.
  unfold perform. revert w. induction ws as [|[[k p] v] ws IH]; intros w; cbn; [done|].
  rewrite IH. by destruct (r k).
Qed.

Lemma perform_length r ws w : length (heap (perform r ws w)) = length (heap w).
Proof.
  unfold perform. revert w. induction ws as [|[[k p] v] ws IH]; intros w; cbn; [done|].
  rewrite IH. destruct (r k); [|done]. cbn. apply length_alter.
Qed.

Lemma perform_fixedPart r ws w :
  map fixedPart (heap (perform r ws w)) = map fixedPart (heap w).
Proof.
  unfold perform. revert w. induction ws as [|[[k p] v] ws IH]; intros w; cbn; [done|].
  rewrite IH. destruct (r k) as [i|]; [|done]. cbn.
  apply list_eq. intros j. rewrite !list_lookup_fmap.
  destruct (decide (i = j)) as [->|Hne].
  - rewrite list_lookup_alter_eq. by destruct (heap w !! j).
  - by rewrite list_lookup_alter_ne.
Qed.

Lemma perform_other r ws w j :
  (forall k p v, (k, p, v) ∈ ws -> r k <> Some j) ->
  heap (perform r ws w) !! j = heap w !! j.
Proof.
  unfold perform. revert w. induction ws as [|[[k p] v] ws IH]; intros w H; cbn; [done|].
  rewrite IH by (intros; eapply H; by right).
  destruct (r k) as [i|] eqn:Hk; [|done]. cbn.
  apply list_lookup_alter_ne. intros ->. eapply H; [left|done].
Qed.

Lemma perform_absent r ws w :
  (forall k p v, (k, p, v) ∈ ws -> r k = None) -> perform r ws w = w.
Proof.
  unfold perform. revert w. induction ws as [|[[k p] v] ws IH]; intros w H; cbn; [done|].
  rewrite (H k p v) by left. apply IH. intros; eapply H; by right.
Qed.

Lemma setParam_param_eq i p v w :
  i < length (heap w) -> param (Tone.setParam i p v w) i p = Some v.
Proof.
  intros Hi. unfold param. cbn. rewrite list_lookup_alter_eq.
  destruct (lookup_lt_is_Some_2 _ _ Hi) as [nd ->]. cbn.
  unfold insert, fn_insert. by rewrite decide_True.
Qed.

Lemma setParam_param_ne i j p q v w :
  p <> q -> param (Tone.setParam i p v w) j q = param w j q.
Proof.
  intros Hpq. unfold param. cbn.
  destruct (decide (i = j)) as [->|Hne].
  - rewrite list_lookup_alter_eq. destruct (heap w !! j) as [nd|]; cbn; [|done].
    unfold insert, fn_insert. by rewrite decide_False.
  - by rewrite list_lookup_alter_ne.
Qed.

Lemma perform_param_other r ws w j q :
  (forall k p v, (k, p, v) ∈ ws -> p <> q) ->
  param (perform r ws w) j q = param w j q.
Proof.
  unfold perform. revert w. induction ws as [|[[k p] v] ws IH]; intros w H; cbn; [done|].
  rewrite IH by (intros; eapply H; by right).
  destruct (r k) as [i|]; [|done]. apply setParam_param_ne. eapply H. left.
Qed.

Lemma perform_param r ws w k p v i :
  NoDup (map (fun x => x.1.2) ws) ->
  (k, p, v) ∈ ws -> r k = Some i -> i < length (heap w) ->
  param (perform r ws w) i p = Some v.
Proof.
  revert w. induction ws as [|[[k' p'] v'] ws IH]; intros w Hnd Hin Hk Hi.
  - by apply elem_of_nil in Hin.
  - cbn in Hnd. apply NoDup_cons in Hnd as [Hp' Hnd].
    apply elem_of_cons in Hin as [Heq|Hin].
    + injection Heq as <- <- <-. cbn. rewrite Hk.
      change (param (perform r ws (Tone.setParam i p v w)) i p = Some v).
      rewrite perform_param_other; [by apply setParam_param_eq|].
      intros k2 p2 v2 H2 ->. apply Hp'. apply list_elem_of_fmap. by exists (k2, p, v2).
    + cbn. change (param (perform r ws (match r k' with
                                        | Some i0 => Tone.setParam i0 p' v' w
                                        | None => w end)) i p = Some v).
      apply IH; try done. destruct (r k'); [|done]. cbn. by rewrite length_alter.
Qed.

Lemma writes_NoDup u s : NoDup (map (fun x => x.1.2) (writes u s)).
Proof.
  destruct u as [r val|val|val|env'|e|val|val|val|env']; [destruct r| | | |destruct e| | | |];
    cbn; repeat (apply NoDup_cons; split; [by rewrite ?elem_of_cons, elem_of_nil; intros H; repeat destruct H as [H|H]|]);
    apply NoDup_nil; done.
Qed.

(** C3: every parameter watcher of either component returns, and leaves
    the connections of the audio graph, the node variables, and the class,
    constructor arguments and disposal flag of every node as they were; a
    node the update does not write to is untouched altogether. *)
Theorem parameter_update_keeps_connections (u : update) (s : state) :
  exists s', callback u s = Some (tt, s') /\
    edges (tone s') = edges (tone s) /\
    reg s' = reg s /\
    map fixedPart (heap (tone s')) = map fixedPart (heap (tone s)) /\
    forall j, (forall k p v, (k, p, v) ∈ writes u s -> reg s k <> Some j) ->
              heap (tone s') !! j = heap (tone s) !! j.
Proof.
  eexists. split; [apply callback_run|]. cbn [tone with_tone reg]. repeat split.
  - apply perform_edges.
  - apply perform_fixedPart.
  - intros j Hj. by apply perform_other.
Qed.

(** C6: a parameter update issued while none of the nodes it writes to has
    been constructed returns without an error and leaves the whole state
    unchanged; issued once those nodes exist, it returns and every parameter
    it sets then holds the new value on its node. *)
Theorem parameter_update_without_node (u : update) (s s2 : state) :
  absent u s -> present u s2 ->
  callback u s = Some (tt, s) /\
  exists s2', callback u s2 = Some (tt, s2') /\
    forall k p v, (k, p, v) ∈ writes u s2 ->
      exists i, reg s2 k = Some i /\ param (tone s2') i p = Some v.
Proof.
  intros Ha Hp. split.
  - rewrite callback_run. destruct s as [ot env ft nm en rg w]. unfold with_tone. cbn.
    do 2 f_equal. f_equal. by apply perform_absent.
  - eexists. split; [apply callback_run|]. intros k p v Hin.
    destruct (Hp k p v Hin) as (i & Hi & Hlt). exists i. split; [done|].
    cbn [tone with_tone]. eapply perform_param; eauto using writes_NoDup.
Qed.

Lemma parameter_update_without_node_witness :
  let u := RebuildNum filterFreq 500 in
  let s2 := match Rebuild.onMounted Rebuild.init with Some (_, s) => s | None => Rebuild.init end in
  absent u Rebuild.init /\ present u s2 /\
  callback u Rebuild.init = Some (tt, Rebuild.init) /\
  exists s2', callback u s2 = Some (tt, s2') /\ param (tone s2') 1 frequency = Some (Num 500).
Proof.
  intros u s2.
  assert (Ha : absent u Rebuild.init).
  { intros k p v H. apply list_elem_of_singleton in H. by injection H as -> _ _. }
  assert (Hp : present u s2).
  { intros k p v H. apply list_elem_of_singleton in H. injection H as -> -> ->.
    exists 1. split; [reflexivity|]. vm_compute. lia. }
  destruct (parameter_update_without_node u Rebuild.init s2 Ha Hp) as (H1 & s2' & H2 & H3).
  split; [exact Ha|]. split; [exact Hp|]. split; [exact H1|].
  exists s2'. split; [exact H2|].
  destruct (H3 (KEffect EFilter) frequency (Num 500)) as (i & Hi & Hv); [left|].
  vm_compute in Hi. injection Hi as <-. exact Hv.
Defined.

(** ** Teardown *)

Lemma world_eq (w1 w2 : world) : heap w1 = heap w2 -> edges w1 = edges w2 -> w1 = w2.
Proof. destruct w1, w2. cbn. by intros -> ->. Qed.

Lemma filter_idem {X} (p : X -> bool) l : List.filter p (List.filter p l) = List.filter p l.
Proof. rewrite filter_filter_and. apply filter_ext_bool. intros x. by destruct (p x). Qed.

Lemma sweep_dispose_idem r l w :
  sweep Tone.dispose r l (sweep Tone.dispose r l w) = sweep Tone.dispose r l w.
Proof.
  apply world_eq.
  - apply list_eq. intros i. rewrite !sweep_dispose_lookup.
    destruct (heap w !! i) as [n|]; cbn; [|done].
    by destruct (bool_decide (i ∈ handles r l)).
  - rewrite !(sweep_edges Tone.dispose) by done. apply filter_idem.
Qed.

Lemma elem_of_handles r l i : i ∈ handles r l <-> exists k, k ∈ l /\ r k = Some i.
Proof. unfold handles. rewrite list_elem_of_omap. naive_solver. Qed.

Lemma all12_complete k : k ∈ all12.
Proof. destruct k as [|[]| | |]; unfold all12; set_solver. Qed.

Lemma sweep_dispose_live r l w i :
  i ∈ handles r l -> live (sweep Tone.dispose r l w) i = false.
Proof.
  intros Hi. unfold live. rewrite sweep_dispose_lookup, bool_decide_eq_true_2 by done.
  by destruct (heap w !! i).
Qed.

Lemma onBeforeUnmount_forEach s : Rebuild.onBeforeUnmount s = forEach all12 dispose s.
Proof.
  unfold Rebuild.onBeforeUnmount, all12, forEach, mbind, M_bind.
  repeat match goal with
         | |- context [opt ?k dispose ?s] => destruct (opt k dispose s) as [[[] ?]|]; [|done]
         end.
  done.
Qed.

(** C5: the teardown of either component returns from any state; run again
    on the state it leaves, it returns again and changes nothing; after one
    call, as after two, every node held in a variable is disposed. *)
Theorem teardown_idempotent (s : state) :
  exists s1,
    Rebuild.onBeforeUnmount s = Some (tt, s1) /\ Rebuild.onBeforeUnmount s1 = Some (tt, s1) /\
    Reconnect.onBeforeUnmount s = Some (tt, s1) /\ Reconnect.onBeforeUnmount s1 = Some (tt, s1) /\
    reg s1 = reg s /\
    forall k i, reg s k = Some i -> live (tone s1) i = false.
Proof.
  exists (with_tone (sweep Tone.dispose (reg s) all12) s).
  assert (H1 : forall s0, forEach all12 dispose s0
                          = Some (tt, with_tone (sweep Tone.dispose (reg s0) all12) s0))
    by (intros; apply (forEach_run Tone.dispose)).
  assert (H2 : with_tone (sweep Tone.dispose (reg s) all12)
                 (with_tone (sweep Tone.dispose (reg s) all12) s)
               = with_tone (sweep Tone.dispose (reg s) all12) s).
  { destruct s as [ot env ft nm en rg w]. unfold with_tone.
    cbn [tone reg oscillatorType envelope filterType num enabled]. f_equal.
    apply sweep_dispose_idem. }
  repeat split.
  - by rewrite onBeforeUnmount_forEach.
  - rewrite onBeforeUnmount_forEach, H1. cbn [reg with_tone]. by rewrite H2.
  - apply H1.
  - unfold Reconnect.onBeforeUnmount. fold all12. rewrite H1. cbn [reg with_tone]. by rewrite H2.
  - intros k i Hk. cbn [tone with_tone]. apply sweep_dispose_live.
    apply elem_of_handles. exists k. split; [apply all12_complete|done].
Qed.

(** ** The chain after a rebuild *)

Lemma handles_total r node l : (forall k, r k = Some (node k)) -> handles r l = map node l.
Proof.
  intros H. unfold handles. induction l as [|k l IH]; cbn; [done|]. by rewrite H, IH.
Qed.

Lemma wiring_explicit s node :
  (forall k, reg s k = Some (node k)) -> wiring s = expectedEdges node (enabled s).
Proof.
  intros H. unfold wiring, taps, chainOf, expectedEdges, signalPath, pathKinds.
  by rewrite !H, (handles_total _ node).
Qed.

Lemma filter_owned (p : edge -> bool) l :
  forallb p l = true -> List.filter (fun e => negb (p e)) l = [].
Proof.
  induction l as [|e l IH]; cbn; [done|].
  intros [-> H]%andb_prop. cbn. by apply IH.
Qed.

Lemma series_endpoints l a b :
  (a, b) ∈ series l -> a ∈ l /\ exists x, b = Node x /\ x ∈ l.
Proof.
  induction l as [|y l IH]; cbn; [by intros ?%elem_of_nil|].
  destruct l as [|z l]; [by intros ?%elem_of_nil|].
  intros [Heq|Hin]%elem_of_cons.
  - injection Heq as -> ->. split; [left|]. exists z. split; [done|]. right. left.
  - destruct (IH Hin) as (Ha & x & -> & Hx). split; [by right|]. exists x. split; [done|by right].
Qed.

Lemma expected_untouched (node : kind -> id) en (e : effect) :
  (forall k k', node k = node k' -> k = k') -> en e = false ->
  existsb (touches (node e)) (expectedEdges node en) = false.
Proof.
  intros Hinj He. apply not_true_is_false. intros [[a b] [Hin Ht]]%existsb_exists.
  assert (Hpath : forall x, x ∈ signalPath node en -> x <> node e).
  { intros x [k [-> Hk]]%list_elem_of_fmap Heq. apply Hinj in Heq. subst k.
    unfold pathKinds in Hk. rewrite elem_of_cons, elem_of_app, !elem_of_cons, elem_of_nil in Hk.
    destruct Hk as [?|[Hk|[?|[?|[]]]]]; try done.
    apply list_elem_of_fmap in Hk as [e' [[= <-] He']].
    apply list_elem_of_In, filter_In in He' as [_ He']. congruence. }
  assert (Hg : node KGain <> node e) by (intros ?%Hinj; done).
  assert (Hm : node KMeter <> node e) by (intros ?%Hinj; done).
  apply list_elem_of_In in Hin. unfold expectedEdges in Hin.
  rewrite elem_of_app, !elem_of_cons, elem_of_nil in Hin.
  unfold touches in Ht. cbn in Ht.
  apply orb_prop in Ht.
  destruct Hin as [Hin|[[= -> ->]|[[= -> ->]|[]]]].
  - apply series_endpoints in Hin as (Ha & x & -> & Hx).
    destruct Ht as [Ht|Ht]; apply bool_decide_eq_true_1 in Ht.
    + by apply (Hpath a).
    + injection Ht as ->. by apply (Hpath (node e)).
  - destruct Ht as [Ht|Ht]; apply bool_decide_eq_true_1 in Ht; [done|]. by injection Ht.
  - destruct Ht as [Ht|Ht]; apply bool_decide_eq_true_1 in Ht; done.
Qed.

Lemma offsetA_inj k k' n : offsetA k + n = offsetA k' + n -> k = k'.
Proof. destruct k as [|[]| | |], k' as [|[]| | |]; cbn; intros H; (done || lia). Qed.

Lemma mounted_node s :
  mounted s = true -> exists node : kind -> id, forall k, reg s k = Some (node k).
Proof.
  intros H. exists (fun k => default 0 (reg s k)). intros k.
  unfold mounted in H. rewrite forallb_forall in H.
  specialize (H k (proj1 (list_elem_of_In _ _) (all12_complete k))).
  apply bool_decide_eq_true_1 in H as [i ->]. done.
Qed.

Lemma distinct_inj s node :
  distinct s = true -> (forall k, reg s k = Some (node k)) ->
  forall k k', node k = node k' -> k = k'.
Proof.
  intros H Hn k k' Heq. unfold distinct in H. rewrite forallb_forall in H.
  specialize (H k (proj1 (list_elem_of_In _ _) (all12_complete k))).
  rewrite forallb_forall in H.
  specialize (H k' (proj1 (list_elem_of_In _ _) (all12_complete k'))).
  apply bool_decide_eq_true_1 in H. apply H. by rewrite !Hn, Heq.
Qed.

(** C1 (amended): for every set of enabled effects, after a rebuild the
    connections are exactly these: the synth, the enabled effects in
    canonical order, the panner and the gain node in series, then the gain
    node to the meter and the gain node to the destination, side by side;
    and no node of a disabled effect has any connection.  For the
    rebuilding component from any state whose connections all leave nodes it
    holds, for the reconnecting one from any mounted state. *)
Theorem chain_topology_after_rebuild (sA sB : state) :
  owned all12 sA = true ->
  mounted sB = true -> distinct sB = true -> owned rewired sB = true ->
  (exists s' node,
     Rebuild.initializeAudioChain sA = Some (tt, s') /\
     (forall k, reg s' k = Some (node k)) /\
     edges (tone s') = expectedEdges node (enabled sA) /\
     forall e : effect, enabled sA e = false -> connected (tone s') (node e) = false) /\
  (exists s' node,
     Reconnect.updateAudioChain sB = Some (tt, s') /\
     (forall k, reg s' k = Some (node k)) /\
     edges (tone s') = expectedEdges node (enabled sB) /\
     forall e : effect, enabled sB e = false -> connected (tone s') (node e) = false).
Proof.
  intros HoA Hm Hd HoB. split.
  - destruct (ok_elim _ _ _ (initializeAudioChain_run sA))
      as ([] & s' & Hrun & Hn & He & _ & _ & _ & Hr & Hed & _).
    exists s', (fun k => offsetA k + length (heap (tone sA))).
    rewrite filter_owned in Hed by exact HoA. cbn [app] in Hed.
    rewrite (wiring_explicit s' _ Hr), He in Hed.
    repeat split; try done.
    intros e Hoff. unfold connected. rewrite Hed.
    apply (expected_untouched (fun k => offsetA k + length (heap (tone sA)))); [|done].
    intros k k'. apply offsetA_inj.
  - destruct (mounted_node sB Hm) as [node Hn].
    destruct (ok_elim _ _ _ (updateAudioChain_run sB _ _ _ _ (Hn KSynth) (Hn KPanner)
                               (Hn KGain) (Hn KMeter)))
      as ([] & s' & Hrun & _ & He & _ & _ & _ & Hr & _ & Hed).
    exists s', node.
    rewrite filter_owned in Hed by exact HoB. cbn [app] in Hed.
    assert (Hn' : forall k, reg s' k = Some (node k)) by (intros k; by rewrite Hr).
    rewrite (wiring_explicit s' _ Hn'), He in Hed.
    repeat split; try done.
    intros e Hoff. unfold connected. rewrite Hed.
    apply expected_untouched; [|done]. by apply (distinct_inj sB).
Qed.

Lemma chain_topology_after_rebuild_witness :
  owned all12 rebuildDemo = true /\
  mounted reconnectDemo = true /\ distinct reconnectDemo = true /\
  owned rewired reconnectDemo = true /\
  (exists s' node,
     Rebuild.initializeAudioChain rebuildDemo = Some (tt, s') /\
     (forall k, reg s' k = Some (node k)) /\
     edges (tone s') = expectedEdges node (enabled rebuildDemo) /\
     forall e : effect, enabled rebuildDemo e = false -> connected (tone s') (node e) = false) /\
  (exists s' node,
     Reconnect.updateAudioChain reconnectDemo = Some (tt, s') /\
     (forall k, reg s' k = Some (node k)) /\
     edges (tone s') = expectedEdges node (enabled reconnectDemo) /\
     forall e : effect, enabled reconnectDemo e = false -> connected (tone s') (node e) = false).
Proof.
  assert (H1 : owned all12 rebuildDemo = true) by (vm_compute; reflexivity).
  assert (H2 : mounted reconnectDemo = true) by (vm_compute; reflexivity).
  assert (H3 : distinct reconnectDemo = true) by (vm_compute; reflexivity).
  assert (H4 : owned rewired reconnectDemo = true) by (vm_compute; reflexivity).
  exact (conj H1 (conj H2 (conj H3 (conj H4
           (chain_topology_after_rebuild rebuildDemo reconnectDemo H1 H2 H3 H4))))).
Defined.

(** C1 as worded fails: just after mounting, with no effect enabled, the
    connections are not those of a series ending Gain, Meter, Output: the
    gain node, not the meter, feeds the destination. *)
Lemma meter_not_in_series :
  Rebuild.initializeAudioChain Rebuild.init = Some (tt, rebuildMounted) /\
  (forall k, reg rebuildMounted k = Some (offsetA k)) /\
  edges (tone rebuildMounted) <> claimedEdges offsetA (enabled Rebuild.init) /\
  ((offsetA KMeter, Destination) ∉ edges (tone rebuildMounted)) /\
  ((offsetA KGain, Destination) ∈ edges (tone rebuildMounted)).
Proof.
  assert (He : edges (tone rebuildMounted)
               = [(0, Node 9); (9, Node 10); (10, Node 11); (10, Destination)])
    by (vm_compute; reflexivity).
  split; [vm_compute; reflexivity|].
  split; [by intros [|[]| | |]|]. rewrite He. split; [|split].
  - vm_compute. intros H. discriminate H.
  - cbn. rewrite !elem_of_cons, elem_of_nil. intros [H|[H|[H|[H|[]]]]]; discriminate H.
  - cbn. rewrite !elem_of_cons. right. right. right. by left.
Qed.

(** ** Node lifetimes across a rebuild *)

Lemma live_fixedPart w w' i :
  map fixedPart (heap w) = map fixedPart (heap w') -> live w i = live w' i.
Proof.
  intros H. unfold live.
  assert (Hi : fixedPart <$> heap w !! i = fixedPart <$> heap w' !! i)
    by (rewrite <- !list_lookup_fmap;
        change (fixedPart <$> heap w) with (map fixedPart (heap w)); by rewrite H).
  destruct (heap w !! i) as [[]|], (heap w' !! i) as [[]|];
    unfold fixedPart in *; cbn in *; congruence.
Qed.

Lemma alter_write_fixedPart p v i h :
  map fixedPart (alter (write p v) i h) = map fixedPart h.
Proof.
  apply list_eq. intros j. rewrite !list_lookup_fmap.
  destruct (decide (i = j)) as [->|Hne].
  - rewrite list_lookup_alter_eq. by destruct (h !! j).
  - by rewrite list_lookup_alter_ne.
Qed.

Lemma wets_fixedPart s l h : map fixedPart (wets s l h) = map fixedPart h.
Proof.
  unfold wets. revert h. induction l as [|e l IH]; intros h; cbn; [done|].
  rewrite IH. unfold wetHeap, wetWrite.
  destruct (enabled s e), (reg s e), (wetRef e); cbn; try done.
  apply alter_write_fixedPart.
Qed.

Lemma tidy_live s i :
  tidy s = true -> live (tone s) i = true -> i ∈ handles (reg s) all12.
Proof.
  intros Ht Hl. unfold tidy in Ht. rewrite forallb_forall in Ht.
  assert (Hi : i < length (heap (tone s))).
  { unfold live in Hl. destruct (heap (tone s) !! i) eqn:E; [|done].
    by apply lookup_lt_Some in E. }
  assert (Hin : In i (seq 0 (length (heap (tone s))))) by (apply in_seq; lia).
  specialize (Ht i Hin). rewrite Hl in Ht. cbn in Ht.
  by apply bool_decide_eq_true_1 in Ht.
Qed.

Lemma cleaned_dead s i : tidy s = true -> live (mkWorld (cleaned s) []) i = false.
Proof.
  intros Ht. unfold live, cleaned. cbn [heap]. rewrite sweep_dispose_lookup.
  destruct (heap (tone s) !! i) as [n|] eqn:E; [|done].
  destruct (bool_decide (i ∈ handles (reg s) all12)) eqn:Hb; [reflexivity|].
  apply bool_decide_eq_false_1 in Hb.
  change (negb (disposed n) = false).
  destruct (disposed n) eqn:Hd; [done|]. exfalso. apply Hb, tidy_live; [done|].
  unfold live. by rewrite E, Hd.
Qed.

Lemma offsetA_position j :
  j < 12 -> exists k, all12 !! j = Some k /\ offsetA k = j.
Proof.
  intros Hj.
  do 12 (destruct j as [|j]; [eexists; split; reflexivity|]). lia.
Qed.

Lemma position_offsetA k : all12 !! offsetA k = Some k.
Proof. by destruct k as [|[]| | |]. Qed.

(** After a rebuild of a tidy state the nodes of the previous build are
    disposed, and the twelve new nodes are live, one per variable. *)
Lemma rebuilt_lifetimes s s' :
  tidy s = true -> rebuilt s s' ->
  (forall i, i < length (heap (tone s)) -> live (tone s') i = false) /\
  (forall k, kindOf <$> heap (tone s') !! (offsetA k + length (heap (tone s))) = Some k) /\
  (forall i, live (tone s') i = true <-> exists k, i = offsetA k + length (heap (tone s))).
Proof.
  intros Ht (_ & _ & _ & _ & _ & Hr & _ & L & HL & Hk & Hp).
  assert (Hlen : length (cleaned s) = length (heap (tone s)))
    by apply sweep_dispose_length.
  assert (HLlen : length L = 12) by (by rewrite <- (length_map kindOf), Hk).
  assert (Hid : map fixedPart (heap (tone s')) = map fixedPart (cleaned s ++ L))
    by (rewrite HL; apply wets_fixedPart).
  assert (Hlive : forall i, live (tone s') i = live (mkWorld (cleaned s ++ L) []) i)
    by (intros i; by apply live_fixedPart).
  assert (Hold : forall i, i < length (heap (tone s)) -> live (tone s') i = false).
  { intros i Hi. rewrite Hlive. unfold live. cbn. rewrite lookup_app_l by lia.
    by apply (cleaned_dead s i). }
  assert (Hnew : forall k, exists nd, (cleaned s ++ L) !! (offsetA k + length (heap (tone s)))
                                      = Some nd /\ kindOf nd = k /\ disposed nd = false).
  { intros k.
    assert (Hpos : kindOf <$> L !! offsetA k = Some k)
      by (rewrite <- list_lookup_fmap; change (fmap kindOf L) with (map kindOf L);
          rewrite Hk; apply position_offsetA).
    destruct (L !! offsetA k) as [nd|] eqn:E; [|done]. injection Hpos as Hkind.
    exists nd. rewrite lookup_app_r, Hlen by lia.
    replace (offsetA k + length (heap (tone s)) - length (heap (tone s))) with (offsetA k) by lia.
    repeat split; try done.
    rewrite Forall_forall in Hp. apply Hp. by eapply list_elem_of_lookup_2. }
  split; [exact Hold|]. split.
  - intros k. destruct (Hnew k) as (nd & Hnd & Hkind & _).
    assert (Hi : fixedPart <$> heap (tone s') !! (offsetA k + length (heap (tone s)))
                 = Some (fixedPart nd)).
    { rewrite <- list_lookup_fmap. change (fmap fixedPart ?l) with (map fixedPart l).
      rewrite Hid. change (map fixedPart ?l) with (fmap fixedPart l).
      by rewrite list_lookup_fmap, Hnd. }
    destruct (heap (tone s') !! _) as [nd'|]; [|done]. cbn in *.
    injection Hi as Hi _ _. by rewrite Hi, Hkind.
  - intros i. split.
    + intros Hl. destruct (decide (i < length (heap (tone s)))) as [Hi|Hi].
      * by rewrite (Hold i Hi) in Hl.
      * rewrite Hlive in Hl. unfold live in Hl. cbn in Hl.
        destruct ((cleaned s ++ L) !! i) as [nd|] eqn:E; [|done].
        apply lookup_lt_Some in E. rewrite length_app, Hlen, HLlen in E.
        destruct (offsetA_position (i - length (heap (tone s)))) as (k & _ & Hk'); [lia|].
        exists k. lia.
    + intros [k ->]. rewrite Hlive. unfold live. cbn.
      destruct (Hnew k) as (nd & -> & _ & ->). done.
Qed.

(** C2: a rebuild disposes first: after [cleanup] no node is live and none
    has been constructed; the rest of the rebuild then constructs one node
    per kind, and after it the live nodes are exactly these twelve, one of
    each class, and no earlier node is live. *)
Theorem rebuild_disposes_before_constructing (s : state) :
  tidy s = true ->
  exists s1 s' (node : kind -> id),
    Rebuild.cleanup s = Some (tt, s1) /\
    (forall i, live (tone s1) i = false) /\
    length (heap (tone s1)) = length (heap (tone s)) /\
    (Rebuild.createNodes;; Rebuild.connectChain) s1 = Some (tt, s') /\
    Rebuild.initializeAudioChain s = Some (tt, s') /\
    (forall k, reg s' k = Some (node k)) /\
    (forall k k', node k = node k' -> k = k') /\
    (forall k, kindOf <$> heap (tone s') !! node k = Some k) /\
    (forall i, live (tone s') i = true <-> exists k, i = node k) /\
    (forall i, i < length (heap (tone s)) -> live (tone s') i = false).
Proof.
  intros Ht.
  destruct (ok_elim _ _ _ (initializeAudioChain_run s)) as ([] & s' & Hrun & Hreb).
  destruct (rebuilt_lifetimes s s' Ht Hreb) as (Hold & Hkind & Hlive).
  exists (with_tone (sweep Tone.dispose (reg s) all12) s), s',
         (fun k => offsetA k + length (heap (tone s))).
  split; [apply cleanup_run|].
  split; [intros i; cbn [tone with_tone]; apply (cleaned_dead s i Ht)|].
  split; [cbn [tone with_tone]; apply sweep_dispose_length|].
  split.
  { rewrite <- Hrun. unfold Rebuild.initializeAudioChain. symmetry.
    exact (bind_run' Rebuild.cleanup (fun _ => Rebuild.createNodes;; Rebuild.connectChain)
             s tt _ (cleanup_run s)). }
  split; [exact Hrun|].
  split; [apply Hreb|].
  split; [intros k k'; apply offsetA_inj|].
  split; [exact Hkind|]. split; [exact Hlive|exact Hold].
Qed.

Lemma rebuild_disposes_before_constructing_witness :
  tidy rebuildDemo = true /\
  exists s1 s' (node : kind -> id),
    Rebuild.cleanup rebuildDemo = Some (tt, s1) /\
    (forall i, live (tone s1) i = false) /\
    length (heap (tone s1)) = length (heap (tone rebuildDemo)) /\
    (Rebuild.createNodes;; Rebuild.connectChain) s1 = Some (tt, s') /\
    Rebuild.initializeAudioChain rebuildDemo = Some (tt, s') /\
    (forall k, reg s' k = Some (node k)) /\
    (forall k k', node k = node k' -> k = k') /\
    (forall k, kindOf <$> heap (tone s') !! node k = Some k) /\
    (forall i, live (tone s') i = true <-> exists k, i = node k) /\
    (forall i, i < length (heap (tone rebuildDemo)) -> live (tone s') i = false).
Proof.
  assert (H : tidy rebuildDemo = true) by (vm_compute; reflexivity).
  exact (conj H (rebuild_disposes_before_constructing rebuildDemo H)).
Defined.

(** ** Wet values across a toggle *)

Lemma ok_ret {A} (a : A) s (Q : A -> state -> Prop) : Q a s -> ok (mret a) s Q.
Proof. done. Qed.

Lemma ok_weaken {A} (m : M A) s (Q Q' : A -> state -> Prop) :
  ok m s Q -> (forall a s', Q a s' -> Q' a s') -> ok m s Q'.
Proof. unfold ok. destruct (m s) as [[a s']|]; [|done]. intros H HQ. by apply HQ. Qed.

Lemma wets_snoc s l e h : wets s (l ++ [e]) h = wetHeap s e (wets s l h).
Proof. unfold wets. by rewrite foldl_app. Qed.

Lemma wets_length s l h : length (wets s l h) = length h.
Proof.
  rewrite <- (length_map fixedPart (wets s l h)), wets_fixedPart. apply length_map.
Qed.

Lemma wetHeap_param_other s (e : effect) h x :
  reg s e <> Some x ->
  param (mkWorld (wetHeap s e h) []) x wet = param (mkWorld h []) x wet.
Proof.
  intros Hne. unfold wetHeap, wetWrite.
  destruct (enabled s e), (reg s e) as [y|], (wetRef e); try done.
  unfold param. cbn. rewrite list_lookup_alter_ne; [done|]. by intros ->.
Qed.

Lemma wetHeap_param s (e : effect) q h x :
  wetRef e = Some q -> enabled s e = true -> reg s e = Some x -> x < length h ->
  param (mkWorld (wetHeap s e h) []) x wet = Some (Num (num s q)).
Proof.
  intros Hq He Hx Hlt. unfold wetHeap, wetWrite. rewrite He, Hx, Hq.
  by apply setParam_param_eq.
Qed.

Lemma wets_param s l h (e : effect) q x :
  wetRef e = Some q -> enabled s e = true -> reg s e = Some x -> x < length h ->
  (forall e' : effect, reg s e' = Some x -> e' = e) ->
  e ∈ l ->
  param (mkWorld (wets s l h) []) x wet = Some (Num (num s q)).
Proof.
  intros Hq He Hx Hlt Hinj. induction l as [|e' l IH] using rev_ind.
  - by intros ?%elem_of_nil.
  - intros Hin. rewrite wets_snoc. destruct (decide (e' = e)) as [->|Hne].
    + apply (wetHeap_param s e q); try done. by rewrite wets_length.
    + rewrite wetHeap_param_other by (intros H; by apply Hne, Hinj).
      apply IH. apply elem_of_app in Hin as [Hin|Hin]; [done|].
      apply list_elem_of_singleton in Hin. congruence.
Qed.

Lemma canonical_complete (e : effect) : e ∈ canonical.
Proof. destruct e; unfold canonical; set_solver. Qed.

(** A rebuild leaves the wet value of every enabled wet effect at the
    current value of its ref. *)
Lemma rebuilt_wet s s' (e : effect) q :
  rebuilt s s' -> wetRef e = Some q -> enabled s e = true ->
  exists x, reg s' e = Some x /\ param (tone s') x wet = Some (Num (num s q)).
Proof.
  intros (Hn & He & _ & _ & _ & Hr & _ & L & HL & Hk & _) Hq Hen.
  exists (offsetA e + length (heap (tone s))). split; [apply Hr|].
  assert (HLlen : length L = 12) by (by rewrite <- (length_map kindOf), Hk).
  assert (Hlen : length (cleaned s) = length (heap (tone s))) by apply sweep_dispose_length.
  change (param (tone s') ?x wet) with (param (mkWorld (heap (tone s')) []) x wet).
  rewrite HL, <- Hn. apply (wets_param s' canonical _ e q); try done.
  - by rewrite He.
  - rewrite length_app, Hlen, HLlen. destruct e; cbn; lia.
  - intros e' He'. rewrite Hr in He'.
    assert (H : KEffect e' = KEffect e)
      by (apply (offsetA_inj _ _ (length (heap (tone s)))); congruence).
    by injection H.
  - apply canonical_complete.
Qed.

Lemma Rebuild_SetNum s q v :
  ok (Rebuild.handle (Rebuild.SetNum q v)) s
     (fun _ s' => (num s' q == v)%Q /\ enabled s' = enabled s).
Proof.
  unfold Rebuild.handle.
  apply (ok_step _ _ s (num s q, s) _ eq_refl). cbn [fst snd].
  destruct (Qeq_bool (num s q) v) eqn:E.
  - apply ok_ret. split; [by apply Qeq_bool_iff|done].
  - apply (ok_step _ _ s (tt, with_num <[q := v]> s) _ eq_refl). cbn [fst snd].
    eapply ok_last; [apply (callback_run (RebuildNum q v))|]. cbn [fst snd].
    split; [|done]. cbn. unfold insert, fn_insert. by rewrite decide_True.
Qed.

Lemma Rebuild_SetEnabled s e b :
  ok (Rebuild.handle (Rebuild.SetEnabled e b)) s
     (fun _ s' => num s' = num s /\ enabled s' e = b /\
                  (enabled s e <> b -> rebuilt (with_enabled <[e := b]> s) s')).
Proof.
  unfold Rebuild.handle.
  apply (ok_step _ _ s (enabled s e, s) _ eq_refl). cbn [fst snd].
  destruct (Bool.eqb (enabled s e) b) eqn:E.
  - apply ok_ret. apply Bool.eqb_prop in E. by repeat split.
  - apply (ok_step _ _ s (tt, with_enabled <[e := b]> s) _ eq_refl). cbn [fst snd].
    eapply ok_weaken; [apply initializeAudioChain_run|].
    intros [] s' Hreb. pose proof Hreb as (Hn & He & _).
    split; [exact Hn|]. split; [|intros _; exact Hreb].
    rewrite He. cbn. unfold insert, fn_insert. by rewrite decide_True.
Qed.

Lemma wet_written (e : effect) q s : wetRef e = Some q ->
  (KEffect e, wet, Num (num s q)) ∈ writes (ReconnectProps e) s /\ Reconnect.propsOf q = Some e.
Proof. destruct e; intros [= <-]; cbn; split; (done || set_solver). Qed.

Lemma allocated_lt s k i : allocated s = true -> reg s k = Some i -> i < length (heap (tone s)).
Proof.
  intros H Hk. unfold allocated in H. rewrite forallb_forall in H.
  apply Nat.ltb_lt, H, list_elem_of_In, elem_of_handles.
  exists k. split; [apply all12_complete|done].
Qed.

Lemma Reconnect_watchProps s (e : effect) q x :
  wetRef e = Some q -> reg s e = Some x -> x < length (heap (tone s)) ->
  ok (Reconnect.watchProps e) s
     (fun _ s' => num s' = num s /\ enabled s' = enabled s /\ reg s' = reg s /\
                  length (heap (tone s')) = length (heap (tone s)) /\
                  param (tone s') x wet = Some (Num (num s q))).
Proof.
  intros Hq Hx Hlt.
  eapply ok_last; [apply (callback_run (ReconnectProps e))|]. cbn [fst snd tone with_tone].
  repeat split; try done.
  - apply perform_length.
  - eapply perform_param; eauto using writes_NoDup. by apply wet_written.
Qed.

Lemma Reconnect_SetNum s (e : effect) q v x :
  wetRef e = Some q -> reg s e = Some x -> x < length (heap (tone s)) ->
  ok (Reconnect.handle (Reconnect.SetNum q v)) s
     (fun _ s' => num s' q = v /\ enabled s' = enabled s /\ reg s' = reg s /\
                  length (heap (tone s')) = length (heap (tone s)) /\
                  param (tone s') x wet = Some (Num v)).
Proof.
  intros Hq Hx Hlt. unfold Reconnect.handle.
  apply (ok_step _ _ s (num s q, s) _ eq_refl). cbn [fst snd].
  rewrite (proj2 (wet_written e q s Hq)).
  apply (ok_step _ _ s (tt, with_num <[q := v]> s) _ eq_refl). cbn [fst snd].
  eapply ok_weaken.
  { apply (Reconnect_watchProps _ e q x Hq); [exact Hx|exact Hlt]. }
  intros [] s1 (Hn1 & He1 & Hr1 & Hl1 & Hp1). cbv beta.
  assert (Hv1 : num s1 q = v).
  { rewrite Hn1. cbn. unfold insert, fn_insert. by rewrite decide_True. }
  repeat split; try done. rewrite Hp1. cbn. unfold insert, fn_insert. by rewrite decide_True.
Qed.

Lemma Reconnect_SetEnabled s (e : effect) b q x :
  mounted s = true -> wetRef e = Some q -> reg s e = Some x -> x < length (heap (tone s)) ->
  ok (Reconnect.handle (Reconnect.SetEnabled e b)) s
     (fun _ s' => num s' = num s /\ enabled s' e = b /\ reg s' = reg s /\
                  length (heap (tone s')) = length (heap (tone s)) /\
                  param (tone s') x wet = Some (Num (num s q))).
Proof.
  intros Hm Hq Hx Hlt. unfold Reconnect.handle, Reconnect.watchEnabled.
  apply (ok_step _ _ s (tt, with_enabled <[e := b]> s) _ eq_refl). cbn [fst snd].
  destruct (mounted_node s Hm) as [node Hn].
  eapply ok_bind.
  { apply (updateAudioChain_run _ (node KSynth) (node KPanner) (node KGain) (node KMeter));
      apply Hn. }
  intros [] s1 (Hn1 & He1 & _ & _ & _ & Hr1 & Hh1 & _). cbv beta.
  eapply ok_weaken.
  { apply (Reconnect_watchProps s1 e q x Hq); [by rewrite Hr1|by rewrite Hh1]. }
  intros [] s2 (Hn2 & He2 & Hr2 & Hl2 & Hp2). cbv beta.
  repeat split.
  - by rewrite Hn2, Hn1.
  - rewrite He2, He1. cbn. unfold insert, fn_insert. by rewrite decide_True.
  - by rewrite Hr2, Hr1.
  - by rewrite Hl2, Hh1.
  - by rewrite Hp2, Hn1.
Qed.

Lemma updateAudioChain_unchanged s :
  mounted s = true ->
  ok Reconnect.updateAudioChain s
     (fun _ s' => reg s' = reg s /\ heap (tone s') = heap (tone s) /\ enabled s' = enabled s).
Proof.
  intros Hm. destruct (mounted_node s Hm) as [node Hn].
  eapply ok_weaken.
  { apply (updateAudioChain_run _ (node KSynth) (node KPanner) (node KGain) (node KMeter));
      apply Hn. }
  intros [] s' (_ & He & _ & _ & _ & Hr & Hh & _). done.
Qed.

(** C4 as worded fails for the reconnecting component: [updateAudioChain]
    connects the reverb, which enters the chain, and leaves its mix at the
    0.3 written at mount although the current setting is 0.9; it applies no
    mix at connection time. *)
Lemma updateAudioChain_applies_no_wet :
  exists s' x,
    Reconnect.updateAudioChain reconnectPending = Some (tt, s') /\
    enabled s' EReverb = true /\ reg s' EReverb = Some x /\
    connected (tone s') x = true /\
    num s' reverbWet = 0.9%Q /\
    param (tone s') x wet = Some (Num 0.3) /\ ~ (0.3 == 0.9)%Q.
Proof.
  pose (s' := match Reconnect.updateAudioChain reconnectPending with
              | Some (_, s) => s
              | None => reconnectPending
              end).
  exists s', 10.
  split; [vm_compute; reflexivity|]. split; [vm_compute; reflexivity|].
  split; [vm_compute; reflexivity|]. split; [vm_compute; reflexivity|].
  split; [vm_compute; reflexivity|]. split; [vm_compute; reflexivity|].
  vm_compute. intros H. discriminate H.
Qed.

(** C4 (amended): setting the wet value of the delay, chorus, phaser or
    reverb, switching the effect off and switching it on again leaves the
    node of the effect with that wet value, in both components.  In the
    rebuilding component every rebuild writes the current wet value to the
    new node of each enabled effect that has one.  In the reconnecting
    component [updateAudioChain] writes no parameter at all: it leaves every
    node as it was, so the value survives the two rewirings because the node
    is kept, the watcher of the effect's settings having written it when it
    was set. *)
Theorem wet_survives_toggle (sA sB : state) (e : effect) (q : numref) (v : Q) :
  wetRef e = Some q -> mounted sB = true -> allocated sB = true ->
  (exists s' x w,
     Rebuild.run [Rebuild.SetNum q v; Rebuild.SetEnabled e false; Rebuild.SetEnabled e true] sA
       = Some (tt, s') /\
     enabled s' e = true /\ reg s' e = Some x /\
     param (tone s') x wet = Some (Num w) /\ (w == v)%Q) /\
  (exists s' x,
     Reconnect.run [Reconnect.SetNum q v; Reconnect.SetEnabled e false;
                    Reconnect.SetEnabled e true] sB
       = Some (tt, s') /\
     enabled s' e = true /\ reg s' e = Some x /\
     param (tone s') x wet = Some (Num v)) /\
  (forall s, enabled s e = true ->
     exists s' x, Rebuild.initializeAudioChain s = Some (tt, s') /\ reg s' e = Some x /\
                  param (tone s') x wet = Some (Num (num s q))) /\
  (exists s', Reconnect.updateAudioChain sB = Some (tt, s') /\
              reg s' = reg sB /\ heap (tone s') = heap (tone sB) /\
              forall x p, param (tone s') x p = param (tone sB) x p) /\
  (exists s1 s2 s3 x,
     Reconnect.handle (Reconnect.SetNum q v) sB = Some (tt, s1) /\
     Reconnect.updateAudioChain (with_enabled <[e := false]> s1) = Some (tt, s2) /\
     Reconnect.updateAudioChain (with_enabled <[e := true]> s2) = Some (tt, s3) /\
     enabled s3 e = true /\ reg s3 e = Some x /\ reg sB e = Some x /\
     param (tone s3) x wet = Some (Num v)).
Proof.
  intros Hq Hm Ha. split; [|split; [|split; [|split]]].
  - assert (H : ok (Rebuild.run [Rebuild.SetNum q v; Rebuild.SetEnabled e false;
                                 Rebuild.SetEnabled e true]) sA
                  (fun _ s' => enabled s' e = true /\
                     exists x w, reg s' e = Some x /\ param (tone s') x wet = Some (Num w) /\
                                 (w == v)%Q)).
    { cbn [Rebuild.run].
      eapply ok_bind; [apply Rebuild_SetNum|]. intros [] s1 (Hv1 & _). cbv beta.
      eapply ok_bind; [apply Rebuild_SetEnabled|]. intros [] s2 (Hn2 & He2 & _). cbv beta.
      eapply ok_bind; [apply Rebuild_SetEnabled|]. intros [] s3 (Hn3 & He3 & Hreb). cbv beta.
      apply ok_ret. split; [done|].
      destruct (rebuilt_wet _ s3 e q (Hreb ltac:(by rewrite He2)) Hq) as (x & Hx & Hp).
      { cbn. unfold insert, fn_insert. by rewrite decide_True. }
      exists x, (num s2 q). repeat split; try done. by rewrite Hn2. }
    apply ok_elim in H as ([] & s' & Hrun & He & x & w & Hx & Hp & Hw).
    exists s', x, w. by repeat split.
  - destruct (mounted_node sB Hm) as [node Hn].
    pose proof (allocated_lt sB e (node e) Ha (Hn e)) as Hlt.
    assert (H : ok (Reconnect.run [Reconnect.SetNum q v; Reconnect.SetEnabled e false;
                                   Reconnect.SetEnabled e true]) sB
                  (fun _ s' => enabled s' e = true /\ reg s' e = Some (node e) /\
                               param (tone s') (node e) wet = Some (Num v))).
    { cbn [Reconnect.run].
      eapply ok_bind.
      { apply (Reconnect_SetNum sB e q v (node e) Hq); [apply Hn|exact Hlt]. }
      intros [] s1 (Hv1 & He1 & Hr1 & Hl1 & _). cbv beta.
      eapply ok_bind.
      { apply (Reconnect_SetEnabled s1 e false q (node e)); try done.
        - unfold mounted. by rewrite Hr1.
        - by rewrite Hr1.
        - by rewrite Hl1. }
      intros [] s2 (Hn2 & He2 & Hr2 & Hl2 & _). cbv beta.
      eapply ok_bind.
      { apply (Reconnect_SetEnabled s2 e true q (node e)); try done.
        - unfold mounted. by rewrite Hr2, Hr1.
        - by rewrite Hr2, Hr1.
        - by rewrite Hl2, Hl1. }
      intros [] s3 (Hn3 & He3 & Hr3 & Hl3 & Hp3). cbv beta.
      apply ok_ret. repeat split; try done.
      + by rewrite Hr3, Hr2, Hr1.
      + by rewrite Hp3, Hn2, Hv1. }
    apply ok_elim in H as ([] & s' & Hrun & He & Hx & Hp).
    exists s', (node e). by repeat split.
  - intros s Hen.
    destruct (ok_elim _ _ _ (initializeAudioChain_run s)) as ([] & s' & Hrun & Hreb).
    destruct (rebuilt_wet s s' e q Hreb Hq Hen) as (x & Hx & Hp).
    exists s', x. by repeat split.
  - destruct (ok_elim _ _ _ (updateAudioChain_unchanged sB Hm)) as ([] & s' & Hrun & Hr & Hh & _).
    exists s'. split; [exact Hrun|]. split; [exact Hr|]. split; [exact Hh|].
    intros x p. unfold param. by rewrite Hh.
  - destruct (mounted_node sB Hm) as [node Hn].
    pose proof (allocated_lt sB e (node e) Ha (Hn e)) as Hlt.
    destruct (ok_elim _ _ _ (Reconnect_SetNum sB e q v (node e) Hq (Hn e) Hlt))
      as ([] & s1 & Hrun1 & _ & _ & Hr1 & _ & Hp1).
    assert (Hm1 : mounted (with_enabled <[e := false]> s1) = true).
    { unfold mounted. cbn [reg with_enabled]. rewrite Hr1. exact Hm. }
    destruct (ok_elim _ _ _ (updateAudioChain_unchanged _ Hm1))
      as ([] & s2 & Hrun2 & Hr2 & Hh2 & He2).
    cbn [reg tone enabled with_enabled] in Hr2, Hh2, He2.
    assert (Hm2 : mounted (with_enabled <[e := true]> s2) = true).
    { unfold mounted. cbn [reg with_enabled]. rewrite Hr2, Hr1. exact Hm. }
    destruct (ok_elim _ _ _ (updateAudioChain_unchanged _ Hm2))
      as ([] & s3 & Hrun3 & Hr3 & Hh3 & He3).
    cbn [reg tone enabled with_enabled] in Hr3, Hh3, He3.
    exists s1, s2, s3, (node e).
    split; [exact Hrun1|]. split; [exact Hrun2|]. split; [exact Hrun3|].
    split; [rewrite He3; unfold insert, fn_insert; by rewrite decide_True|].
    split; [by rewrite Hr3, Hr2, Hr1|]. split; [apply Hn|].
    unfold param in *. by rewrite Hh3, Hh2.
Qed.

Lemma wet_survives_toggle_witness :
  wetRef EReverb = Some reverbWet /\ mounted reconnectDemo = true /\
  allocated reconnectDemo = true /\
  (exists s' x w,
     Rebuild.run [Rebuild.SetNum reverbWet 0.9; Rebuild.SetEnabled EReverb false;
                  Rebuild.SetEnabled EReverb true] rebuildDemo = Some (tt, s') /\
     enabled s' EReverb = true /\ reg s' EReverb = Some x /\
     param (tone s') x wet = Some (Num w) /\ (w == 0.9)%Q) /\
  (exists s' x,
     Reconnect.run [Reconnect.SetNum reverbWet 0.9; Reconnect.SetEnabled EReverb false;
                    Reconnect.SetEnabled EReverb true] reconnectDemo = Some (tt, s') /\
     enabled s' EReverb = true /\ reg s' EReverb = Some x /\
     param (tone s') x wet = Some (Num 0.9)).
Proof.
  assert (H1 : wetRef EReverb = Some reverbWet) by reflexivity.
  assert (H2 : mounted reconnectDemo = true) by (vm_compute; reflexivity).
  assert (H3 : allocated reconnectDemo = true) by (vm_compute; reflexivity).
  destruct (wet_survives_toggle rebuildDemo reconnectDemo EReverb reverbWet 0.9 H1 H2 H3)
    as (HA & HB & _).
  exact (conj H1 (conj H2 (conj H3 (conj HA HB)))).
Defined.

(** ** Node reuse in the reconnecting component *)

Lemma sameNodes_trans s1 s2 s3 : sameNodes s1 s2 -> sameNodes s2 s3 -> sameNodes s1 s3.
Proof. intros [H1 H2] [H3 H4]. split; congruence. Qed.

Lemma mounted_reg s s' : reg s' = reg s -> mounted s = true -> mounted s' = true.
Proof. intros H. unfold mounted. by rewrite H. Qed.

Lemma callback_sameNodes u s : ok (callback u) s (fun _ s' => sameNodes s s').
Proof.
  eapply ok_last; [apply callback_run|]. cbn [fst snd]. split; [done|].
  cbn [tone with_tone]. apply perform_fixedPart.
Qed.

Lemma updateAudioChain_sameNodes s :
  mounted s = true ->
  ok Reconnect.updateAudioChain s
     (fun _ s' => reg s' = reg s /\ heap (tone s') = heap (tone s) /\ rewiredTo s s').
Proof.
  intros Hm. destruct (mounted_node s Hm) as [node Hn].
  eapply ok_weaken.
  { apply (updateAudioChain_run _ (node KSynth) (node KPanner) (node KGain) (node KMeter));
      apply Hn. }
  intros [] s' Hre. pose proof Hre as (_ & _ & _ & _ & _ & Hr & Hh & _). done.
Qed.

Lemma Reconnect_handle_sameNodes ev s :
  mounted s = true -> ok (Reconnect.handle ev) s (fun _ s' => sameNodes s s').
Proof.
  intros Hm. destruct ev as [r v|t|e b]; unfold Reconnect.handle.
  - apply (ok_step _ _ s (num s r, s) _ eq_refl). cbn [fst snd].
    destruct (Reconnect.propsOf r) as [e|] eqn:Hp.
    + apply (ok_step _ _ s (tt, with_num <[r := v]> s) _ eq_refl). cbn [fst snd].
      apply (callback_sameNodes (ReconnectProps e) (with_num <[r := v]> s)).
    + destruct (Qeq_bool (num s r) v); [by apply ok_ret|].
      apply (ok_step _ _ s (tt, with_num <[r := v]> s) _ eq_refl). cbn [fst snd].
      destruct r; try (by apply ok_ret).
      * apply (callback_sameNodes (ReconnectGain v) (with_num <[gainValue := v]> s)).
      * apply (callback_sameNodes (ReconnectPan v) (with_num <[panValue := v]> s)).
  - eapply ok_step; [reflexivity|]. cbn [fst snd].
    match goal with
    | |- ok _ ?s1 _ => apply (callback_sameNodes (ReconnectProps EFilter) s1)
    end.
  - apply (ok_step _ _ s (tt, with_enabled <[e := b]> s) _ eq_refl). cbn [fst snd].
    eapply ok_bind; [by apply updateAudioChain_sameNodes|].
    intros [] s1 (Hr1 & Hh1 & _). cbv beta.
    eapply ok_weaken; [apply (callback_sameNodes (ReconnectProps e))|].
    intros [] s2 [Hr2 Hh2]. cbv beta. split; [by rewrite Hr2, Hr1|by rewrite Hh2, Hh1].
Qed.

Lemma Reconnect_run_sameNodes evs s :
  mounted s = true -> ok (Reconnect.run evs) s (fun _ s' => sameNodes s s').
Proof.
  revert s. induction evs as [|ev evs IH]; intros s Hm; cbn [Reconnect.run].
  - by apply ok_ret.
  - eapply ok_bind; [by apply Reconnect_handle_sameNodes|].
    intros [] s1 Hs1. cbv beta.
    eapply ok_weaken; [apply IH; apply (mounted_reg s s1 (proj1 Hs1) Hm)|].
    intros [] s2 Hs2. by apply (sameNodes_trans s s1 s2).
Qed.

(** C10: in the reconnecting component [updateAudioChain] leaves the nodes
    and the node variables exactly as they were: it constructs and disposes
    nothing and sets no parameter; and over any sequence of toggles and
    parameter changes the same nodes stay in the same variables, none of
    them disposed. *)
Theorem toggles_reuse_nodes (s : state) (evs : list Reconnect.event) :
  mounted s = true ->
  (exists s', Reconnect.updateAudioChain s = Some (tt, s') /\
              reg s' = reg s /\ heap (tone s') = heap (tone s)) /\
  (exists s', Reconnect.run evs s = Some (tt, s') /\
              reg s' = reg s /\
              map fixedPart (heap (tone s')) = map fixedPart (heap (tone s))).
Proof.
  intros Hm. split.
  - destruct (ok_elim _ _ _ (updateAudioChain_sameNodes s Hm)) as ([] & s' & H & Hr & Hh & _).
    by exists s'.
  - destruct (ok_elim _ _ _ (Reconnect_run_sameNodes evs s Hm)) as ([] & s' & H & Hr & Hh).
    by exists s'.
Qed.

Lemma toggles_reuse_nodes_witness :
  let evs := [Reconnect.SetEnabled EDelay true; Reconnect.SetNum delayWet 0.8;
              Reconnect.SetEnabled EFilter false; Reconnect.SetEnabled EDelay false] in
  mounted reconnectDemo = true /\
  (exists s', Reconnect.updateAudioChain reconnectDemo = Some (tt, s') /\
              reg s' = reg reconnectDemo /\ heap (tone s') = heap (tone reconnectDemo)) /\
  (exists s', Reconnect.run evs reconnectDemo = Some (tt, s') /\
              reg s' = reg reconnectDemo /\
              map fixedPart (heap (tone s')) = map fixedPart (heap (tone reconnectDemo))).
Proof.
  intros evs.
  assert (H : mounted reconnectDemo = true) by (vm_compute; reflexivity).
  exact (conj H (toggles_reuse_nodes reconnectDemo evs H)).
Defined.

(** ** The invariants of a session *)

Lemma forallb_eq {X} (f g : X -> bool) l :
  (forall x, f x = g x) -> forallb f l = forallb g l.
Proof. intros H. induction l as [|x l IH]; cbn; [done|]. by rewrite H, IH. Qed.

Lemma owned_ext l s s' :
  reg s' = reg s -> edges (tone s') = edges (tone s) -> owned l s' = owned l s.
Proof. intros Hr He. unfold owned. by rewrite Hr, He. Qed.

Lemma tidy_ext s s' :
  reg s' = reg s -> map fixedPart (heap (tone s')) = map fixedPart (heap (tone s)) ->
  tidy s' = tidy s.
Proof.
  intros Hr Hh. unfold tidy. rewrite Hr.
  assert (length (heap (tone s')) = length (heap (tone s))) as ->
    by (rewrite <- (length_map fixedPart), Hh; apply length_map).
  apply forallb_eq. intros i. by rewrite (live_fixedPart _ _ i Hh).
Qed.

Lemma expected_owned (node : kind -> id) en r l :
  (forall k, k ∈ pathKinds en -> node k ∈ handles r l) ->
  forallb (leaves (handles r l)) (expectedEdges node en) = true.
Proof.
  intros H. apply forallb_forall. intros [a b] Hin%list_elem_of_In.
  unfold leaves. apply bool_decide_eq_true_2. cbn.
  unfold expectedEdges in Hin. rewrite elem_of_app, !elem_of_cons, elem_of_nil in Hin.
  assert (Hg : node KGain ∈ handles r l).
  { apply H. unfold pathKinds. rewrite elem_of_cons, elem_of_app, !elem_of_cons. tauto. }
  destruct Hin as [Hin|[[= -> ->]|[[= -> ->]|[]]]]; try done.
  apply series_endpoints in Hin as [Ha _].
  apply list_elem_of_fmap in Ha as (k & -> & Hk). by apply H.
Qed.

Lemma pathKinds_rewired en k : k ∈ pathKinds en -> k ∈ rewired.
Proof.
  unfold pathKinds, rewired. rewrite !elem_of_cons, !elem_of_app, !elem_of_cons, !elem_of_nil.
  intros [?|[Hk|?]]; [tauto| |tauto]. right. left.
  apply list_elem_of_fmap in Hk as (e & -> & _). apply list_elem_of_fmap.
  exists e. split; [done|apply canonical_complete].
Qed.

Lemma rebuilt_owned s s' : owned all12 s = true -> rebuilt s s' -> owned all12 s' = true.
Proof.
  intros Ho (_ & He & _ & _ & _ & Hr & Hed & _). unfold owned.
  rewrite Hed, filter_owned by exact Ho. cbn [app].
  rewrite (wiring_explicit s' _ Hr). apply expected_owned.
  intros k _. apply elem_of_handles. exists k. split; [apply all12_complete|apply Hr].
Qed.

Lemma rebuilt_tidy s s' : tidy s = true -> rebuilt s s' -> tidy s' = true.
Proof.
  intros Ht Hreb. destruct (rebuilt_lifetimes s s' Ht Hreb) as (_ & _ & Hlive).
  destruct Hreb as (_ & _ & _ & _ & _ & Hr & _).
  unfold tidy. apply forallb_forall. intros i _.
  destruct (live (tone s') i) eqn:Hl; [|done]. cbn [implb].
  apply bool_decide_eq_true_2. apply Hlive in Hl as [k ->].
  apply elem_of_handles. exists k. split; [apply all12_complete|apply Hr].
Qed.

Lemma callback_inv u s :
  ok (callback u) s (fun _ s' => owned all12 s' = owned all12 s /\ tidy s' = tidy s).
Proof.
  eapply ok_last; [apply callback_run|]. cbn [fst snd]. split.
  - apply owned_ext; [done|]. cbn [tone with_tone]. apply perform_edges.
  - apply tidy_ext; [done|]. cbn [tone with_tone]. apply perform_fixedPart.
Qed.

Lemma Rebuild_handle_inv ev s :
  owned all12 s = true -> tidy s = true ->
  ok (Rebuild.handle ev) s (fun _ s' => owned all12 s' = true /\ tidy s' = true).
Proof.
  intros Ho Ht. destruct ev as [r v|t|t|e b]; unfold Rebuild.handle.
  - apply (ok_step _ _ s (num s r, s) _ eq_refl). cbn [fst snd].
    destruct (Qeq_bool (num s r) v); [by apply ok_ret|].
    apply (ok_step _ _ s (tt, with_num <[r := v]> s) _ eq_refl). cbn [fst snd].
    eapply ok_weaken; [apply (callback_inv (RebuildNum r v))|].
    intros [] s' [-> ->]. done.
  - apply (ok_step _ _ s (filterType s, s) _ eq_refl). cbn [fst snd].
    destruct (String.eqb (filterType s) t); [by apply ok_ret|].
    eapply ok_step; [reflexivity|]. cbn [fst snd].
    eapply ok_weaken; [apply (callback_inv (RebuildFilterType t))|].
    intros [] s' [-> ->]. done.
  - apply (ok_step _ _ s (oscillatorType s, s) _ eq_refl). cbn [fst snd].
    destruct (String.eqb (oscillatorType s) t); [by apply ok_ret|].
    eapply ok_step; [reflexivity|]. cbn [fst snd].
    eapply ok_weaken; [apply (callback_inv (RebuildOscillatorType t))|].
    intros [] s' [-> ->]. done.
  - apply (ok_step _ _ s (enabled s e, s) _ eq_refl). cbn [fst snd].
    destruct (Bool.eqb (enabled s e) b); [by apply ok_ret|].
    apply (ok_step _ _ s (tt, with_enabled <[e := b]> s) _ eq_refl). cbn [fst snd].
    eapply ok_weaken; [apply initializeAudioChain_run|].
    intros [] s' Hreb. split.
    + exact (rebuilt_owned (with_enabled <[e := b]> s) s' Ho Hreb).
    + exact (rebuilt_tidy (with_enabled <[e := b]> s) s' Ht Hreb).
Qed.

(** Whatever the page does after mounting the rebuilding component, every
    connection leaves a node the component holds and every live node is
    held in a variable. *)
Lemma rebuild_session evs :
  ok (Rebuild.onMounted;; Rebuild.run evs) Rebuild.init
     (fun _ s => owned all12 s = true /\ tidy s = true).
Proof.
  apply (ok_step _ _ _ (tt, rebuildMounted)); [vm_compute; reflexivity|]. cbn [fst snd].
  assert (H : owned all12 rebuildMounted = true /\ tidy rebuildMounted = true)
    by (split; vm_compute; reflexivity).
  revert H. generalize rebuildMounted. induction evs as [|ev evs IH]; intros s [Ho Ht].
  - by apply ok_ret.
  - cbn [Rebuild.run]. eapply ok_bind; [by apply Rebuild_handle_inv|].
    intros [] s1 H1. by apply IH.
Qed.

Lemma wired_ext s s' :
  reg s' = reg s -> length (heap (tone s')) = length (heap (tone s)) ->
  owned rewired s' = owned rewired s -> wired s' = wired s.
Proof.
  intros Hr Hl Ho. unfold wired, mounted, distinct, allocated. by rewrite Hr, Hl, Ho.
Qed.

Lemma callback_wired u s : ok (callback u) s (fun _ s' => wired s' = wired s).
Proof.
  eapply ok_last; [apply callback_run|]. cbn [fst snd]. apply wired_ext; [done| |].
  - cbn [tone with_tone]. apply perform_length.
  - apply owned_ext; [done|]. cbn [tone with_tone]. apply perform_edges.
Qed.

Lemma rewiredTo_wired s s' : wired s = true -> rewiredTo s s' -> wired s' = true.
Proof.
  intros Hw (_ & He & _ & _ & _ & Hr & Hh & Hed).
  rewrite <- Hw. apply wired_ext; [done|by rewrite Hh|].
  unfold wired in Hw. apply andb_prop in Hw as [[[Hm _]%andb_prop _]%andb_prop Ho].
  rewrite Ho. unfold owned at 1. rewrite Hed, filter_owned by exact Ho. cbn [app].
  destruct (mounted_node s Hm) as [node Hn].
  assert (Hn' : forall k, reg s' k = Some (node k)) by (intros k; by rewrite Hr).
  rewrite (wiring_explicit s' _ Hn'). apply expected_owned.
  intros k Hk. apply elem_of_handles. exists k. split; [by eapply pathKinds_rewired|done].
Qed.

Lemma Reconnect_handle_wired ev s :
  wired s = true -> ok (Reconnect.handle ev) s (fun _ s' => wired s' = true).
Proof.
  intros Hw. destruct ev as [r v|t|e b]; unfold Reconnect.handle.
  - apply (ok_step _ _ s (num s r, s) _ eq_refl). cbn [fst snd].
    destruct (Reconnect.propsOf r) as [e|] eqn:Hp.
    + apply (ok_step _ _ s (tt, with_num <[r := v]> s) _ eq_refl). cbn [fst snd].
      eapply ok_weaken; [apply (callback_wired (ReconnectProps e))|].
      intros [] s' ->. done.
    + destruct (Qeq_bool (num s r) v); [by apply ok_ret|].
      apply (ok_step _ _ s (tt, with_num <[r := v]> s) _ eq_refl). cbn [fst snd].
      destruct r; try (by apply ok_ret).
      * eapply ok_weaken; [apply (callback_wired (ReconnectGain v))|]. intros [] s' ->. done.
      * eapply ok_weaken; [apply (callback_wired (ReconnectPan v))|]. intros [] s' ->. done.
  - eapply ok_step; [reflexivity|]. cbn [fst snd].
    eapply ok_weaken; [apply (callback_wired (ReconnectProps EFilter))|].
    intros [] s' ->. done.
  - apply (ok_step _ _ s (tt, with_enabled <[e := b]> s) _ eq_refl). cbn [fst snd].
    assert (Hm : mounted s = true).
    { unfold wired in Hw. by apply andb_prop in Hw as [[[Hm _]%andb_prop _]%andb_prop _]. }
    eapply ok_bind; [by apply updateAudioChain_sameNodes|].
    intros [] s1 (_ & _ & Hre). cbv beta.
    eapply ok_weaken; [apply (callback_wired (ReconnectProps e))|].
    intros [] s2 ->. by apply (rewiredTo_wired (with_enabled <[e := b]> s)).
Qed.

Lemma reconnect_session evs :
  ok (Reconnect.onMounted;; Reconnect.run evs) Reconnect.init
     (fun _ s => wired s = true).
Proof.
  apply (ok_step _ _ _ (tt, reconnectMounted)); [vm_compute; reflexivity|]. cbn [fst snd].
  assert (H : wired reconnectMounted = true) by (vm_compute; reflexivity).
  revert H. generalize reconnectMounted. induction evs as [|ev evs IH]; intros s Hw.
  - by apply ok_ret.
  - cbn [Reconnect.run]. eapply ok_bind; [by apply Reconnect_handle_wired|].
    intros [] s1 H1. by apply IH.
Qed.





(** ** The meter level *)







(** ** The envelope editors *)

Section envelope.

Import EnvelopeEditor.

Local Open Scope Q_scope.

Lemma clamp01_range v : 0 <= clamp01 v /\ clamp01 v <= 1.
Proof.
  unfold clamp01. split.
  - apply Q.le_max_l.
  - apply Q.max_lub; [done|apply Q.le_min_l].
Qed.

Lemma floor_time v : 0.01 <= Qmax 0.01 v /\ 0 <= Qmax 0.01 v.
Proof.
  assert (H : 0.01 <= Qmax 0.01 v) by apply Q.le_max_l.
  split; [done|]. eapply Qle_trans; [|exact H]. done.
Qed.

Lemma handleMouseMove_valid (e : MouseEvent) (ed : editor) :
  valid (envelope ed) -> valid (envelope (handleMouseMove e ed)).
Proof.
  intros Hv. pose proof Hv as (Ha & Hh & Hd & Hr & Hs0 & Hs1).
  unfold handleMouseMove.
  destruct (isDragging ed), (dragPoint ed) as [point|], (svg ed) as [rect|]; try exact Hv.
  cbv zeta.
  repeat match goal with
         | |- context [if String.eqb ?a ?b then _ else _] => destruct (String.eqb a b)
         end; try exact Hv; cbn; unfold valid; cbn;
    repeat split; try done; try apply floor_time; apply clamp01_range.
Qed.

Lemma controlMouseMove_valid (event : MouseEvent) (rect : DOMRect) (c : control) :
  valid (envelope_prop c) -> valid (envelope_prop (controlMouseMove event rect c)).
Proof.
  intros Hv. pose proof Hv as (Ha & Hh & Hd & Hr & Hs0 & Hs1).
  unfold controlMouseMove.
  destruct (draggingPoint c) as [point|]; [|exact Hv]. cbv zeta.
  repeat match goal with
         | |- context [if String.eqb ?a ?b then _ else _] => destruct (String.eqb a b)
         end; try exact Hv; cbn; unfold valid; cbn;
    repeat split; try done.
  - set (v := Qmax 0 (Qmin (_ / controlHeight) 1)).
    assert (v <= 1) by (apply Q.max_lub; [done|apply Q.le_min_r]).
    unfold Qminus. rewrite <- (Qplus_opp_r v). apply Qplus_le_l. done.
  - set (v := Qmax 0 (Qmin (_ / controlHeight) 1)).
    assert (0 <= v) by apply Q.le_max_l.
    rewrite <- (Qplus_0_r 1) at 2. unfold Qminus. apply Qplus_le_r.
    apply (Qopp_le_compat 0 v). done.
Qed.

(** C9: a mouse move over either envelope editor, dragging or not, takes
    an envelope whose times are non-negative and whose sustain is a level
    within 0..1 to one that is so again; and the time a drag sets in the
    editor of the synth is at least 0.01.  The editor is taken to be
    rendered with a size, where the divisions of the handler are those of
    the rationals. *)
Theorem drag_preserves_envelope (e : MouseEvent) (rect : DOMRect) (ed : editor) (c : control) :
  rendered ed -> valid (envelope ed) -> valid (envelope_prop c) ->
  valid (envelope (handleMouseMove e ed)) /\
  valid (envelope_prop (controlMouseMove e rect c)) /\
  (isDragging ed = true -> is_Some (svg ed) ->
   (dragPoint ed = Some "attack"%string -> 0.01 <= attack (envelope (handleMouseMove e ed))) /\
   (dragPoint ed = Some "hold"%string -> 0.01 <= hold (envelope (handleMouseMove e ed))) /\
   (dragPoint ed = Some "decay"%string -> 0.01 <= decay (envelope (handleMouseMove e ed))) /\
   (dragPoint ed = Some "sustain"%string -> 0.01 <= decay (envelope (handleMouseMove e ed)))).
Proof.
  intros _ Hv Hc.
  split; [by apply handleMouseMove_valid|]. split; [by apply controlMouseMove_valid|].
  intros Hd [r Hr]. unfold handleMouseMove. rewrite Hd, Hr.
  repeat split; intros ->; cbn; apply floor_time.
Qed.

Lemma drag_preserves_envelope_witness :
  let ed := mkEditor true (Some "sustain"%string) (Some (mkRect 10 20 400 300)) 400 300
                     (mkEnvelope 0.1 0.1 0.1 0.7 0.5) in
  let c := mkControl (Some "sustain"%string) (mkEnvelope 0.1 0.1 0.1 0.7 0.5) in
  let e := mkMouseEvent 500 (-40) in
  rendered ed /\ valid (envelope ed) /\ valid (envelope_prop c) /\
  valid (envelope (handleMouseMove e ed)) /\
  valid (envelope_prop (controlMouseMove e (mkRect 10 20 400 300) c)).
Proof.
  intros ed c e.
  assert (H1 : rendered ed) by (by vm_compute).
  assert (H2 : valid (envelope ed)) by (by vm_compute).
  assert (H3 : valid (envelope_prop c)) by (by vm_compute).
  pose proof (drag_preserves_envelope e (mkRect 10 20 400 300) ed c H1 H2 H3) as (H4 & H5 & _).
  exact (conj H1 (conj H2 (conj H3 (conj H4 H5)))).
Defined.

End envelope.

(** ** The envelope display *)

Section display.
Import EnvelopeDisplay.
Local Open Scope Q_scope.

Lemma totalTime_ge_1 ed :
  EnvelopeEditor.valid (EnvelopeEditor.envelope ed) -> 1 <= totalTime ed.
Proof.
  intros (Ha & Hh & Hd & Hr & _). unfold totalTime. cbv zeta.
  set (a := attack _) in *. set (h := hold _) in *. set (d := decay _) in *.
  set (r := release _) in *.
  apply Qle_trans with (0 + 0 + 0 + 1 + 0); [done|].
  repeat apply Qplus_le_compat; done || apply Qle_refl.
Qed.

Lemma scaled_mono (a b t w : Q) :
  0 < t -> 0 <= w -> a <= b -> a / t * w <= b / t * w.
Proof.
  intros Ht Hw Hab. apply Qmult_le_compat_r; [|done].
  unfold Qdiv. apply Qmult_le_compat_r; [done|].
  apply Qlt_le_weak, Qinv_lt_0_compat, Ht.
Qed.

Lemma scaled_zero (t w : Q) : 0 / t * w == 0.
Proof. unfold Qdiv. ring. Qed.

Lemma scaled_one (t w : Q) : 0 < t -> t / t * w == w.
Proof. intros Ht. field. intros H. rewrite H in Ht. by apply Qlt_irrefl in Ht. Qed.

(** The four handles of the envelope display lie within the view box, from
    left to right in the order attack, hold, decay, sustain; the decay and
    sustain handles are at the same height. *)
Theorem envelope_points_ordered (ed : EnvelopeEditor.editor) :
  EnvelopeEditor.valid (EnvelopeEditor.envelope ed) ->
  0 <= EnvelopeEditor.svgWidth ed -> 0 <= EnvelopeEditor.svgHeight ed ->
  1 <= totalTime ed /\
  0 <= x (attackPoint ed) /\ x (attackPoint ed) <= x (holdPoint ed) /\
  x (holdPoint ed) <= x (decayPoint ed) /\ x (decayPoint ed) <= x (sustainPoint ed) /\
  x (sustainPoint ed) <= EnvelopeEditor.svgWidth ed /\
  y (attackPoint ed) = 0 /\ y (holdPoint ed) = 0 /\
  0 <= y (decayPoint ed) /\ y (decayPoint ed) <= EnvelopeEditor.svgHeight ed /\
  y (sustainPoint ed) = y (decayPoint ed).
Proof.
  intros Hv Hw Hh. pose proof (totalTime_ge_1 ed Hv) as Ht.
  assert (Ht0 : 0 < totalTime ed) by (eapply Qlt_le_trans; [|exact Ht]; done).
  destruct Hv as (Ha & Hho & Hd & Hr & Hs0 & Hs1).
  split; [exact Ht|]. unfold attackPoint, holdPoint, decayPoint, sustainPoint. cbn [x y].
  set (a := attack _) in *. set (h := hold _) in *. set (d := decay _) in *.
  set (r := release _) in *. set (su := sustain _) in *.
  set (w := EnvelopeEditor.svgWidth ed) in *. set (ht := EnvelopeEditor.svgHeight ed) in *.
  repeat split.
  - rewrite <- (scaled_zero (totalTime ed) w). by apply scaled_mono.
  - apply scaled_mono; try done. rewrite <- (Qplus_0_r a) at 1. by apply Qplus_le_r.
  - apply scaled_mono; try done. rewrite <- (Qplus_0_r (a + h)) at 1. by apply Qplus_le_r.
  - apply scaled_mono; try done. rewrite <- (Qplus_0_r (a + h + d)) at 1. by apply Qplus_le_r.
  - rewrite <- (scaled_one (totalTime ed) w Ht0) at 2. apply scaled_mono; try done.
    unfold totalTime. cbv zeta. fold a h d r.
    rewrite <- (Qplus_0_r (a + h + d + 1)) at 1. by apply Qplus_le_r.
  - setoid_replace (ht - su * ht) with ((1 - su) * ht) using relation Qeq by ring.
    apply Qmult_le_0_compat; [|done]. unfold Qminus. rewrite <- (Qplus_opp_r su).
    by apply Qplus_le_l.
  - setoid_replace (ht - su * ht) with (ht + - (su * ht)) using relation Qeq by ring.
    apply Qle_trans with (ht + 0); [|rewrite Qplus_0_r; apply Qle_refl].
    apply Qplus_le_r. apply (Qopp_le_compat 0). by apply Qmult_le_0_compat.
Qed.

Lemma envelope_points_ordered_witness :
  let ed := EnvelopeEditor.mkEditor false None None 400 300 (mkEnvelope 0.1 0.1 0.1 0.7 0.5) in
  x (attackPoint ed) <= x (holdPoint ed) /\ x (sustainPoint ed) <= 400.
Proof.
  intros ed.
  assert (Hv : EnvelopeEditor.valid (EnvelopeEditor.envelope ed)) by (by vm_compute).
  assert (Hw : 0 <= EnvelopeEditor.svgWidth ed) by (by vm_compute).
  assert (Hh : 0 <= EnvelopeEditor.svgHeight ed) by (by vm_compute).
  destruct (envelope_points_ordered ed Hv Hw Hh) as (_ & _ & H1 & _ & _ & H2 & _).
  exact (conj H1 H2).
Defined.

(** The knob turns from -135 degrees at [min] to 135 degrees at [max], and
    further with a larger value. *)
Theorem knob_rotation_range (value value' min max : Q) :
  min < max ->
  getKnobRotation min min max == -135 /\ getKnobRotation max min max == 135 /\
  (value <= value' -> getKnobRotation value min max <= getKnobRotation value' min max) /\
  (min <= value -> value <= max ->
   -135 <= getKnobRotation value min max /\ getKnobRotation value min max <= 135).
Proof.
  intros Hlt.
  assert (Hd : 0 < max - min) by (unfold Qminus; rewrite <- (Qplus_opp_r min); by apply Qplus_lt_l).
  assert (Hne : ~ max - min == 0) by (intros H; rewrite H in Hd; by apply Qlt_irrefl in Hd).
  assert (Hmin : getKnobRotation min min max == -135) by (unfold getKnobRotation; field; done).
  assert (Hmax : getKnobRotation max min max == 135) by (unfold getKnobRotation; field; done).
  assert (Hmono : forall u v, u <= v -> getKnobRotation u min max <= getKnobRotation v min max).
  { intros u v Huv. unfold getKnobRotation, Qminus. apply Qplus_le_l.
    apply scaled_mono; try done. by apply Qplus_le_l. }
  split; [exact Hmin|]. split; [exact Hmax|]. split; [apply Hmono|].
  intros H1 H2. split.
  - rewrite <- Hmin. by apply Hmono.
  - rewrite <- Hmax. by apply Hmono.
Qed.

Lemma knob_rotation_range_witness :
  getKnobRotation 0 0 1 == -135 /\ getKnobRotation 1 0 1 == 135.
Proof.
  assert (H : 0 < 1) by done.
  destruct (knob_rotation_range 0 0 0 1 H) as (H1 & H2 & _). exact (conj H1 H2).
Defined.

End display.

(** ** The drag session *)

Section drag.
Import EnvelopeDisplay.

Lemma handleMouseMove_frame e d :
  EnvelopeEditor.isDragging (EnvelopeEditor.handleMouseMove e d) = EnvelopeEditor.isDragging d /\
  EnvelopeEditor.dragPoint (EnvelopeEditor.handleMouseMove e d) = EnvelopeEditor.dragPoint d /\
  EnvelopeEditor.svg (EnvelopeEditor.handleMouseMove e d) = EnvelopeEditor.svg d /\
  EnvelopeEditor.svgWidth (EnvelopeEditor.handleMouseMove e d) = EnvelopeEditor.svgWidth d /\
  EnvelopeEditor.svgHeight (EnvelopeEditor.handleMouseMove e d) = EnvelopeEditor.svgHeight d.
Proof.
  unfold EnvelopeEditor.handleMouseMove.
  destruct (EnvelopeEditor.isDragging d) eqn:Hd, (EnvelopeEditor.dragPoint d) as [point|] eqn:Hp,
    (EnvelopeEditor.svg d) as [rect|] eqn:Hs; try by rewrite ?Hd, ?Hp, ?Hs.
  cbv zeta.
  repeat match goal with
         | |- context [if String.eqb ?a ?b then _ else _] => destruct (String.eqb a b)
         end; by rewrite ?Hd, ?Hp, ?Hs.
Qed.

Lemma handleMouseMove_idle e d :
  EnvelopeEditor.isDragging d = false -> EnvelopeEditor.handleMouseMove e d = d.
Proof. intros Hd. unfold EnvelopeEditor.handleMouseMove. by rewrite Hd. Qed.

Lemma dispatch_session s ev : idle s \/ dragging s -> idle (dispatch s ev) \/ dragging (dispatch s ev).
Proof.
  intros [(Hd & Hp & Hl)|(Hd & (p & Hp & Hne) & Hl)]; destruct ev as [[q|]|e|]; cbn.
  - unfold handleMouseDown. destruct (String.eqb q "") eqn:E; [by left|].
    right. apply String.eqb_neq in E. repeat split; cbn; [by exists q|]. rewrite Hl. set_solver.
  - by left.
  - rewrite Hl. rewrite decide_False by set_solver. by left.
  - rewrite Hl. rewrite decide_False by set_solver. by left.
  - unfold handleMouseDown. destruct (String.eqb q "") eqn:E; [right; repeat split; eauto|].
    right. apply String.eqb_neq in E. repeat split; cbn; [by exists q|]. rewrite Hl. set_solver.
  - right. repeat split; eauto.
  - rewrite Hl. rewrite decide_True by set_solver.
    destruct (handleMouseMove_frame e (ed s)) as (H1 & H2 & _).
    right. unfold handleMouseMove. repeat split; cbn; [by rewrite H1|exists p; by rewrite H2|done].
  - rewrite Hl. rewrite decide_True by set_solver. left. unfold handleMouseUp.
    repeat split; cbn. rewrite Hl. set_solver.
Qed.

Lemma session_states svg w h env evs :
  let s := foldl dispatch (start svg w h env) evs in idle s \/ dragging s.
Proof.
  induction evs as [|ev evs IH] using rev_ind; cbn.
  - left. by repeat split.
  - rewrite foldl_app. cbn. by apply dispatch_session.
Qed.

(** From set-up on, whatever mouse events arrive, the editor is either idle,
    with no document listener, or dragging a named handle with both
    listeners registered; while idle a mouse move, a mouse up, and a mouse
    down that is not on a handle change nothing; a mouse up ends a drag and
    leaves the envelope as it is. *)
Theorem drag_session svg w h env (evs : list domEvent) :
  let s := foldl dispatch (start svg w h env) evs in
  (idle s \/ dragging s) /\
  (idle s -> forall e, dispatch s (MouseMove e) = s /\ dispatch s MouseUp = s /\
                       dispatch s (MouseDown None) = s /\ dispatch s (MouseDown (Some "")) = s) /\
  (dragging s -> idle (dispatch s MouseUp) /\
                 EnvelopeEditor.envelope (ed (dispatch s MouseUp)) = EnvelopeEditor.envelope (ed s)).
Proof.
  intros s. pose proof (session_states svg w h env evs) as Hs. fold s in Hs.
  split; [exact Hs|]. split.
  - intros (Hd & Hp & Hl) e. cbn. rewrite Hl. by rewrite !decide_False by set_solver.
  - intros (Hd & Hp & Hl). cbn. rewrite Hl. rewrite decide_True by set_solver.
    split; [|done]. unfold handleMouseUp, idle. cbn. repeat split. rewrite Hl. set_solver.
Qed.

End drag.

(** ** What a rebuild constructs *)

Lemma ok_conj {A} (m : M A) s (Q1 Q2 : A -> state -> Prop) :
  ok m s Q1 -> ok m s Q2 -> ok m s (fun a s' => Q1 a s' /\ Q2 a s').
Proof. unfold ok. by destruct (m s) as [[a s']|]. Qed.

Lemma Built_refl s : Built s [] s.
Proof. repeat split. cbn. by rewrite app_nil_r. Qed.

Lemma Built_step s0 ks s k a :
  Built s0 ks s -> a = argsOf s0 k -> Built s0 (ks ++ [k]) (constructed k a s).
Proof.
  intros (Hn & Ho & Hv & Hf & Hh) ->. repeat split; try done.
  cbn. by rewrite Hh, List.map_app, <- app_assoc.
Qed.

Ltac build :=
  lazymatch goal with
  | HB : Built ?s0 _ ?s |- ok (construct ?k ?a ≫= _) ?s _ =>
      let s' := fresh "s" in
      let Hs := fresh "Hs" in
      remember (constructed k a s) as s' eqn:Hs;
      apply (ok_step _ _ s (tt, s'));
      [ rewrite Hs; apply construct_run | cbn [fst snd] ];
      apply (Built_step _ _ _ k a) in HB;
      [ rewrite <- Hs in HB; clear Hs
      | destruct HB as (Hn & Ho & Hv & Hf & _); try rewrite Hn; try rewrite Ho; try rewrite Hv; try rewrite Hf; reflexivity ]
  | HB : Built ?s0 _ ?s |- ok (construct ?k ?a) ?s _ =>
      apply (ok_last _ s (tt, constructed k a s) _ (construct_run k a s));
      apply (Built_step _ _ _ k a) in HB;
      [ | destruct HB as (Hn & Ho & Hv & Hf & _); try rewrite Hn; try rewrite Ho; try rewrite Hv; try rewrite Hf; reflexivity ]
  end.

Lemma createNodes_built s :
  ok Rebuild.createNodes s (fun _ s' => Built s all12 s').
Proof.
  pose proof (Built_refl s) as HB.
  unfold Rebuild.createNodes, synthOptions.
  repeat first [build | read].
  exact HB.
Qed.

Lemma initializeAudioChain_heap s :
  ok Rebuild.initializeAudioChain s
     (fun _ s' => rebuilt s s' /\
        heap (tone s')
        = wets s' canonical (cleaned s ++ map (fun k => pristine k (argsOf s k)) all12)).
Proof.
  apply ok_conj; [apply initializeAudioChain_run|].
  unfold Rebuild.initializeAudioChain.
  remember (with_tone (sweep Tone.dispose (reg s) all12) s) as s1 eqn:Hs1.
  apply (ok_step _ _ s (tt, s1)); [rewrite Hs1; apply cleanup_run|]. cbn [fst snd].
  eapply ok_bind; [exact (ok_conj _ _ _ _ (createNodes_run s1) (createNodes_built s1))|].
  intros [] s2 [HC HB]. cbv beta.
  destruct HC as (Hn & He & Ho & Hv & Hf & Hed & Hr & _).
  destruct HB as (_ & _ & _ & _ & Hh).
  assert (Hreg : forall k, reg s2 k = Some (offsetA k + length (heap (tone s)))).
  { intros k. rewrite Hr, assign_all12, Hs1. cbn [tone with_tone]. by rewrite sweep_dispose_length. }
  pose proof (connectChain_run s2 _ _ _ _ (Hreg KSynth) (Hreg KPanner) (Hreg KGain)
                (Hreg KMeter) (fun e => ex_intro _ _ (Hreg e))) as Hc.
  unfold ok in *. destruct (Rebuild.connectChain s2) as [[[] s3]|]; [|done].
  destruct Hc as (p & HI & Hs3). rewrite Hs3. clear Hs3 s3.
  destruct HI as (Hr' & Hn' & He' & _ & _ & _ & _ & _ & Hh').
  change (heap (tone (finish ?a ?b ?c p))) with (heap (tone p.2)).
  rewrite Hh', Hh.
  assert (map (fun k => pristine k (argsOf s1 k)) all12
          = map (fun k => pristine k (argsOf s k)) all12) as -> by (by rewrite Hs1).
  assert (heap (tone s1) = cleaned s) as -> by (by rewrite Hs1).
  apply wets_ext; [exact (eq_sym Hr')|exact (eq_sym Hn')|exact (eq_sym He')].
Qed.

Lemma param_heap w i p : param (mkWorld (heap w) []) i p = param w i p.
Proof. done. Qed.

Lemma wetHeap_param_ne s (e : effect) h x p :
  p <> wet -> param (mkWorld (wetHeap s e h) []) x p = param (mkWorld h []) x p.
Proof.
  intros Hp. unfold wetHeap, wetWrite.
  destruct (enabled s e), (reg s e) as [y|], (wetRef e) as [q|]; try done.
  rewrite param_heap. apply setParam_param_ne. congruence.
Qed.

Lemma wets_param_ne s l h x p :
  p <> wet -> param (mkWorld (wets s l h) []) x p = param (mkWorld h []) x p.
Proof.
  intros Hp. induction l as [|e l IH] using rev_ind; [done|].
  by rewrite wets_snoc, wetHeap_param_ne.
Qed.

Lemma wets_param_idle s l h x :
  (forall e : effect, e ∈ l -> enabled s e = false \/ wetRef e = None \/ reg s e <> Some x) ->
  param (mkWorld (wets s l h) []) x wet = param (mkWorld h []) x wet.
Proof.
  induction l as [|e l IH] using rev_ind; intros H; [done|].
  rewrite wets_snoc. rewrite <- IH by (intros e' He'; apply H, elem_of_app; by left).
  destruct (H e) as [Hen|[Hw|Hr]]; [apply elem_of_app; right; by apply list_elem_of_singleton|..].
  - unfold wetHeap. by rewrite Hen.
  - unfold wetHeap, wetWrite. rewrite Hw. by destruct (enabled s e), (reg s e).
  - by apply wetHeap_param_other.
Qed.

(** After a rebuild every node variable holds a node that is not disposed
    and was constructed with the arguments the code passes from the current
    settings; the only parameter written on it is the wet value of an
    enabled delay, chorus, phaser or reverb.  So a filter Q set before does
    not reach the rebuilt filter: its Q parameter is unset whatever
    [filterQ] holds. *)
Theorem rebuild_constructs_from_settings (s : state) :
  exists s', Rebuild.initializeAudioChain s = Some (tt, s') /\
    (forall k, exists x, reg s' k = Some x /\
       fixedPart <$> heap (tone s') !! x = Some (k, argsOf s k, false) /\
       forall p, param (tone s') x p = wetOf s k p) /\
    (forall x, reg s' EFilter = Some x -> param (tone s') x Q_ = None).
Proof.
  destruct (ok_elim _ _ _ (initializeAudioChain_heap s)) as ([] & s' & Hrun & Hreb & Hheap).
  exists s'. split; [exact Hrun|].
  destruct Hreb as (Hn & He & _ & _ & _ & Hr & _).
  set (n := length (heap (tone s))) in *.
  set (H0 := cleaned s ++ map (fun k => pristine k (argsOf s k)) all12) in *.
  assert (Hlen : length (cleaned s) = n) by apply sweep_dispose_length.
  assert (Hnew : forall k, H0 !! (offsetA k + n) = Some (pristine k (argsOf s k))).
  { intros k. unfold H0. rewrite lookup_app_r by lia.
    replace (offsetA k + n - length (cleaned s)) with (offsetA k) by lia.
    by rewrite list_lookup_fmap, position_offsetA. }
  assert (Hnode : forall k,
    fixedPart <$> heap (tone s') !! (offsetA k + n) = Some (k, argsOf s k, false) /\
    forall p, param (tone s') (offsetA k + n) p = wetOf s k p).
  { intros k. split.
    - rewrite <- list_lookup_fmap. change (fixedPart <$> heap (tone s')) with (map fixedPart (heap (tone s'))).
      rewrite Hheap, wets_fixedPart.
      change (map fixedPart H0) with (fixedPart <$> H0). by rewrite list_lookup_fmap, Hnew.
    - intros p. rewrite <- param_heap, Hheap.
      assert (Hold : param (mkWorld H0 []) (offsetA k + n) p = None)
        by (unfold param; cbn; by rewrite Hnew).
      destruct (decide (p = wet)) as [->|Hp].
      + assert (Hlt : offsetA k + n < length H0) by (eapply lookup_lt_Some, Hnew).
        assert (Huniq : forall e' : effect,
                  reg s' e' = Some (offsetA k + n) -> KEffect e' = k).
        { intros e' He'. rewrite Hr in He'.
          assert (Ho : offsetA (KEffect e') + n = offsetA k + n) by congruence.
          by apply offsetA_inj in Ho. }
        destruct k as [|e| | |]; cbn [wetOf];
          try (rewrite wets_param_idle; [exact Hold|];
               intros e' _; right; right; intros He'; by apply Huniq in He').
        destruct (enabled s e) eqn:Hen; [destruct (wetRef e) as [q|] eqn:Hq|].
        * change (param (mkWorld (wets s' canonical H0) []) (offsetA e + n) wet
                  = Some (Num (num s q))).
          rewrite <- Hn.
          apply (wets_param s' canonical H0 e q);
            [exact Hq|by rewrite He|apply Hr|exact Hlt| |apply canonical_complete].
          intros e' He'. apply Huniq in He'. congruence.
        * rewrite wets_param_idle; [exact Hold|].
          intros e' _. destruct (decide (e' = e)) as [->|Hne]; [by right; left|].
          right; right. intros He'. apply Huniq in He'. congruence.
        * rewrite wets_param_idle; [exact Hold|].
          intros e' _. destruct (decide (e' = e)) as [->|Hne]; [left; by rewrite He|].
          right; right. intros He'. apply Huniq in He'. congruence.
      + rewrite wets_param_ne by done. rewrite Hold.
        destruct k as [|e| | |]; try done. cbn. by destruct p. }
  split.
  - intros k. exists (offsetA k + n). split; [apply Hr|apply Hnode].
  - intros x Hx. rewrite Hr in Hx. injection Hx as <-.
    by rewrite (proj2 (Hnode (KEffect EFilter))).
Qed.

(** ** The audio graph over a session *)

Lemma settled_owned s l :
  settled s -> (forall k, k ∈ l) -> owned l s = true.
Proof.
  intros (node & Hn & _ & He & _) Hl. unfold owned. rewrite He.
  apply expected_owned. intros k _. apply elem_of_handles. by exists k.
Qed.

Lemma rewired_complete k : k ∈ rewired \/ k = KMeter.
Proof.
  unfold rewired. destruct k as [|e| | |]; [left|left|left|left|by right].
  - apply elem_of_cons. by left.
  - apply elem_of_cons. right. apply elem_of_app. left. apply list_elem_of_fmap.
    exists e. split; [done|apply canonical_complete].
  - apply elem_of_cons. right. apply elem_of_app. right. apply elem_of_cons. by left.
  - apply elem_of_cons. right. apply elem_of_app. right. apply elem_of_cons. right.
    apply elem_of_cons. by left.
Qed.

Lemma settled_owned_rewired s : settled s -> owned rewired s = true.
Proof.
  intros (node & Hn & _ & He & _). unfold owned. rewrite He.
  apply expected_owned. intros k Hk. apply elem_of_handles. exists k.
  split; [by eapply pathKinds_rewired|done].
Qed.

Lemma settled_tidy s : settled s -> tidy s = true.
Proof.
  intros (node & Hn & _ & _ & Hl). unfold tidy. apply forallb_forall. intros i _.
  destruct (live (tone s) i) eqn:E; [|done]. cbn [implb].
  apply bool_decide_eq_true_2. apply Hl in E as [k ->].
  apply elem_of_handles. exists k. split; [apply all12_complete|done].
Qed.

Lemma settled_quiet s s' : quiet s s' -> settled s -> settled s'.
Proof.
  intros (Hr & He & Hed & Hh) (node & Hn & Hi & Hedges & Hl).
  exists node. repeat split.
  - intros k. by rewrite Hr.
  - exact Hi.
  - by rewrite Hed, He.
  - rewrite (live_fixedPart _ (tone s) i Hh). apply Hl.
  - rewrite (live_fixedPart _ (tone s) i Hh). apply Hl.
Qed.

Lemma quiet_trans s1 s2 s3 : quiet s1 s2 -> quiet s2 s3 -> quiet s1 s3.
Proof. intros (?&?&?&?) (?&?&?&?). repeat split; congruence. Qed.

Lemma callback_quiet u s : ok (callback u) s (fun _ s' => quiet s s').
Proof.
  eapply ok_last; [apply callback_run|]. cbn [fst snd]. repeat split.
  - cbn [tone with_tone]. apply perform_edges.
  - cbn [tone with_tone]. apply perform_fixedPart.
Qed.

Lemma rebuilt_settled s s' :
  owned all12 s = true -> tidy s = true -> rebuilt s s' -> settled s'.
Proof.
  intros Ho Ht Hreb.
  destruct (rebuilt_lifetimes s s' Ht Hreb) as (_ & _ & Hlive).
  destruct Hreb as (_ & _ & _ & _ & _ & Hr & Hed & _).
  exists (fun k => offsetA k + length (heap (tone s))). repeat split.
  - exact Hr.
  - intros k k'. apply offsetA_inj.
  - rewrite Hed, filter_owned by exact Ho. cbn [app]. by apply wiring_explicit.
  - apply Hlive.
  - apply Hlive.
Qed.

Lemma Rebuild_handle_settled ev s :
  settled s -> ok (Rebuild.handle ev) s (fun _ s' => settled s').
Proof.
  intros Hs. destruct ev as [r v|t|t|e b]; unfold Rebuild.handle.
  - apply (ok_step _ _ s (num s r, s) _ eq_refl). cbn [fst snd].
    destruct (Qeq_bool (num s r) v); [by apply ok_ret|].
    apply (ok_step _ _ s (tt, with_num <[r := v]> s) _ eq_refl). cbn [fst snd].
    eapply ok_weaken; [apply (callback_quiet (RebuildNum r v))|].
    intros [] s' Hq. by apply (settled_quiet (with_num <[r := v]> s)).
  - apply (ok_step _ _ s (filterType s, s) _ eq_refl). cbn [fst snd].
    destruct (String.eqb (filterType s) t); [by apply ok_ret|].
    eapply ok_step; [reflexivity|]. cbn [fst snd].
    eapply ok_weaken; [apply (callback_quiet (RebuildFilterType t))|].
    intros [] s' Hq. eapply settled_quiet; [exact Hq|exact Hs].
  - apply (ok_step _ _ s (oscillatorType s, s) _ eq_refl). cbn [fst snd].
    destruct (String.eqb (oscillatorType s) t); [by apply ok_ret|].
    eapply ok_step; [reflexivity|]. cbn [fst snd].
    eapply ok_weaken; [apply (callback_quiet (RebuildOscillatorType t))|].
    intros [] s' Hq. eapply settled_quiet; [exact Hq|exact Hs].
  - apply (ok_step _ _ s (enabled s e, s) _ eq_refl). cbn [fst snd].
    destruct (Bool.eqb (enabled s e) b); [by apply ok_ret|].
    apply (ok_step _ _ s (tt, with_enabled <[e := b]> s) _ eq_refl). cbn [fst snd].
    eapply ok_weaken; [apply initializeAudioChain_run|].
    intros [] s' Hreb.
    exact (rebuilt_settled (with_enabled <[e := b]> s) s'
             (settled_owned s all12 Hs all12_complete) (settled_tidy s Hs) Hreb).
Qed.

Lemma Rebuild_run_settled evs s :
  settled s -> ok (Rebuild.run evs) s (fun _ s' => settled s').
Proof.
  revert s. induction evs as [|ev evs IH]; intros s Hs; cbn [Rebuild.run].
  - by apply ok_ret.
  - eapply ok_bind; [by apply Rebuild_handle_settled|].
    intros [] s1 H1. by apply IH.
Qed.

Lemma Rebuild_onMounted_settled :
  ok Rebuild.onMounted Rebuild.init (fun _ s => settled s).
Proof.
  eapply ok_weaken; [apply initializeAudioChain_run|].
  intros [] s' Hreb. by apply (rebuilt_settled Rebuild.init).
Qed.

Lemma teardown_run s :
  Rebuild.onBeforeUnmount s = Some (tt, with_tone (sweep Tone.dispose (reg s) all12) s) /\
  Reconnect.onBeforeUnmount s = Some (tt, with_tone (sweep Tone.dispose (reg s) all12) s).
Proof.
  split.
  - rewrite onBeforeUnmount_forEach. apply (forEach_run Tone.dispose).
  - unfold Reconnect.onBeforeUnmount. fold all12. apply (forEach_run Tone.dispose).
Qed.

Lemma teardown_silent s :
  settled s -> silent (with_tone (sweep Tone.dispose (reg s) all12) s).
Proof.
  intros Hs. split; cbn [tone with_tone].
  - rewrite (sweep_edges Tone.dispose) by done.
    apply filter_owned. exact (settled_owned s all12 Hs all12_complete).
  - intros i. exact (cleaned_dead s i (settled_tidy s Hs)).
Qed.

(** From mounting on, whatever the page does, the audio graph of the
    rebuilding component is settled: the connections are exactly the chain
    of the enabled effects over the nodes held in the variables, and the
    live nodes are exactly these twelve. *)
Theorem rebuild_session_graph (evs : list Rebuild.event) :
  ok (Rebuild.onMounted;; Rebuild.run evs) Rebuild.init (fun _ s => settled s).
Proof.
  eapply ok_bind; [apply Rebuild_onMounted_settled|].
  intros [] s Hs. by apply Rebuild_run_settled.
Qed.

(** Unmounting the rebuilding component, after whatever the page did,
    leaves no live node and no connection. *)
Theorem rebuild_session_teardown (evs : list Rebuild.event) :
  ok (Rebuild.onMounted;; Rebuild.run evs;; Rebuild.onBeforeUnmount) Rebuild.init
     (fun _ s => silent s).
Proof.
  eapply ok_bind; [apply Rebuild_onMounted_settled|].
  intros [] s0 Hs0. cbv beta.
  eapply ok_bind; [by apply Rebuild_run_settled|].
  intros [] s Hs. cbv beta.
  apply (ok_last _ s (tt, _) _ (proj1 (teardown_run s))). by apply teardown_silent.
Qed.

Lemma rewiredTo_settled s s' (node : kind -> id) :
  (forall k, reg s k = Some (node k)) -> (forall k k', node k = node k' -> k = k') ->
  (forall i, live (tone s) i = true <-> exists k, i = node k) ->
  owned rewired s = true -> rewiredTo s s' -> settled s'.
Proof.
  intros Hn Hi Hl Ho (_ & _ & _ & _ & _ & Hr & Hh & Hed).
  assert (Hn' : forall k, reg s' k = Some (node k)) by (intros k; by rewrite Hr).
  exists node. repeat split; try done.
  - rewrite Hed, filter_owned by exact Ho. cbn [app]. by apply wiring_explicit.
  - unfold live. rewrite Hh. apply Hl.
  - unfold live. rewrite Hh. apply Hl.
Qed.

Lemma settled_mounted s : settled s -> mounted s = true.
Proof.
  intros (node & Hn & _). unfold mounted. apply forallb_forall. intros k _.
  apply bool_decide_eq_true_2. by rewrite Hn.
Qed.

Lemma Reconnect_handle_quiet ev s :
  settled s -> ok (Reconnect.handle ev) s (fun _ s' => settled s' /\ reg s' = reg s).
Proof.
  intros Hs. destruct ev as [r v|t|e b]; unfold Reconnect.handle.
  - apply (ok_step _ _ s (num s r, s) _ eq_refl). cbn [fst snd].
    destruct (Reconnect.propsOf r) as [e|] eqn:Hp.
    + apply (ok_step _ _ s (tt, with_num <[r := v]> s) _ eq_refl). cbn [fst snd].
      eapply ok_weaken; [apply (callback_quiet (ReconnectProps e))|].
      intros [] s' Hq. split; [by apply (settled_quiet (with_num <[r := v]> s))|apply Hq].
    + destruct (Qeq_bool (num s r) v); [by apply ok_ret|].
      apply (ok_step _ _ s (tt, with_num <[r := v]> s) _ eq_refl). cbn [fst snd].
      destruct r; try (by apply ok_ret).
      * eapply ok_weaken; [apply (callback_quiet (ReconnectGain v))|].
        intros [] s' Hq. split; [by apply (settled_quiet (with_num <[gainValue := v]> s))|apply Hq].
      * eapply ok_weaken; [apply (callback_quiet (ReconnectPan v))|].
        intros [] s' Hq. split; [by apply (settled_quiet (with_num <[panValue := v]> s))|apply Hq].
  - eapply ok_step; [reflexivity|]. cbn [fst snd].
    eapply ok_weaken; [apply (callback_quiet (ReconnectProps EFilter))|].
    intros [] s' Hq. split; [eapply settled_quiet; [exact Hq|exact Hs]|apply Hq].
  - apply (ok_step _ _ s (tt, with_enabled <[e := b]> s) _ eq_refl). cbn [fst snd].
    eapply ok_bind; [apply updateAudioChain_sameNodes; exact (settled_mounted s Hs)|].
    intros [] s1 (Hr1 & _ & Hre). cbv beta.
    eapply ok_weaken; [apply (callback_quiet (ReconnectProps e))|].
    intros [] s2 Hq. split; [|by rewrite (proj1 Hq), Hr1].
    apply (settled_quiet s1 s2 Hq).
    pose proof (settled_owned_rewired s Hs) as Ho.
    destruct Hs as (node & Hn & Hi & _ & Hl).
    exact (rewiredTo_settled (with_enabled <[e := b]> s) s1 node Hn Hi Hl Ho Hre).
Qed.

Lemma Reconnect_run_quiet evs s :
  settled s -> ok (Reconnect.run evs) s (fun _ s' => settled s' /\ reg s' = reg s).
Proof.
  revert s. induction evs as [|ev evs IH]; intros s Hs; cbn [Reconnect.run].
  - by apply ok_ret.
  - eapply ok_bind; [by apply Reconnect_handle_quiet|].
    intros [] s1 [H1 Hr1]. cbv beta.
    eapply ok_weaken; [by apply IH|]. intros [] s2 [H2 Hr2]. split; [done|congruence].
Qed.

Lemma offsetB_inj k k' : offsetB k = offsetB k' -> k = k'.
Proof. destruct k as [|[]| | |], k' as [|[]| | |]; cbn; intros H; (done || lia). Qed.

Lemma offsetB_position j : j < 12 <-> exists k, j = offsetB k.
Proof.
  split.
  - intros Hj.
    assert (j = 0 \/ j = 1 \/ j = 2 \/ j = 3 \/ j = 4 \/ j = 5 \/ j = 6 \/ j = 7 \/ j = 8 \/
            j = 9 \/ j = 10 \/ j = 11) as [->|[->|[->|[->|[->|[->|[->|[->|[->|[->|[->| ->]]]]]]]]]]]
      by lia.
    + by exists KSynth.
    + by exists KPanner.
    + by exists KGain.
    + by exists KMeter.
    + by exists (KEffect EFilter).
    + by exists (KEffect EDistortion).
    + by exists (KEffect EBitCrusher).
    + by exists (KEffect EDelay).
    + by exists (KEffect EChorus).
    + by exists (KEffect EPhaser).
    + by exists (KEffect EReverb).
    + by exists (KEffect ECompressor).
  - intros [k ->]. destruct k as [|[]| | |]; cbn; lia.
Qed.

Lemma live_disposed w i : live w i = true <-> map disposed (heap w) !! i = Some false.
Proof.
  unfold live. change (map disposed (heap w)) with (disposed <$> heap w).
  rewrite list_lookup_fmap. destruct (heap w !! i) as [n|]; cbn; [|done].
  destruct (disposed n); cbn; split; congruence.
Qed.

Lemma Reconnect_onMounted_settled :
  ok Reconnect.onMounted Reconnect.init
     (fun _ s => settled s /\ forall k, reg s k = Some (offsetB k)).
Proof.
  apply (ok_last _ _ (tt, reconnectMounted)); [vm_compute; reflexivity|]. cbn [fst snd].
  assert (Hreg : forall k, reg reconnectMounted k = Some (offsetB k))
    by (intros [|[]| | |]; vm_compute; reflexivity).
  assert (Hed : edges (tone reconnectMounted) = expectedEdges offsetB (enabled reconnectMounted))
    by (vm_compute; reflexivity).
  assert (Hh : map disposed (heap (tone reconnectMounted)) = replicate 12 false)
    by (vm_compute; reflexivity).
  split; [|exact Hreg]. exists offsetB.
  split; [exact Hreg|]. split; [apply offsetB_inj|]. split; [exact Hed|].
  intros i. split.
  - intros Hl. apply offsetB_position. apply live_disposed in Hl. rewrite Hh in Hl.
    apply lookup_replicate in Hl as [_ Hl]. exact Hl.
  - intros Hk. apply offsetB_position in Hk. apply live_disposed. rewrite Hh.
    apply lookup_replicate. split; [reflexivity|exact Hk].
Qed.

Lemma expectedEdges_ext (node node' : kind -> id) en :
  (forall k, node k = node' k) -> expectedEdges node en = expectedEdges node' en.
Proof.
  intros H. unfold expectedEdges, signalPath. rewrite !H. do 2 f_equal.
  apply List.map_ext. intros k. apply H.
Qed.

(** From mounting on, whatever the page does, the reconnecting component
    keeps each node in its variable, the connections are exactly the chain
    of the currently enabled effects over these nodes, whatever the order
    of the toggles before, and the twelve nodes are the live ones. *)
Theorem reconnect_session_graph (evs : list Reconnect.event) :
  ok (Reconnect.onMounted;; Reconnect.run evs) Reconnect.init
     (fun _ s => (forall k, reg s k = Some (offsetB k)) /\
                 edges (tone s) = expectedEdges offsetB (enabled s) /\
                 (forall i, live (tone s) i = true <-> i < 12)).
Proof.
  eapply ok_bind; [apply Reconnect_onMounted_settled|].
  intros [] s0 [Hs0 Hr0]. cbv beta.
  eapply ok_weaken; [by apply Reconnect_run_quiet|].
  intros [] s [(node & Hn & _ & Hed & Hl) Hr]. cbv beta.
  assert (Hreg : forall k, reg s k = Some (offsetB k)) by (intros k; by rewrite Hr).
  assert (Hnode : forall k, node k = offsetB k).
  { intros k. specialize (Hn k). rewrite Hreg in Hn. congruence. }
  split; [exact Hreg|]. split.
  - rewrite Hed. by apply expectedEdges_ext.
  - intros i. rewrite Hl, offsetB_position. split; intros [k ->]; exists k; by rewrite ?Hnode.
Qed.

(** Unmounting the reconnecting component, after whatever the page did,
    leaves no live node and no connection. *)
Theorem reconnect_session_teardown (evs : list Reconnect.event) :
  ok (Reconnect.onMounted;; Reconnect.run evs;; Reconnect.onBeforeUnmount) Reconnect.init
     (fun _ s => silent s).
Proof.
  eapply ok_bind; [apply Reconnect_onMounted_settled|].
  intros [] s0 [Hs0 _]. cbv beta.
  eapply ok_bind; [by apply Reconnect_run_quiet|].
  intros [] s [Hs _]. cbv beta.
  apply (ok_last _ s (tt, _) _ (proj2 (teardown_run s))). by apply teardown_silent.
Qed.

(** ** Rewiring twice, and notes held across a toggle *)

Lemma state_eq (s1 s2 : state) :
  oscillatorType s1 = oscillatorType s2 -> envelope s1 = envelope s2 ->
  filterType s1 = filterType s2 -> num s1 = num s2 -> enabled s1 = enabled s2 ->
  reg s1 = reg s2 -> tone s1 = tone s2 -> s1 = s2.
Proof. destruct s1, s2. cbn. by intros -> -> -> -> -> -> ->. Qed.

(** Rewiring the chain a second time changes nothing. *)
Theorem updateAudioChain_idempotent (s : state) :
  mounted s = true ->
  exists s', Reconnect.updateAudioChain s = Some (tt, s') /\
             Reconnect.updateAudioChain s' = Some (tt, s').
Proof.
  intros Hm. destruct (mounted_node s Hm) as [node Hn].
  destruct (ok_elim _ _ _ (updateAudioChain_sameNodes s Hm)) as ([] & s' & Hrun & Hr & Hh & Hre).
  assert (Hm' : mounted s' = true) by (by apply (mounted_reg s)).
  destruct (ok_elim _ _ _ (updateAudioChain_sameNodes s' Hm'))
    as ([] & s'' & Hrun' & Hr' & Hh' & Hre').
  exists s'. split; [exact Hrun|]. rewrite Hrun'. do 2 f_equal.
  destruct Hre as (_ & He & _ & _ & _ & _ & _ & Hed).
  destruct Hre' as (Hn' & He' & Ho' & Hv' & Hf' & _ & _ & Hed').
  apply state_eq; try done. apply world_eq; [exact Hh'|].
  assert (Hn1 : forall k, reg s' k = Some (node k)) by (intros k; by rewrite Hr).
  assert (Hn2 : forall k, reg s'' k = Some (node k)) by (intros k; by rewrite Hr', Hr).
  rewrite Hed', (wiring_explicit s'' node Hn2), He'.
  rewrite Hed, (wiring_explicit s' node Hn1), Hr.
  assert (HW : forallb (leaves (handles (reg s) rewired)) (expectedEdges node (enabled s')) = true).
  { apply expected_owned. intros k Hk. apply elem_of_handles. exists k.
    split; [by eapply pathKinds_rewired|done]. }
  by rewrite List.filter_app, filter_idem, (filter_owned _ _ HW), app_nil_r.
Qed.

Lemma updateAudioChain_idempotent_witness :
  exists s', Reconnect.updateAudioChain reconnectDemo = Some (tt, s') /\
             Reconnect.updateAudioChain s' = Some (tt, s').
Proof.
  apply (updateAudioChain_idempotent reconnectDemo). vm_compute. reflexivity.
Defined.

(** A note held while an effect is switched on or off: the rebuilding
    component sends the release to a new synth, the one that received the
    attack having been disposed; the reconnecting component sends both to
    the same live synth. *)
Theorem held_note_across_toggle (pA pB : Player.player) (note : string) (e : effect)
    (b : bool) (synthA synthB : id) :
  tidy (Player.component pA) = true -> allocated (Player.component pA) = true ->
  reg (Player.component pA) KSynth = Some synthA ->
  enabled (Player.component pA) e <> b ->
  mounted (Player.component pB) = true ->
  reg (Player.component pB) KSynth = Some synthB ->
  (exists p' newSynth,
     Player.lift (Rebuild.handle (Rebuild.SetEnabled e b)) (RebuildNotes.noteOn note pA)
       = Some p' /\
     Player.triggered (RebuildNotes.noteOff note p')
       = Player.triggered pA ++ [(synthA, AudioGraph.Attack note);
                                 (newSynth, AudioGraph.Release note)] /\
     newSynth <> synthA /\
     live (tone (Player.component p')) synthA = false /\
     live (tone (Player.component p')) newSynth = true) /\
  (exists p',
     Player.lift (Reconnect.handle (Reconnect.SetEnabled e b)) (ReconnectNotes.noteOn note pB)
       = Some p' /\
     Player.triggered (ReconnectNotes.noteOff note p')
       = Player.triggered pB ++ [(synthB, AudioGraph.Attack note);
                                 (synthB, AudioGraph.Release note)] /\
     live (tone (Player.component p')) synthB = live (tone (Player.component pB)) synthB).
Proof.
  intros Ht Ha HsA Hne Hm HsB. split.
  - destruct (ok_elim _ _ _ (Rebuild_SetEnabled (Player.component pA) e b))
      as ([] & s' & Hrun & _ & _ & Hreb).
    specialize (Hreb Hne).
    destruct (rebuilt_lifetimes (with_enabled <[e := b]> (Player.component pA)) s' Ht Hreb)
      as (Hold & _ & Hlive).
    cbn [tone with_enabled] in Hold, Hlive, Hreb.
    destruct Hreb as (_ & _ & _ & _ & _ & Hr & _).
    pose proof (allocated_lt _ _ _ Ha HsA) as Hlt.
    exists (Player.mkPlayer s' (Player.activeNotes (RebuildNotes.noteOn note pA))
              (Player.triggered (RebuildNotes.noteOn note pA))),
           (offsetA KSynth + length (heap (tone (Player.component pA)))).
    split; [unfold Player.lift; cbn [Player.component RebuildNotes.noteOn]; by rewrite Hrun|].
    split; [|split; [|split]].
    + unfold RebuildNotes.noteOff, RebuildNotes.noteOn, Player.trigger.
      cbn [Player.component Player.triggered]. rewrite HsA, (Hr KSynth).
      by rewrite <- app_assoc.
    + cbn. lia.
    + cbn [Player.component]. by apply Hold.
    + cbn [Player.component]. apply Hlive. by exists KSynth.
  - destruct (ok_elim _ _ _ (Reconnect_handle_sameNodes (Reconnect.SetEnabled e b) _ Hm))
      as ([] & s' & Hrun & Hr & Hh).
    exists (Player.mkPlayer s' (Player.activeNotes pB)
              (Player.triggered (ReconnectNotes.noteOn note pB))).
    split; [unfold Player.lift; cbn [Player.component ReconnectNotes.noteOn]; by rewrite Hrun|].
    split.
    + unfold ReconnectNotes.noteOff, ReconnectNotes.noteOn, Player.trigger.
      cbn [Player.component Player.triggered]. rewrite HsB, Hr, HsB.
      by rewrite <- app_assoc.
    + cbn [Player.component]. by apply live_fixedPart.
Qed.

Lemma held_note_across_toggle_witness :
  (exists p' newSynth,
     Player.lift (Rebuild.handle (Rebuild.SetEnabled EDelay true))
       (RebuildNotes.noteOn "C4" (Player.mkPlayer rebuildDemo (Some ∅) [])) = Some p' /\
     Player.triggered (RebuildNotes.noteOff "C4" p')
       = Player.triggered (Player.mkPlayer rebuildDemo (Some ∅) [])
         ++ [(24, AudioGraph.Attack "C4"); (newSynth, AudioGraph.Release "C4")] /\
     newSynth <> 24 /\
     live (tone (Player.component p')) 24 = false /\
     live (tone (Player.component p')) newSynth = true) /\
  (exists p',
     Player.lift (Reconnect.handle (Reconnect.SetEnabled EDelay true))
       (ReconnectNotes.noteOn "C4" (Player.mkPlayer reconnectDemo None [])) = Some p' /\
     Player.triggered (ReconnectNotes.noteOff "C4" p')
       = Player.triggered (Player.mkPlayer reconnectDemo None [])
         ++ [(0, AudioGraph.Attack "C4"); (0, AudioGraph.Release "C4")] /\
     live (tone (Player.component p')) 0
     = live (tone (Player.component (Player.mkPlayer reconnectDemo None []))) 0).
Proof.
  assert (H1 : tidy rebuildDemo = true) by (vm_compute; reflexivity).
  assert (H2 : allocated rebuildDemo = true) by (vm_compute; reflexivity).
  assert (H3 : reg rebuildDemo KSynth = Some 24) by (vm_compute; reflexivity).
  assert (H4 : enabled rebuildDemo EDelay <> true) by (vm_compute; discriminate).
  assert (H5 : mounted reconnectDemo = true) by (vm_compute; reflexivity).
  assert (H6 : reg reconnectDemo KSynth = Some 0) by (vm_compute; reflexivity).
  exact (held_note_across_toggle (Player.mkPlayer rebuildDemo (Some ∅) [])
           (Player.mkPlayer reconnectDemo None []) "C4" EDelay true 24 0
           H1 H2 H3 H4 H5 H6).
Defined.

(** ** Note triggering *)

Lemma attacks_snoc calls t note :
  attacks (calls ++ [t]) note
  = attacks calls note
    + match t with
      | AudioGraph.Attack n => if String.eqb n note then 1 else 0
      | AudioGraph.Release _ => 0
      end.
Proof.
  unfold attacks. rewrite List.filter_app, length_app. f_equal.
  destruct t as [n|n]; cbn; [by destruct (String.eqb n note)|done].
Qed.

Lemma releases_snoc calls t note :
  releases (calls ++ [t]) note
  = releases calls note
    + match t with
      | AudioGraph.Attack _ => 0
      | AudioGraph.Release n => if String.eqb n note then 1 else 0
      end.
Proof.
  unfold releases. rewrite List.filter_app, length_app. f_equal.
  destruct t as [n|n]; cbn; [done|by destruct (String.eqb n note)].
Qed.

Section oscillator.
Import Oscillator.

(* What the oscillator component keeps true: no note has more releases than
   attacks, and an active note has fewer. *)
Lemma handle_covered o ev :
  (forall note, releases (default [] (synth o)) note <= attacks (default [] (synth o)) note /\
                (note ∈ activeNotes o ->
                 releases (default [] (synth o)) note < attacks (default [] (synth o)) note)) ->
  forall note,
    releases (default [] (synth (handle o ev))) note
      <= attacks (default [] (synth (handle o ev))) note /\
    (note ∈ activeNotes (handle o ev) ->
     releases (default [] (synth (handle o ev))) note
       < attacks (default [] (synth (handle o ev))) note).
Proof.
  destruct o as [sy en ac ru]. cbn [synth activeNotes]. intros H note.
  destruct (H note) as [Hle Hlt].
  destruct ev as [n|n|]; cbn [handle].
  - unfold triggerNote, startSynth. cbn -[attacks releases].
    destruct en; cbn -[attacks releases]; [|split; [exact Hle|exact Hlt]].
    rewrite attacks_snoc, releases_snoc.
    destruct (String.eqb_spec n note) as [->|Hne].
    + split; [lia|intros _; lia].
    + split; [lia|]. intros [Hin|Hin]%elem_of_union; [|specialize (Hlt Hin); lia].
      apply elem_of_singleton in Hin. congruence.
  - unfold releaseNote. cbn -[attacks releases].
    destruct sy as [calls|]; [|split; [exact Hle|exact Hlt]].
    destruct en; [|split; [exact Hle|exact Hlt]].
    destruct (decide (n ∈ ac)) as [Hin|Hin]; [|split; [exact Hle|exact Hlt]].
    cbn -[attacks releases] in *. rewrite attacks_snoc, releases_snoc.
    destruct (String.eqb_spec n note) as [->|Hne].
    + specialize (Hlt Hin). split; [lia|].
      intros [_ Hn]%elem_of_difference. exfalso. apply Hn. by apply elem_of_singleton.
    + split; [lia|]. intros [Hin' _]%elem_of_difference. specialize (Hlt Hin'). lia.
  - unfold toggle. cbn [synth activeNotes]. split; [exact Hle|exact Hlt].
Qed.

(** Whatever notes are triggered and released and however often the
    oscillator is switched on and off, its synth never receives more
    releases than attacks for a note, and a note in [activeNotes] has
    received fewer releases than attacks.  While switched off nothing
    reaches the synth and [activeNotes] is left alone.  [triggerNote] has no
    guard: while switched on, triggering a note twice and releasing it once
    sends the synth two attacks and one release, takes the note out of
    [activeNotes], and a further [releaseNote] of it does nothing, so one
    attack stays without a release. *)
Theorem oscillator_attacks_cover_releases (mounted : bool) (evs : list event) :
  let o := foldl handle (if mounted then onMounted init else init) evs in
  (forall note,
     releases (default [] (synth o)) note <= attacks (default [] (synth o)) note /\
     (note ∈ activeNotes o ->
      releases (default [] (synth o)) note < attacks (default [] (synth o)) note)) /\
  (enabled o = false ->
   forall note, synth (handle o (ReleaseNote note)) = synth o /\
                activeNotes (handle o (ReleaseNote note)) = activeNotes o /\
                default [] (synth (handle o (TriggerNote note))) = default [] (synth o) /\
                activeNotes (handle o (TriggerNote note)) = activeNotes o) /\
  (enabled o = true ->
   forall note,
     let o' := handle (handle (handle o (TriggerNote note)) (TriggerNote note))
                      (ReleaseNote note) in
     synth o' = Some (default [] (synth o)
                      ++ [AudioGraph.Attack note; AudioGraph.Attack note;
                          AudioGraph.Release note]) /\
     (note ∉ activeNotes o') /\
     releases (default [] (synth o')) note < attacks (default [] (synth o')) note /\
     handle o' (ReleaseNote note) = o').
Proof.
  cbv zeta. set (o0 := if mounted then onMounted init else init).
  assert (H : forall note,
             releases (default [] (synth (foldl handle o0 evs))) note
               <= attacks (default [] (synth (foldl handle o0 evs))) note /\
             (note ∈ activeNotes (foldl handle o0 evs) ->
              releases (default [] (synth (foldl handle o0 evs))) note
                < attacks (default [] (synth (foldl handle o0 evs))) note)).
  { induction evs as [|ev evs IH] using rev_ind.
    - intros note. unfold o0. destruct mounted; cbn; (split; [lia|]);
        intros Hin; by apply elem_of_empty in Hin.
    - rewrite foldl_app. cbn [foldl]. by apply handle_covered. }
  split; [exact H|]. destruct (foldl handle o0 evs) as [sy en ac ru].
  cbn [enabled synth activeNotes] in *. split.
  - intros -> note. by destruct sy.
  - intros -> note. destruct (H note) as [Hle _].
    assert (Hstep : handle (handle (handle (mkOscillator sy true ac ru) (TriggerNote note))
                              (TriggerNote note)) (ReleaseNote note)
                    = mkOscillator
                        (Some (default [] sy ++ [AudioGraph.Attack note; AudioGraph.Attack note;
                                                 AudioGraph.Release note]))
                        true (({[note]} ∪ ({[note]} ∪ ac)) ∖ {[note]}) true).
    { cbn [handle]. unfold triggerNote, startSynth. cbn. unfold releaseNote. cbn.
      rewrite decide_True by (apply elem_of_union_l; by apply elem_of_singleton).
      by rewrite <- !app_assoc. }
    rewrite Hstep. cbn [synth activeNotes].
    change (default [] (Some ?l)) with l.
    assert (Hnot : note ∉ ({[note]} ∪ ({[note]} ∪ ac)) ∖ {[note]}).
    { intros [_ Hn]%elem_of_difference. apply Hn. by apply elem_of_singleton. }
    split; [reflexivity|]. split; [exact Hnot|]. split.
    + replace (default [] sy ++ [AudioGraph.Attack note; AudioGraph.Attack note;
                                 AudioGraph.Release note])
        with (((default [] sy ++ [AudioGraph.Attack note]) ++ [AudioGraph.Attack note])
              ++ [AudioGraph.Release note]) by (by rewrite <- !app_assoc).
      rewrite !attacks_snoc, !releases_snoc, String.eqb_refl. lia.
    + cbn [handle]. unfold releaseNote. cbn [synth enabled activeNotes].
      by rewrite decide_False by exact Hnot.
Qed.

End oscillator.

(** ** The shared audio graph *)

(** [updateSynth] replaces the entries that have the id of its argument and
    no other: it keeps the number, order and ids of the synths and the
    active notes, and it changes nothing when no synth has that id. *)
Theorem updateSynth_replaces_by_id (updatedSynth : AudioGraph.SynthData) (g : AudioGraph.graph) :
  map AudioGraph.id_ (AudioGraph.synths (AudioGraph.updateSynth updatedSynth g))
    = map AudioGraph.id_ (AudioGraph.synths g) /\
  AudioGraph.activeNotes (AudioGraph.updateSynth updatedSynth g) = AudioGraph.activeNotes g /\
  (forall i s, AudioGraph.synths g !! i = Some s ->
     AudioGraph.synths (AudioGraph.updateSynth updatedSynth g) !! i
     = Some (if decide (AudioGraph.id_ s = AudioGraph.id_ updatedSynth) then updatedSynth else s)) /\
  (AudioGraph.id_ updatedSynth ∉ map AudioGraph.id_ (AudioGraph.synths g) ->
   AudioGraph.updateSynth updatedSynth g = g).
Proof.
  destruct g as [ss notes]. unfold AudioGraph.updateSynth. cbn.
  split; [|split; [done|split]].
  - rewrite List.map_map. apply List.map_ext. intros s.
    destruct (String.eqb_spec (AudioGraph.id_ s) (AudioGraph.id_ updatedSynth)); congruence.
  - intros i s Hi.
    change (map ?f ss) with (f <$> ss). rewrite list_lookup_fmap, Hi. cbn. f_equal.
    destruct (String.eqb_spec (AudioGraph.id_ s) (AudioGraph.id_ updatedSynth));
      [by rewrite decide_True|by rewrite decide_False].
  - intros Hnot. f_equal. rewrite <- (List.map_id ss) at 2. apply List.map_ext_in.
    intros s Hs. destruct (String.eqb_spec (AudioGraph.id_ s) (AudioGraph.id_ updatedSynth)) as [E|];
      [|done].
    exfalso. apply Hnot. rewrite <- E. apply list_elem_of_In. by apply in_map.
Qed.

(** ** The on-screen keyboard *)

Section piano.
Import Piano.

Lemma keys_snoc s n :
  concat (map (octave s) (seq 0 (S n)))
  = concat (map (octave s) (seq 0 n)) ++ octave s n.
Proof. rewrite seq_S, List.map_app, concat_app. cbn [map concat Nat.add]. by rewrite app_nil_r. Qed.

Lemma octave_count (f : keyType -> bool) s o :
  length (List.filter (fun k => f (type k)) (octave s o))
  = length (List.filter (fun k => f (type k)) octaveTemplate).
Proof.
  unfold octave. cbv zeta. generalize octaveTemplate. intros l.
  induction l as [|k l IH]; cbn; [done|]. destruct (f (type k)); cbn; by rewrite IH.
Qed.

Lemma keys_count (f : keyType -> bool) s n :
  length (List.filter (fun k => f (type k)) (concat (map (octave s) (seq 0 n))))
  = n * length (List.filter (fun k => f (type k)) octaveTemplate).
Proof.
  induction n as [|n IH]; [done|].
  rewrite keys_snoc, List.filter_app, length_app, IH, octave_count. lia.
Qed.

Lemma elem_of_keys s n k :
  k ∈ concat (map (octave s) (seq 0 n)) <->
  exists o t, o < n /\ t ∈ octaveTemplate /\
    k = mkKey (note t +:+ pretty (START_OCTAVE s + o)) (type t)
              ((fun p => p + inject_Z (Z.of_nat o) * 7)%Q <$> position t).
Proof.
  rewrite list_elem_of_In, in_concat. split.
  - intros (l & Hl & Hk). apply in_map_iff in Hl as (o & <- & Ho). apply in_seq in Ho.
    unfold octave in Hk. cbv zeta in Hk. apply in_map_iff in Hk as (t & <- & Ht).
    exists o, t. split; [lia|]. split; [by apply list_elem_of_In|done].
  - intros (o & t & Ho & Ht & ->). exists (octave s o). split.
    + apply in_map, in_seq. lia.
    + unfold octave. cbv zeta.
      apply (in_map (fun k => mkKey (note k +:+ pretty (START_OCTAVE s + o)) (type k)
                                    ((fun p => p + inject_Z (Z.of_nat o) * 7)%Q <$> position k))).
      by apply list_elem_of_In.
Qed.

(** There are twelve keys to an octave, seven white and five black; a white
    key has no position, and every black key has one that puts it, at its
    width, within the row of the white keys. *)
Theorem piano_layout (octaves startOctave : option nat) :
  length (pianoKeys octaves startOctave) = 12 * OCTAVES octaves /\
  length (whiteKeys octaves startOctave) = 7 * OCTAVES octaves /\
  length (blackKeys octaves startOctave) = 5 * OCTAVES octaves /\
  (forall k, k ∈ whiteKeys octaves startOctave -> position k = None) /\
  (forall k, k ∈ blackKeys octaves startOctave ->
     is_Some (position k) /\ (0 < left k)%Q /\
     (left k + BLACK_KEY_WIDTH <= inject_Z (Z.of_nat (7 * OCTAVES octaves)) * WHITE_KEY_WIDTH)%Q).
Proof.
  unfold whiteKeys, blackKeys, pianoKeys. generalize (OCTAVES octaves). intros n.
  split; [|split; [|split; [|split]]].
  - pose proof (keys_count (fun _ => true) startOctave n) as H.
    rewrite (List.forallb_filter_id (fun _ => true)) in H by (by apply forallb_forall).
    rewrite H. cbn. lia.
  - etrans; [exact (keys_count (fun t => bool_decide (t = white)) startOctave n)|].
    change (n * 7 = 7 * n). lia.
  - etrans; [exact (keys_count (fun t => bool_decide (t = black)) startOctave n)|].
    change (n * 5 = 5 * n). lia.
  - intros k Hk. apply list_elem_of_In, filter_In in Hk as [Hk Hw].
    apply list_elem_of_In, elem_of_keys in Hk as (o & t & _ & Ht & ->).
    cbn in Hw |- *. apply bool_decide_eq_true_1 in Hw.
    unfold octaveTemplate in Ht. rewrite !elem_of_cons, elem_of_nil in Ht.
    repeat destruct Ht as [->|Ht]; try done.
  - intros k Hk. apply list_elem_of_In, filter_In in Hk as [Hk Hb].
    apply list_elem_of_In, elem_of_keys in Hk as (o & t & Ho & Ht & ->).
    cbn in Hb. apply bool_decide_eq_true_1 in Hb.
    assert (Hq : (inject_Z (Z.of_nat o) + 1 <= inject_Z (Z.of_nat n))%Q).
    { change 1%Q with (inject_Z 1). rewrite <- inject_Z_plus, <- Zle_Qle. lia. }
    assert (Hq0 : (0 <= inject_Z (Z.of_nat o))%Q) by (rewrite <- (Zle_Qle 0); lia).
    assert (Hn : (inject_Z (Z.of_nat (7 * n)) == 7 * inject_Z (Z.of_nat n))%Q).
    { rewrite Nat2Z.inj_mul, inject_Z_mult. reflexivity. }
    unfold left, WHITE_KEY_WIDTH, BLACK_KEY_WIDTH. rewrite Hn.
    generalize dependent (inject_Z (Z.of_nat o)). generalize (inject_Z (Z.of_nat n)).
    intros qn qo Hq Hq0.
    unfold octaveTemplate in Ht. rewrite !elem_of_cons, elem_of_nil in Ht.
    repeat destruct Ht as [->|Ht]; try done; cbn [position type fmap option_fmap option_map default from_option Datatypes.id];
      (split; [by eexists|split; Lqa.lra]).
Qed.

Lemma digits_no_sharp (x : N) (s t : string) :
  s <> String "#"%char t -> pretty_N_go x s <> String "#"%char t.
Proof.
  revert s. induction x as [x IH] using (well_founded_induction N.lt_wf_0). intros s Hs.
  destruct (decide (x = 0%N)) as [->|Hx]; [by rewrite pretty_N_go_0|].
  rewrite pretty_N_go_step by lia. apply IH; [apply N.div_lt; lia|].
  unfold pretty_N_char. intros [= H _]. by repeat case_match.
Qed.

Lemma pretty_no_sharp (n : nat) (t : string) : pretty n <> String "#"%char t.
Proof.
  unfold pretty, pretty_nat, pretty, pretty_N.
  destruct (decide (N.of_nat n = 0%N)); [done|]. by apply digits_no_sharp.
Qed.

Lemma note_name_inj t t' (a b : nat) :
  t ∈ octaveTemplate -> t' ∈ octaveTemplate ->
  note t +:+ pretty a = note t' +:+ pretty b -> note t = note t' /\ a = b.
Proof.
  unfold octaveTemplate. rewrite !elem_of_cons, !elem_of_nil. intros Ht Ht'.
  repeat destruct Ht as [->|Ht]; try done;
    repeat destruct Ht' as [->|Ht']; try done;
    cbv [String.append note]; intros [= H]; try (split; [done|by apply (inj pretty) in H]);
    try (by apply pretty_no_sharp in H);
    try (symmetry in H; by apply pretty_no_sharp in H).
Qed.

Lemma octave_names_NoDup s o : NoDup (map note (octave s o)).
Proof.
  unfold octave. cbv zeta. rewrite List.map_map. cbn [note].
  change (NoDup ((fun k => note k +:+ pretty (START_OCTAVE s + o)) <$> octaveTemplate)).
  apply NoDup_fmap_2_strong.
  - intros t t' Ht Ht' H. apply note_name_inj in H as [H _]; [|done..].
    unfold octaveTemplate in Ht, Ht'. rewrite !elem_of_cons, !elem_of_nil in Ht, Ht'.
    repeat destruct Ht as [->|Ht]; try done; repeat destruct Ht' as [->|Ht']; done.
  - unfold octaveTemplate. repeat (apply NoDup_cons; split; [rewrite ?elem_of_cons, elem_of_nil; intros H; repeat destruct H as [H|H]; done|]).
    apply NoDup_nil. done.
Qed.

Lemma piano_names (octaves startOctave : option nat) :
  NoDup (map note (pianoKeys octaves startOctave)) /\
  NoDup (whiteKeyNotes octaves startOctave) /\ NoDup (blackKeyNotes octaves startOctave) /\
  (forall n, n ∈ whiteKeyNotes octaves startOctave -> n ∉ blackKeyNotes octaves startOctave).
Proof.
  assert (Hall : NoDup (map note (pianoKeys octaves startOctave))).
  { unfold pianoKeys. generalize (OCTAVES octaves). intros n.
    induction n as [|n IH]; [apply NoDup_nil; done|].
    rewrite keys_snoc, List.map_app. apply NoDup_app. split; [exact IH|]. split.
    - intros x Hx Hx'.
      apply list_elem_of_In, in_map_iff in Hx as (k & <- & Hk).
      apply list_elem_of_In, in_map_iff in Hx' as (k' & Hkk & Hk').
      apply list_elem_of_In, elem_of_keys in Hk as (o & t & Ho & Ht & ->).
      unfold octave in Hk'. cbv zeta in Hk'. apply in_map_iff in Hk' as (t' & <- & Ht').
      cbn in Hkk. apply note_name_inj in Hkk as [_ Hkk]; [lia| |done].
      by apply list_elem_of_In.
    - apply octave_names_NoDup. }
  split; [exact Hall|].
  assert (Hsub : forall (f : pianoKey -> bool),
            NoDup (map note (List.filter f (pianoKeys octaves startOctave)))).
  { intros f. revert Hall. generalize (pianoKeys octaves startOctave). intros l.
    induction l as [|k l IH]; cbn; [done|]. intros [Hk Hl]%NoDup_cons.
    destruct (f k); cbn; [|by apply IH]. apply NoDup_cons. split; [|by apply IH].
    intros Hin. apply Hk. apply list_elem_of_In, in_map_iff in Hin as (k' & Hkk & Hk').
    apply filter_In in Hk' as [Hk' _]. rewrite <- Hkk. by apply list_elem_of_In, in_map. }
  split; [apply Hsub|]. split; [apply Hsub|].
  intros n Hw Hb. unfold whiteKeyNotes, blackKeyNotes, whiteKeys, blackKeys in Hw, Hb.
  apply list_elem_of_In, in_map_iff in Hw as (k & <- & Hk).
  apply list_elem_of_In, in_map_iff in Hb as (k' & Hkk & Hk').
  apply filter_In in Hk as [Hk Hkw]. apply filter_In in Hk' as [Hk' Hkb].
  apply bool_decide_eq_true_1 in Hkw. apply bool_decide_eq_true_1 in Hkb.
  assert (k' = k); [|congruence].
  revert Hall Hk Hk' Hkk. generalize (pianoKeys octaves startOctave). intros l Hall Hk Hk' Hkk.
  apply list_elem_of_In, list_elem_of_lookup in Hk as [i Hi].
  apply list_elem_of_In, list_elem_of_lookup in Hk' as [j Hj].
  assert (i = j) as ->; [|congruence].
  apply (NoDup_lookup _ i j (note k) Hall).
  - change (map note l) with (note <$> l). by rewrite list_lookup_fmap, Hi.
  - change (map note l) with (note <$> l). by rewrite list_lookup_fmap, Hj, <- Hkk.
Qed.

(** No two keys of the keyboard have the same note name. *)
Theorem piano_notes_distinct (octaves startOctave : option nat) :
  NoDup (map note (pianoKeys octaves startOctave)) /\
  NoDup (whiteKeyNotes octaves startOctave) /\ NoDup (blackKeyNotes octaves startOctave) /\
  (forall n, n ∈ whiteKeyNotes octaves startOctave -> n ∉ blackKeyNotes octaves startOctave).
Proof. apply piano_names. Qed.

End piano.

(** ** The computer-keyboard bindings *)

Section keymap.
Import Piano.

Lemma mapRow_zip notes cs km i :
  (mapRow notes cs km i).1 = foldl bind km (zip cs (drop i notes)) /\
  (mapRow notes cs km i).2 = i + length (zip cs (drop i notes)).
Proof.
  revert km i. induction cs as [|c cs IH]; intros km i; cbn [mapRow].
  - cbn. split; [done|lia].
  - destruct (notes !! i) as [n|] eqn:Hn.
    + rewrite (drop_S _ _ _ Hn). cbn [zip zip_with foldl length].
      destruct (IH (<[c := n]> km) (S i)) as [-> ->]. split; [done|lia].
    + rewrite drop_ge by (by apply lookup_ge_None). cbn. split; [done|lia].
Qed.

Lemma mapRow_app notes cs1 cs2 km i :
  mapRow notes (cs1 ++ cs2) km i
  = mapRow notes cs2 (mapRow notes cs1 km i).1 (mapRow notes cs1 km i).2.
Proof.
  revert km i. induction cs1 as [|c cs1 IH]; intros km i; cbn [mapRow app]; [done|].
  destruct (notes !! i) as [n|] eqn:Hn; [apply IH|].
  cbn. destruct cs2 as [|c2 cs2]; [done|]. cbn. by rewrite Hn.
Qed.

Lemma mapRows_flat notes rows km :
  mapRows notes rows km = (mapRow notes (concat (map chars rows)) km 0).1.
Proof.
  unfold mapRows.
  assert (H : forall st,
    foldl (fun st row => mapRow notes (chars row) st.1 st.2) st rows
    = mapRow notes (concat (map chars rows)) st.1 st.2).
  { induction rows as [|row rows IH]; intros [m i]; cbn [foldl map concat]; [done|].
    by rewrite IH, mapRow_app. }
  by rewrite H.
Qed.

Lemma bind_lookup_ne l m c :
  c ∉ l.*1 -> foldl bind m l !! c = m !! c.
Proof.
  revert m. induction l as [|[c' n] l IH]; intros m Hc; cbn; [done|].
  rewrite fmap_cons, not_elem_of_cons in Hc. destruct Hc as [Hne Hc].
  rewrite IH by done. unfold bind. cbn. by rewrite lookup_insert_ne.
Qed.

Lemma bind_lookup l m c n :
  NoDup l.*1 -> (c, n) ∈ l -> foldl bind m l !! c = Some n.
Proof.
  revert m. induction l as [|[c' n'] l IH]; intros m Hnd Hin; cbn.
  - by apply elem_of_nil in Hin.
  - rewrite fmap_cons in Hnd. apply NoDup_cons in Hnd as [Hc' Hnd].
    apply elem_of_cons in Hin as [[= -> ->]|Hin].
    + rewrite bind_lookup_ne by done. unfold bind. cbn. by rewrite lookup_insert_eq.
    + by apply IH.
Qed.

Lemma zip_bound (cs notes : list string) i c :
  NoDup cs -> cs !! i = Some c ->
  match notes !! i with
  | Some n => (c, n) ∈ zip cs notes
  | None => c ∉ (zip cs notes).*1
  end.
Proof.
  intros Hnd Hc. destruct (notes !! i) as [n|] eqn:Hn.
  - apply list_elem_of_lookup. exists i. by rewrite lookup_zip_with, Hc, Hn.
  - intros Hin. apply list_elem_of_fmap in Hin as ([c' n] & -> & Hin).
    apply list_elem_of_lookup in Hin as [j Hj].
    rewrite lookup_zip_with in Hj.
    destruct (cs !! j) as [c''|] eqn:Hcj; [|done]. destruct (notes !! j) as [n'|] eqn:Hnj; [|done].
    cbn in Hj. injection Hj as -> ->. cbn in Hc.
    assert (i = j) as -> by (by eapply NoDup_lookup). congruence.
Qed.

Lemma zip_fst_NoDup (cs notes : list string) : NoDup cs -> NoDup (zip cs notes).*1.
Proof.
  intros Hnd. revert notes. induction Hnd as [|c cs Hc Hnd IH]; intros [|n notes]; cbn;
    try apply NoDup_nil_2.
  apply NoDup_cons. split; [|apply IH].
  intros Hin. apply Hc. apply list_elem_of_fmap in Hin as ([c' n'] & -> & Hin).
  cbn. apply list_elem_of_lookup in Hin as [j Hj]. rewrite lookup_zip_with in Hj.
  destruct (cs !! j) as [c''|] eqn:Hcj; [|done]. destruct (notes !! j); [|done].
  cbn in Hj. injection Hj as -> ->. apply list_elem_of_lookup. by exists j.
Qed.

Lemma zip_fst_subset (cs notes : list string) c : c ∈ (zip cs notes).*1 -> c ∈ cs.
Proof.
  intros Hin. apply list_elem_of_fmap in Hin as ([c' n'] & -> & Hin).
  apply list_elem_of_lookup in Hin as [j Hj]. rewrite lookup_zip_with in Hj.
  destruct (cs !! j) as [c''|] eqn:Hcj; [|done]. destruct (notes !! j); [|done].
  cbn in Hj. injection Hj as -> ->. apply list_elem_of_lookup. by exists j.
Qed.

(** The loops bind the characters of the rows, in order, to the notes, in
    order, as far as both last: with distinct characters, the i-th character
    is bound to the i-th note if there is one and is left as it was
    otherwise, and no other key is touched. *)
Lemma mapRows_lookup notes rows km :
  NoDup (concat (map chars rows)) ->
  (forall i c, concat (map chars rows) !! i = Some c ->
     mapRows notes rows km !! c = match notes !! i with Some n => Some n | None => km !! c end) /\
  (forall c, c ∉ concat (map chars rows) -> mapRows notes rows km !! c = km !! c).
Proof.
  intros Hnd. rewrite mapRows_flat. destruct (mapRow_zip notes (concat (map chars rows)) km 0) as [-> _].
  rewrite drop_0. split.
  - intros i c Hc. pose proof (zip_bound _ notes i c Hnd Hc) as H.
    destruct (notes !! i) as [n|].
    + apply bind_lookup; [by apply zip_fst_NoDup|done].
    + by apply bind_lookup_ne.
  - intros c Hc. apply bind_lookup_ne. intros Hin. by apply Hc, (zip_fst_subset _ notes).
Qed.

Lemma rows_NoDup :
  NoDup (concat (map chars whiteKeyRows) ++ concat (map chars blackKeyRows)).
Proof. apply (bool_decide_unpack _). vm_compute. exact I. Qed.

(** Each character of the white rows plays the white key of the same rank,
    each character of the black rows the black key of the same rank, as far
    as there are keys; no other key of the computer keyboard plays a note,
    and no two keys play the same note. *)
Theorem keyMap_bindings (octaves startOctave : option nat) :
  (forall i c, concat (map chars whiteKeyRows) !! i = Some c ->
     keyMap octaves startOctave !! c = whiteKeyNotes octaves startOctave !! i) /\
  (forall i c, concat (map chars blackKeyRows) !! i = Some c ->
     keyMap octaves startOctave !! c = blackKeyNotes octaves startOctave !! i) /\
  (forall c, c ∉ concat (map chars whiteKeyRows) -> c ∉ concat (map chars blackKeyRows) ->
     keyMap octaves startOctave !! c = None) /\
  (forall c c' n, keyMap octaves startOctave !! c = Some n ->
     keyMap octaves startOctave !! c' = Some n -> c = c').
Proof.
  pose proof rows_NoDup as Hrows. apply NoDup_app in Hrows as (Hw & Hdis & Hb).
  set (W := whiteKeyNotes octaves startOctave). set (B := blackKeyNotes octaves startOctave).
  set (wc := concat (map chars whiteKeyRows)) in *.
  set (bc := concat (map chars blackKeyRows)) in *.
  unfold keyMap. fold W B.
  destruct (mapRows_lookup W whiteKeyRows ∅ Hw) as [Hw1 Hw2].
  destruct (mapRows_lookup B blackKeyRows (mapRows W whiteKeyRows ∅) Hb) as [Hb1 Hb2].
  fold wc in Hw1, Hw2. fold bc in Hb1, Hb2.
  assert (HW : forall i c, wc !! i = Some c ->
            mapRows B blackKeyRows (mapRows W whiteKeyRows ∅) !! c = W !! i).
  { intros i c Hc. rewrite Hb2 by (apply Hdis, list_elem_of_lookup; by exists i).
    rewrite (Hw1 i c Hc). by destruct (W !! i). }
  assert (HB : forall i c, bc !! i = Some c ->
            mapRows B blackKeyRows (mapRows W whiteKeyRows ∅) !! c = B !! i).
  { intros i c Hc. rewrite (Hb1 i c Hc). destruct (B !! i); [done|].
    apply Hw2. intros Hin. by apply (Hdis c Hin), list_elem_of_lookup; exists i. }
  assert (HN : forall c, c ∉ wc -> c ∉ bc ->
            mapRows B blackKeyRows (mapRows W whiteKeyRows ∅) !! c = None).
  { intros c H1 H2. by rewrite Hb2, Hw2. }
  split; [exact HW|]. split; [exact HB|]. split; [exact HN|].
  destruct (piano_names octaves startOctave) as (_ & HWnd & HBnd & HWB). fold W B in HWnd, HBnd, HWB.
  assert (Hsrc : forall c n, mapRows B blackKeyRows (mapRows W whiteKeyRows ∅) !! c = Some n ->
            (exists i, wc !! i = Some c /\ W !! i = Some n) \/
            (exists i, bc !! i = Some c /\ B !! i = Some n)).
  { intros c n Hc. destruct (decide (c ∈ wc)) as [Hin|Hnw].
    - apply list_elem_of_lookup in Hin as [i Hi]. left. exists i. split; [done|].
      by rewrite <- (HW i c Hi).
    - destruct (decide (c ∈ bc)) as [Hin|Hnb].
      + apply list_elem_of_lookup in Hin as [i Hi]. right. exists i. split; [done|].
        by rewrite <- (HB i c Hi).
      + by rewrite HN in Hc. }
  intros c c' n Hc Hc'.
  destruct (Hsrc c n Hc) as [(i & Hi & Hn)|(i & Hi & Hn)],
           (Hsrc c' n Hc') as [(j & Hj & Hn')|(j & Hj & Hn')].
  - assert (i = j) as -> by exact (NoDup_lookup W i j n HWnd Hn Hn'). congruence.
  - exfalso. apply (HWB n); apply list_elem_of_lookup; eauto.
  - exfalso. apply (HWB n); apply list_elem_of_lookup; eauto.
  - assert (i = j) as -> by exact (NoDup_lookup B i j n HBnd Hn Hn'). congruence.
Qed.

(* One key event keeps the invariant of the key handlers. *)
Lemma handle_keys k ev :
  activeKeys k = notesOn (emits k) /\ noRepeat (emits k) ->
  activeKeys (handle k ev) = notesOn (emits (handle k ev)) /\ noRepeat (emits (handle k ev)) /\
  bindings (handle k ev) = bindings k.
Proof.
  destruct k as [km ak em]. cbn -[notesOn]. intros [Ha Hr].
  destruct ev as [key|key]; cbn -[notesOn]; unfold handleKeyDown, handleKeyUp; cbn -[notesOn];
    destruct (km !! key) as [n|]; try done.
  - destruct (String.eqb n ""); cbn -[notesOn]; [done|].
    destruct (bool_decide (n ∈ ak)) eqn:Hin; cbn -[notesOn]; [done|].
    apply bool_decide_eq_false_1 in Hin.
    unfold notesOn at 1. rewrite foldl_app. cbn [foldl]. fold (notesOn em). rewrite Ha.
    split; [done|]. split; [|done].
    intros before m after Heq. destruct after as [|t after _] using rev_ind.
    + apply app_inj_tail in Heq as [-> [= ->]]. by rewrite <- Ha.
    + rewrite app_comm_cons, app_assoc in Heq. apply app_inj_tail in Heq as [Heq _].
      by apply (Hr before m after).
  - destruct (String.eqb n ""); cbn -[notesOn]; [done|].
    unfold notesOn at 1. rewrite foldl_app. cbn [foldl]. fold (notesOn em). rewrite Ha.
    split; [done|]. split; [|done].
    intros before m after Heq. destruct after as [|t after _] using rev_ind.
    + by apply app_inj_tail in Heq as [_ [=]].
    + rewrite app_comm_cons, app_assoc in Heq. apply app_inj_tail in Heq as [Heq _].
      by apply (Hr before m after).
Qed.

(** The notes the component holds in [activeKeys] are those switched on by
    the events it has emitted, a held key that repeats emits nothing more,
    and a key without a binding does nothing. *)
Theorem key_repeat_suppressed (km : gmap string string) (evs : list keyEvent) :
  let k := foldl handle (mkKeys km ∅ []) evs in
  bindings k = km /\
  activeKeys k = notesOn (emits k) /\
  noRepeat (emits k) /\
  (forall key, km !! key = None -> handle k (KeyDown key) = k /\ handle k (KeyUp key) = k) /\
  (forall key n, km !! key = Some n -> n ∈ activeKeys k -> handle k (KeyDown key) = k).
Proof.
  cbv zeta.
  assert (H : bindings (foldl handle (mkKeys km ∅ []) evs) = km /\
              activeKeys (foldl handle (mkKeys km ∅ []) evs)
              = notesOn (emits (foldl handle (mkKeys km ∅ []) evs)) /\
              noRepeat (emits (foldl handle (mkKeys km ∅ []) evs))).
  { induction evs as [|ev evs IH] using rev_ind.
    - cbn. repeat split. intros [|] ? ? Heq; discriminate Heq.
    - rewrite foldl_app. cbn [foldl]. destruct IH as (Hb & Ha & Hr).
      destruct (handle_keys _ ev (conj Ha Hr)) as (Ha' & Hr' & Hb'). by rewrite Hb'. }
  destruct H as (Hb & Ha & Hr). split; [exact Hb|]. split; [exact Ha|]. split; [exact Hr|].
  clear Ha Hr. destruct (foldl handle (mkKeys km ∅ []) evs) as [km' ak em]. cbn in Hb. subst km'.
  split.
  - intros key Hk. cbn. unfold handleKeyDown, handleKeyUp. cbn. by rewrite Hk.
  - intros key n Hk Hin. cbn. unfold handleKeyDown. cbn. rewrite Hk.
    rewrite (bool_decide_eq_true_2 _ Hin). cbn. by rewrite andb_false_r.
Qed.

End keymap.

Section versions.
Import Piano.

Lemma octave_versions s o : Forall2 sameKey (PianoVue.octave s o) (octave s o).
Proof.
  unfold PianoVue.octave, octave, octaveTemplate, sameKey. cbv zeta.
  cbn -[Qplus Qmult inject_Z Qeq pretty String.append].
  repeat (apply Forall2_cons; split;
          [split; [reflexivity|split; [reflexivity|
             cbn -[Qplus Qmult inject_Z Qeq pretty String.append];
             try exact I; try apply Qplus_comm]]|]).
  constructor.
Qed.

(** The layout of src/app/components/Keyboard.vue is that of
    src/unnamed/part_007: the same keys in the same order, with the same
    notes, colours and positions. *)
Theorem layout_versions_agree (octaves startOctave : option nat) :
  Forall2 sameKey (PianoVue.pianoKeys octaves startOctave) (pianoKeys octaves startOctave).
Proof.
  unfold PianoVue.pianoKeys, pianoKeys. generalize (seq 0 (OCTAVES octaves)). intros os.
  induction os as [|o os IH]; cbn [map concat]; [constructor|].
  apply Forall2_app; [apply octave_versions|exact IH].
Qed.

End versions.

(** ** Sliders and knobs *)

Lemma round_near (x : Q) : (x - (1 # 2) < round x /\ round x <= x + (1 # 2))%Q.
Proof.
  unfold round. pose proof (Qfloor_le (x + (1 # 2))) as H1.
  pose proof (Qlt_floor (x + (1 # 2))) as H2.
  rewrite inject_Z_plus in H2. change (inject_Z 1) with 1%Q in H2. split; Lqa.lra.
Qed.

Section slider.
Import Slider.
Local Open Scope Q_scope.

(** A mouse move while not dragging emits nothing; while dragging it emits
    one value, the dragged value rounded to a whole number of steps and then
    clamped: it is never above [max], and never below [min] when [min] is
    at most [max]. *)
Theorem slider_emits_in_range (e : EnvelopeEditor.MouseEvent) (p : props) (s : slider) :
  ~ default 0.01 (step p) == 0 ->
  (isDragging s = false -> onMouseMove e p s = s) /\
  (isDragging s = true ->
   exists v (k : Z),
     emits (onMouseMove e p s) = emits s ++ [v] /\
     v == Qmin (max p) (Qmax (min p) (inject_Z k * default 0.01 (step p))) /\
     dragged e p s / default 0.01 (step p) - (1 # 2) < inject_Z k /\
     inject_Z k <= dragged e p s / default 0.01 (step p) + (1 # 2) /\
     v <= max p /\ (min p <= max p -> min p <= v)).
Proof.
  intros Hstep. split.
  - intros Hd. unfold onMouseMove. by rewrite Hd.
  - intros Hd. unfold onMouseMove. rewrite Hd. cbn [negb]. cbv zeta.
    set (st := default 0.01 (step p)) in *.
    exists (Qmin (max p) (Qmax (min p) (round (dragged e p s / st) * st))),
           (Qfloor (dragged e p s / st + (1 # 2))).
    split; [done|]. split; [reflexivity|].
    destruct (round_near (dragged e p s / st)) as [H1 H2]. unfold round in H1, H2.
    split; [exact H1|]. split; [exact H2|]. split.
    + apply Q.le_min_l.
    + intros Hmm. apply Q.min_glb; [exact Hmm|apply Q.le_max_l].
Qed.

Lemma slider_emits_in_range_witness :
  let p := mkProps 0 1 None 0.5 false in
  let e0 := EnvelopeEditor.mkMouseEvent 100 100 in
  let e1 := EnvelopeEditor.mkMouseEvent 1000 100 in
  let s := onMouseDown e0 p (mkSlider false 0 0 0 ∅ []) in
  exists v, emits (onMouseMove e1 p s) = [v] /\ v <= 1.
Proof.
  intros p e0 e1 s.
  assert (Hstep : ~ default 0.01 (step p) == 0) by (by vm_compute).
  destruct (slider_emits_in_range e1 p s Hstep) as [_ H].
  destruct (H eq_refl) as (v & k & Hv & _ & _ & _ & Hmax & _).
  exists v. split; [exact Hv|exact Hmax].
Defined.

End slider.

Section knob.
Import Knob.
Local Open Scope Q_scope.

Lemma step_pos p : 0 < step p.
Proof. unfold step. cbv zeta. by destruct (match step_prop p with Some _ => _ | None => _ end). Qed.

Lemma round_tenth (x : Q) : x == 1 # 10 -> round x == 0.
Proof.
  intros Hx. destruct (round_near x) as [H1 H2]. unfold round in *.
  set (z := Qfloor (x + (1 # 2))) in *.
  assert (Hlo : inject_Z (-1) < inject_Z z) by (change (inject_Z (-1)) with (-1 # 1); Lqa.lra).
  assert (Hhi : inject_Z z < inject_Z 1) by (change (inject_Z 1) with 1; Lqa.lra).
  rewrite <- Zlt_Qlt in Hlo, Hhi. assert (z = 0%Z) as -> by lia. reflexivity.
Qed.

(** In exact arithmetic: the knob snaps after it clamps, so a mouse move
    while dragging emits the whole number of steps nearest to the clamped
    value, at most half a step away from it and hence within half a step of
    the range, but not always within the range: the delay-time knob of the
    effect panel, dragged 200 pixels down, emits 0, below its minimum of
    0.001.  The step is 0.01 or 0.1: a step that is passed in is not used as
    the step; unless it is zero it selects 0.01. *)
Theorem knob_emits_near_range (e : EnvelopeEditor.MouseEvent) (p : props) (k : knob) :
  min p <= max p ->
  (isDragging k = false -> handleMouseMove e p k = k) /\
  (isDragging k = true ->
   exists v (n : Z),
     emits (handleMouseMove e p k) = emits k ++ [v] /\
     v == inject_Z n * step p /\
     clamped e p k - step p / 2 <= v /\ v <= clamped e p k + step p / 2 /\
     min p - step p / 2 <= v /\ v <= max p + step p / 2) /\
  (step p = 0.01 \/ step p = 0.1) /\
  (forall n, step_prop p = Some n -> ~ n == 0 -> step p = 0.01) /\
  (forall modelValue x y x', modelValue <= 1 ->
   exists v,
     emits (handleMouseMove (EnvelopeEditor.mkMouseEvent x' (y + 200))
              (delayTimeKnob modelValue)
              (handleMouseDown (EnvelopeEditor.mkMouseEvent x y)
                 (delayTimeKnob modelValue) k))
     = emits k ++ [v] /\
     v == 0 /\ v < min (delayTimeKnob modelValue)).
Proof.
  intros Hmm. pose proof (step_pos p) as Hs.
  assert (Hc : min p <= clamped e p k /\ clamped e p k <= max p).
  { unfold clamped. cbv zeta. split; [apply Q.le_max_l|].
    apply Q.max_lub; [exact Hmm|apply Q.le_min_l]. }
  split; [|split; [|split; [|split]]].
  - intros Hd. unfold handleMouseMove. by rewrite Hd.
  - intros Hd. unfold handleMouseMove. rewrite Hd. cbn [negb]. cbv zeta.
    set (c := clamped e p k) in *. set (st := step p) in *.
    exists (round (c / st) * st), (Qfloor (c / st + (1 # 2))).
    split; [done|]. split; [reflexivity|].
    destruct (round_near (c / st)) as [H1 H2].
    assert (Hne : ~ st == 0) by Lqa.lra.
    assert (Hcs : c / st * st == c) by (field; exact Hne).
    set (r := round (c / st)) in *.
    assert (Hlo : c - st / 2 <= r * st).
    { setoid_replace (c - st / 2) with ((c / st - (1 # 2)) * st) using relation Qeq
        by (field; exact Hne).
      apply Qmult_le_compat_r; Lqa.lra. }
    assert (Hhi : r * st <= c + st / 2).
    { setoid_replace (c + st / 2) with ((c / st + (1 # 2)) * st) using relation Qeq
        by (field; exact Hne).
      apply Qmult_le_compat_r; Lqa.lra. }
    split; [exact Hlo|]. split; [exact Hhi|]. split; Lqa.lra.
  - unfold step. cbv zeta. destruct (match step_prop p with Some _ => _ | None => _ end); auto.
  - intros n Hn Hnz. unfold step. rewrite Hn. cbv zeta.
    destruct (Qeq_bool n 0) eqn:E; [|done]. by apply Qeq_bool_iff in E.
  - intros mv x y x' Hmv. unfold handleMouseMove, handleMouseDown.
    cbn [isDragging negb emits startY startValue]. cbv zeta.
    set (k1 := mkKnob true (EnvelopeEditor.clientY (EnvelopeEditor.mkMouseEvent x y))
                 (modelValue (delayTimeKnob mv)) (emits k)).
    set (c := clamped (EnvelopeEditor.mkMouseEvent x' (y + 200)) (delayTimeKnob mv) k1).
    assert (Hst : step (delayTimeKnob mv) = 0.01) by reflexivity.
    assert (Hcv : c == 1 # 1000).
    { unfold c, clamped, k1. cbv zeta.
      cbn [startY startValue EnvelopeEditor.clientY modelValue delayTimeKnob].
      change (min (delayTimeKnob mv)) with (1 # 1000).
      change (max (delayTimeKnob mv)) with 1.
      apply Q.max_l. eapply Qle_trans; [apply Q.le_min_r|].
      setoid_replace ((y - (y + 200)) / 200) with (-1 # 1) using relation Qeq by field.
      Lqa.lra. }
    exists (round (c / step (delayTimeKnob mv)) * step (delayTimeKnob mv)).
    split; [reflexivity|].
    assert (Hr : round (c / step (delayTimeKnob mv)) == 0).
    { apply round_tenth. rewrite Hst, Hcv. reflexivity. }
    assert (Hv : round (c / step (delayTimeKnob mv)) * step (delayTimeKnob mv) == 0)
      by (rewrite Hr; ring).
    split; [exact Hv|]. rewrite Hv. reflexivity.
Qed.

Lemma knob_emits_near_range_witness :
  let p := mkProps 0.5 (Some 0) (Some 1) (Some 1) None in
  let k := handleMouseDown (EnvelopeEditor.mkMouseEvent 0 100) p (mkKnob false 0 0 []) in
  min p <= max p /\ step p = 0.01 /\
  exists v, emits (handleMouseMove (EnvelopeEditor.mkMouseEvent 0 0) p k) = [v] /\
            v <= max p + step p / 2.
Proof.
  intros p k.
  assert (Hmm : min p <= max p) by (by vm_compute).
  destruct (knob_emits_near_range (EnvelopeEditor.mkMouseEvent 0 0) p k Hmm)
    as (_ & H & _ & Hstep & _).
  split; [exact Hmm|].
  split; [apply (Hstep 1); [reflexivity|by vm_compute]|].
  destruct (H eq_refl) as (v & n & Hv & _ & _ & _ & _ & Hin).
  exists v. split; [exact Hv|exact Hin].
Defined.

End knob.

(** ** The filter display *)

Section filter.
Import FilterView.
Local Open Scope R_scope.

Lemma ln10_pos : 0 < ln 10.
Proof. rewrite <- ln_1. apply ln_increasing; lra. Qed.

Lemma ln_span : ln 20 < ln 20000.
Proof. apply ln_increasing; lra. Qed.

Lemma ln_mono x y : 0 < x -> x <= y -> ln x <= ln y.
Proof. intros Hx [Hlt| ->]; [left; by apply ln_increasing|right; reflexivity]. Qed.

Lemma clamp_range lo hi x : lo <= hi -> lo <= Rmax lo (Rmin hi x) <= hi.
Proof.
  intros H. split; [apply Rmax_l|]. apply Rmax_lub; [exact H|apply Rmin_l].
Qed.

Lemma clamp_id lo hi x : lo <= x <= hi -> Rmax lo (Rmin hi x) = x.
Proof. intros [H1 H2]. rewrite Rmin_right by exact H2. by rewrite Rmax_right. Qed.

Lemma clamp_mono lo hi x y : x <= y -> Rmax lo (Rmin hi x) <= Rmax lo (Rmin hi y).
Proof.
  intros H. apply Rle_max_compat_l. apply Rle_min_compat_l. exact H.
Qed.

(** [freqToX] in terms of natural logarithms. *)
Lemma freqToX_ln f :
  freqToX f = (ln (Rmax 20 (Rmin 20000 f)) - ln 20) / (ln 20000 - ln 20) * 280.
Proof.
  unfold freqToX, log10, svgWidth. cbv zeta.
  pose proof ln10_pos. pose proof ln_span. field. split; lra.
Qed.

Lemma xToFreq_exp x :
  xToFreq x = Rmax 20 (Rmin 20000 (exp (x / 280 * (ln 20000 - ln 20) + ln 20))).
Proof.
  unfold xToFreq, log10, svgWidth, Rpower. cbv zeta. do 3 f_equal.
  pose proof ln10_pos. field. lra.
Qed.

(** The frequency scale of the display: [freqToX] maps every frequency into
    the width of the view box, growing with the frequency, 20 Hz to the left
    edge and 20 kHz to the right edge; [xToFreq] maps every coordinate to a
    frequency between 20 Hz and 20 kHz. *)
Theorem filter_scale_ranges (f f' x : R) :
  0 <= freqToX f <= svgWidth /\
  (f <= f' -> freqToX f <= freqToX f') /\
  freqToX 20 = 0 /\ freqToX 20000 = svgWidth /\
  (f <= 20 -> freqToX f = 0) /\ (20000 <= f -> freqToX f = svgWidth) /\
  20 <= xToFreq x <= 20000.
Proof.
  pose proof ln_span as Hspan.
  assert (Hc : forall g, 20 <= Rmax 20 (Rmin 20000 g) <= 20000) by (intros; apply clamp_range; lra).
  assert (Hl : forall g, ln 20 <= ln (Rmax 20 (Rmin 20000 g)) <= ln 20000).
  { intros g. destruct (Hc g). split; apply ln_mono; lra. }
  assert (Hmono : forall g g', g <= g' -> freqToX g <= freqToX g').
  { intros g g' Hg. rewrite !freqToX_ln.
    assert (ln (Rmax 20 (Rmin 20000 g)) <= ln (Rmax 20 (Rmin 20000 g'))).
    { apply ln_mono; [destruct (Hc g); lra|by apply clamp_mono]. }
    apply Rmult_le_compat_r; [lra|]. apply Rmult_le_compat_r; [|lra].
    left. apply Rinv_0_lt_compat. lra. }
  assert (H20 : freqToX 20 = 0).
  { rewrite freqToX_ln, clamp_id by lra. field. lra. }
  assert (H20k : freqToX 20000 = svgWidth).
  { rewrite freqToX_ln, clamp_id by lra. unfold svgWidth. field. lra. }
  assert (Hlow : forall g, g <= 20 -> freqToX g = 0).
  { intros g Hg. rewrite freqToX_ln. rewrite Rmin_right by lra. rewrite Rmax_left by lra.
    field. lra. }
  assert (Hhigh : forall g, 20000 <= g -> freqToX g = svgWidth).
  { intros g Hg. rewrite freqToX_ln. rewrite Rmin_left by lra. rewrite Rmax_right by lra.
    unfold svgWidth. field. lra. }
  split; [|split; [apply Hmono|split; [exact H20|split; [exact H20k|split; [apply Hlow|split; [apply Hhigh|]]]]]].
  - destruct (Rle_or_lt f 20) as [Hf|Hf].
    + rewrite Hlow by exact Hf. unfold svgWidth. lra.
    + split.
      * rewrite <- H20. apply Hmono. lra.
      * destruct (Rle_or_lt f 20000) as [Hf'|Hf'].
        -- rewrite <- H20k. by apply Hmono.
        -- rewrite Hhigh by lra. lra.
  - rewrite xToFreq_exp. apply clamp_range. lra.
Qed.

(** On exact reals the two directions of the scale are inverse to each
    other, within the view box and within the audible range. *)
Theorem filter_scale_inverse (f x : R) :
  20 <= f <= 20000 -> 0 <= x <= svgWidth ->
  xToFreq (freqToX f) = f /\ freqToX (xToFreq x) = x.
Proof.
  intros Hf Hx. pose proof ln_span as Hspan. unfold svgWidth in Hx.
  assert (He20 : exp (ln 20) = 20) by (apply exp_ln; lra).
  assert (He20k : exp (ln 20000) = 20000) by (apply exp_ln; lra).
  split.
  - rewrite xToFreq_exp, freqToX_ln. rewrite (clamp_id 20 20000 f) by exact Hf.
    replace ((ln f - ln 20) / (ln 20000 - ln 20) * 280 / 280 * (ln 20000 - ln 20) + ln 20)
      with (ln f) by (field; lra).
    rewrite exp_ln by lra. by apply clamp_id.
  - rewrite freqToX_ln, xToFreq_exp.
    set (z := x / 280 * (ln 20000 - ln 20) + ln 20).
    assert (Hz : ln 20 <= z <= ln 20000).
    { unfold z. split.
      - assert (0 <= x / 280 * (ln 20000 - ln 20)); [|lra].
        apply Rmult_le_pos; lra.
      - assert (x / 280 * (ln 20000 - ln 20) <= 1 * (ln 20000 - ln 20)); [|lra].
        apply Rmult_le_compat_r; lra. }
    assert (Hez : 20 <= exp z <= 20000).
    { destruct Hz as [H1 H2]. split.
      - rewrite <- He20. destruct H1 as [H1|H1]; [left; by apply exp_increasing|right; by rewrite H1].
      - rewrite <- He20k. destruct H2 as [H2|H2]; [left; by apply exp_increasing|right; by rewrite H2]. }
    rewrite !(clamp_id 20 20000 (exp z)) by exact Hez. rewrite ln_exp. unfold z. field. lra.
Qed.

Lemma filter_scale_inverse_witness :
  xToFreq (freqToX 20) = 20 /\ freqToX (xToFreq 0) = 0.
Proof.
  apply (filter_scale_inverse 20 0); unfold svgWidth; lra.
Defined.

Lemma round_range (a b : Z) x : IZR a <= x <= IZR b -> IZR a <= round x <= IZR b.
Proof.
  intros [Ha Hb]. unfold round. destruct (base_Int_part (x + / 2)) as [H1 H2].
  split; apply IZR_le.
  - assert (IZR a - 1 < IZR (Int_part (x + / 2))) by lra.
    rewrite <- minus_IZR in H. apply lt_IZR in H. lia.
  - assert (IZR (Int_part (x + / 2)) < IZR b + 1) by lra.
    rewrite <- plus_IZR in H. apply lt_IZR in H. lia.
Qed.

(** Dragging on the filter display emits a whole frequency between 20 Hz
    and 20 kHz and a Q between 0 and 30, keeping the type and the enabled
    flag; nothing is emitted while not dragging or before the display is
    rendered, and a mouse down on a disabled filter does nothing. *)
Theorem filter_drag_in_range (e : MouseEvent) (modelValue : FilterProps) (v : view) :
  (isDragging v = false \/ svgElement v = None -> handleMouseMove e modelValue v = v) /\
  (isDragging v = true -> is_Some (svgElement v) ->
   exists newFreq newQ (n : Z),
     emits (handleMouseMove e modelValue v)
     = emits v ++ [mkFilterProps (enabled modelValue) (type modelValue) newFreq newQ] /\
     newFreq = IZR n /\ 20 <= newFreq <= 20000 /\ 0 <= newQ <= 30) /\
  (enabled modelValue = false -> handleMouseDown e modelValue v = v) /\
  (emits (handleMouseUp v) = emits v /\ isDragging (handleMouseUp v) = false).
Proof.
  split; [|split; [|split]].
  - intros [Hd|Hs]; unfold handleMouseMove; [by rewrite Hd|].
    rewrite Hs. by destruct (isDragging v).
  - intros Hd [[rl rt] Hs]. unfold handleMouseMove. rewrite Hd, Hs. cbv zeta.
    eexists _, _, _. split; [reflexivity|]. split; [reflexivity|]. split.
    + apply (round_range 20 20000). apply (filter_scale_ranges 0 0).
    + apply clamp_range. lra.
  - intros He. unfold handleMouseDown. by rewrite He.
  - done.
Qed.

End filter.

(** ** The modulator rack *)

Lemma onUpdateMod_fresh (updatedMod : ModulatorRack.Modulator) (modulators : list ModulatorRack.Modulator) :
  ModulatorRack.id_ updatedMod ∉ map ModulatorRack.id_ modulators ->
  ModulatorRack.onUpdateMod updatedMod modulators = modulators.
Proof.
  intros Hnot. unfold ModulatorRack.onUpdateMod.
  rewrite <- (List.map_id modulators) at 2. apply List.map_ext_in. intros m Hm.
  destruct (String.eqb_spec (ModulatorRack.id_ m) (ModulatorRack.id_ updatedMod)) as [E|]; [|done].
  exfalso. apply Hnot. rewrite <- E. apply list_elem_of_In. by apply in_map.
Qed.

(** An LFO added under an id no modulator has yet is appended with the
    default settings, and an update for that id then replaces exactly this
    last entry: the modulators before it are emitted unchanged. *)
Theorem added_lfo_updated_alone (uuid : string) (updatedMod : ModulatorRack.Modulator)
    (modulators : list ModulatorRack.Modulator) :
  uuid ∉ map ModulatorRack.id_ modulators ->
  ModulatorRack.id_ updatedMod = uuid ->
  ModulatorRack.addLFO uuid modulators
    = modulators ++ [ModulatorRack.mkModulator uuid "LFO" "filterFrequency" 5 0.5] /\
  ModulatorRack.onUpdateMod updatedMod (ModulatorRack.addLFO uuid modulators)
    = modulators ++ [updatedMod].
Proof.
  intros Hfresh Hid. split; [reflexivity|].
  unfold ModulatorRack.addLFO. cbv zeta. unfold ModulatorRack.onUpdateMod.
  rewrite List.map_app. f_equal.
  - apply (onUpdateMod_fresh updatedMod modulators). by rewrite Hid.
  - cbn. by rewrite Hid, String.eqb_refl.
Qed.

Lemma added_lfo_updated_alone_witness :
  ModulatorRack.addLFO "b" [ModulatorRack.mkModulator "a" "LFO" "filterFrequency" 2 1]
    = [ModulatorRack.mkModulator "a" "LFO" "filterFrequency" 2 1]
      ++ [ModulatorRack.mkModulator "b" "LFO" "filterFrequency" 5 0.5] /\
  ModulatorRack.onUpdateMod (ModulatorRack.mkModulator "b" "LFO" "pan" 1 1)
      (ModulatorRack.addLFO "b" [ModulatorRack.mkModulator "a" "LFO" "filterFrequency" 2 1])
    = [ModulatorRack.mkModulator "a" "LFO" "filterFrequency" 2 1]
      ++ [ModulatorRack.mkModulator "b" "LFO" "pan" 1 1].
Proof.
  apply (added_lfo_updated_alone "b" (ModulatorRack.mkModulator "b" "LFO" "pan" 1 1)
           [ModulatorRack.mkModulator "a" "LFO" "filterFrequency" 2 1]).
  - cbn. intros H. apply list_elem_of_singleton in H. discriminate.
  - reflexivity.
Defined.
